(** * riff: a structural dump of RIFF/WAVE files

    A shallow embedding of [riff.c] and the properties of its bounded
    cursor, header validation, top-level subchunk walker and LIST/INFO
    parser.

    Conventions of the embedding.
    - The memory-mapped file is a [list byte]; a pointer into it is its
      offset from the start of the mapping (a [nat]).  [end] is the offset
      one past the last byte of the current view.
    - Every observable effect is an [event]: text sent to stdout, text sent
      to stderr, and each single byte loaded from the mapping.  A
      computation is the list of events it produced followed by how it
      stopped.
    - A C [return e;] inside a function body is the result [Return e]; the
      three ways a run can go wrong outside C's defined behaviour are
      [Trap]s: a failed [assert], a load outside the mapping, and a loop
      that exhausted the iteration budget given to the model.
    - The [uint32_t] and [uint16_t] values read from the file are [N]
      (below 2^32 and 2^16 by construction); offsets into the mapping and
      the [size_t] byte counts derived from them are [nat].  The host is
      little-endian, as the file format is (the [ntohl] calls of the source
      are commented out).  The [int] counter [subchunk] is a [Z]: it stays
      below 2^31 for any file shorter than 16 GiB.
    - A loop runs under an iteration budget ([fuel]); the budget is shown to
      be immaterial once it exceeds the length of the file. *)

From Stdlib Require Import List String Ascii Strings.Byte NArith ZArith Lia Bool Arith DecimalString.
Import ListNotations.

Local Open Scope string_scope.
Local Open Scope list_scope.
Local Open Scope nat_scope.

(** ** Events, results and the computation monad *)

Inductive event : Type :=
| Stdout (s : string)
| Stderr (s : string)
| Load (p : nat).

Inductive trap : Type :=
| AssertFailed
| OutOfBounds
| OutOfFuel.

Inductive res (A : Type) : Type :=
| Val (a : A)
| Return (code : Z)
| Trap (t : trap).

Arguments Val {A} a.
Arguments Return {A} code.
Arguments Trap {A} t.

Definition M (A : Type) : Type := (list event * res A)%type.

Definition ret {A} (a : A) : M A := ([], Val a).

Definition bind {A B} (m : M A) (f : A -> M B) : M B :=
  match m with
  | (t, Val a) => let (t', r) := f a in (t ++ t', r)
  | (t, Return c) => (t, Return c)
  | (t, Trap x) => (t, Trap x)
  end.

Definition return_ {A} (code : Z) : M A := ([], Return code).

Definition trap_ {A} (x : trap) : M A := ([], Trap x).

(** Calling a function whose body is [m]: its [return] becomes the value of
    the call expression. *)
Definition call (m : M Z) : M Z :=
  match m with
  | (t, Val c) => (t, Val c)
  | (t, Return c) => (t, Val c)
  | (t, Trap x) => (t, Trap x)
  end.

(** [m] preceded by the events [t]. *)
Definition emit {A} (t : list event) (m : M A) : M A := (t ++ fst m, snd m).

Declare Scope riff_scope.
Delimit Scope riff_scope with riff.

Notation "x <- m ;; k" := (bind m (fun x => k))
  (at level 61, m at next level, right associativity) : riff_scope.
Notation "' p <- m ;; k" := (bind m (fun x => let 'p := x in k))
  (at level 61, p pattern, m at next level, right associativity) : riff_scope.
Notation "m ;; k" := (bind m (fun _ => k))
  (at level 61, right associativity) : riff_scope.

Local Open Scope riff_scope.

(** [while (cond) body] over the loop-carried variables [s].  The budget
    bounds the number of times the condition is evaluated. *)
Fixpoint while_ {S : Type} (fuel : nat) (cond : S -> M bool) (body : S -> M S)
    (s : S) : M S :=
  match fuel with
  | O => trap_ OutOfFuel
  | Datatypes.S k =>
      b <- cond s ;;
      if b then s' <- body s ;; while_ k cond body s' else ret s
  end.

(** Projections of a trace. *)
Fixpoint stdout_of (t : list event) : string :=
  match t with
  | [] => EmptyString
  | Stdout s :: t' => (s ++ stdout_of t')%string
  | _ :: t' => stdout_of t'
  end.

Fixpoint stderr_of (t : list event) : string :=
  match t with
  | [] => EmptyString
  | Stderr s :: t' => (s ++ stderr_of t')%string
  | _ :: t' => stderr_of t'
  end.

Fixpoint loads_of (t : list event) : list nat :=
  match t with
  | [] => []
  | Load p :: t' => p :: loads_of t'
  | _ :: t' => loads_of t'
  end.

(** ** C library pieces *)

Definition EXIT_SUCCESS : Z := 0.
Definition EXIT_FAILURE : Z := 1.

Definition nl : string := String "010"%char EmptyString.
Definition tab : string := String "009"%char EmptyString.

Definition printf (s : string) : M unit := ([Stdout s], Val tt).
Definition fprintf_stderr (s : string) : M unit := ([Stderr s], Val tt).

(** [%u] and [%zu]. *)
Definition fmt_u (n : N) : string := NilZero.string_of_uint (N.to_uint n).

(** [%d]. *)
Definition fmt_d (z : Z) : string := NilZero.string_of_int (Z.to_int z).

(** [%c]. *)
Definition fmt_c (b : byte) : string := String (ascii_of_byte b) EmptyString.

(** The bytes a [%s] conversion prints: up to the terminating NUL. *)
Fixpoint c_str (buf : list byte) : list byte :=
  match buf with
  | [] => []
  | b :: buf' => if Byte.eqb b x00 then [] else b :: c_str buf'
  end.

(** [%.*s] with precision [prec]: at most [prec] bytes, stopping at a NUL. *)
Definition fmt_s_prec (prec : nat) (buf : list byte) : string :=
  string_of_list_byte (c_str (firstn prec buf)).

(** The value of a [char] holding byte [b] ([char] is signed on the
    platforms the tool is built for; every use below gives the same answer
    for an unsigned [char]). *)
Definition char_of_byte (b : byte) : Z :=
  let n := Z.of_N (Byte.to_N b) in
  if (n <? 128)%Z then n else (n - 256)%Z.

(** [isascii(c)]: no bit above the low seven is set. *)
Definition isascii (c : Z) : bool := (Z.land c (Z.lnot 127) =? 0)%Z.

Fixpoint bytes_eqb (a b : list byte) : bool :=
  match a, b with
  | [], [] => true
  | x :: a', y :: b' => Byte.eqb x y && bytes_eqb a' b'
  | _, _ => false
  end.

(** [memcmp(a, b, n) == 0]. *)
Definition memcmp_eq (a b : list byte) (n : nat) : bool :=
  bytes_eqb (firstn n a) (firstn n b).

(** The unsigned integer stored little-endian in an object's bytes. *)
Fixpoint uint_le (bs : list byte) : N :=
  match bs with
  | [] => 0%N
  | b :: bs' => (Byte.to_N b + 256 * uint_le bs')%N
  end.

(** An object of [n] bytes before anything is stored in it (every one of
    the locals below is written before it is read). *)
Definition fresh_object (n : nat) : list byte := repeat x00 n.

(** A [const char *]: how to fetch the byte at index [i]. *)
Definition ptr : Type := nat -> M byte.

(** A pointer into a local array. *)
Definition local (buf : list byte) : ptr :=
  fun i => match nth_error buf i with
           | Some b => ret b
           | None => trap_ OutOfBounds
           end.

Section Mapped.

(** The bytes of the mapping. *)
Variable mem : list byte.

Definition load (p : nat) : M byte :=
  match nth_error mem p with
  | Some b => ([Load p], Val b)
  | None => ([Load p], Trap OutOfBounds)
  end.

(** A pointer into the mapping, [it] bytes from its start. *)
Definition mapped (it : nat) : ptr := fun i => load (it + i).

(** [memcpy(dst, mem + it, n)]: the [n] source bytes, in order. *)
Fixpoint memcpy_src (it n : nat) : M (list byte) :=
  match n with
  | O => ret []
  | S k => b <- load it ;; bs <- memcpy_src (S it) k ;; ret (b :: bs)
  end.

(** ** [print_raw] *)

Definition print_raw_char (b : byte) : M unit :=
  let c := char_of_byte b in
  if (c =? 0)%Z then printf "\0"
  else if (c =? 10)%Z then printf "\n"
  else if (32 <=? c)%Z && (c <=? 126)%Z then printf (fmt_c b)
  else printf "\??".

Fixpoint print_raw_from (it : ptr) (i n : nat) : M unit :=
  match n with
  | O => ret tt
  | S k => b <- it i ;; print_raw_char b ;; print_raw_from it (S i) k
  end.

Definition print_raw (it : ptr) (len : nat) : M unit := print_raw_from it 0 len.

(** ** [is_ascii] *)

Fixpoint is_ascii_from (buf : ptr) (i n : nat) : M bool :=
  match n with
  | O => ret true
  | S k =>
      b <- buf i ;;
      if negb (isascii (char_of_byte b)) then ret false
      else is_ascii_from buf (S i) k
  end.

Definition is_ascii (buf : ptr) (len : nat) : M bool := is_ascii_from buf 0 len.

(** ** The bounded cursor: [remaining_read] and [read_bytes] *)

Definition remaining_read (it e : nat) : M nat :=
  if it <=? e then ret (e - it) else trap_ AssertFailed.

(** The result is the returned pointer ([None] is [NULL]) and the contents
    of [buf] afterwards. *)
Definition read_bytes (it e : nat) (buf : list byte) (bytes : nat)
    : M (option nat * list byte) :=
  r <- remaining_read it e ;;
  if r <? bytes then ret (None, buf)
  else
    src <- memcpy_src it bytes ;;
    ret (Some (it + bytes), src ++ skipn bytes buf).

(** [if (!(it = read_bytes(it, end, buf, n))) return EXIT_FAILURE;] *)
Definition read_or_fail (it e : nat) (buf : list byte) (bytes : nat)
    : M (nat * list byte) :=
  '(p, buf') <- read_bytes it e buf bytes ;;
  match p with
  | Some it' => ret (it', buf')
  | None => return_ EXIT_FAILURE
  end.

(** ** [parse_subchunk_INFO] *)

(** Track Artist (IART), Album Artist (IAAR), Composer (ICOM/IMUS),
    Title (INAM), Product (IPRD), Album Title (IALB), Track Number (ITRK),
    Date Created (ICRD/IYER), Genre (IGNR/IGRE), Comments (ICMT),
    Copyright (ICOP), Software (ISFT). *)

(** [while (remaining_read(it, end) > 0 && *it == '\0')], over
    [(it, extra)]. *)
Definition info_pad_cond (e : nat) (s : nat * bool) : M bool :=
  let '(it, _) := s in
  r <- remaining_read it e ;;
  if 0 <? r then b <- load it ;; ret (Byte.eqb b x00) else ret false.

Definition info_pad_body (s : nat * bool) : M (nat * bool) :=
  let '(it, extra) := s in
  (if negb extra then printf "Extra[" else ret tt) ;;
  printf "\0" ;;
  ret (S it, true).

(** [while (remaining_read(it, end))], over [(it, buf)]. *)
Definition info_cond (e : nat) (s : nat * list byte) : M bool :=
  r <- remaining_read (fst s) e ;; ret (negb (r =? 0)).

Definition info_field (fuel e : nat) (s : nat * list byte)
    : M (nat * list byte) :=
  let '(it, buf) := s in
  '(it, buf) <- read_or_fail it e buf 4 ;;
  printf (tab ++ fmt_s_prec 4 buf ++ "[")%string ;;
  '(it, size_obj) <- read_or_fail it e (fresh_object 4) 4 ;;
  let size := uint_le size_obj in
  printf ("size: " ++ fmt_u size ++ ", '")%string ;;
  r <- remaining_read it e ;;
  if (N.of_nat r <? size)%N then
    r' <- remaining_read it e ;;
    fprintf_stderr ("ERROR: INFO subcunk size[" ++ fmt_u size
                    ++ "] exceeds size[" ++ fmt_u (N.of_nat r') ++ "]" ++ nl)%string ;;
    return_ EXIT_FAILURE
  else
    print_raw (mapped it) (N.to_nat size) ;;
    printf "']" ;;
    let it := it + N.to_nat size in
    '(it, extra) <- while_ fuel (info_pad_cond e) info_pad_body (it, false) ;;
    (if extra : bool then printf "]" else ret tt) ;;
    printf nl ;;
    ret (it, buf).

Definition parse_subchunk_INFO (fuel raw length : nat) : M Z :=
  let buf := fresh_object 4 in
  let it := raw in
  let e := raw + length in
  '(it, buf) <- read_or_fail it e buf 4 ;;
  (if memcmp_eq buf (list_byte_of_string "INFO") 4 then
     printf (fmt_s_prec 4 buf ++ "[" ++ nl)%string ;;
     while_ fuel (info_cond e) (info_field fuel e) (it, buf) ;;
     printf "]"
   else
     printf "...") ;;
  return_ EXIT_SUCCESS.

(** ** [AudioFormat] *)

Definition AudioFormat_cases : list (N * string) :=
  [
    (0x0000, "Unknown");
    (0x0001, "PCM");
    (0x0002, "Microsoft ADPCM");
    (0x0003, "Microsoft IEEE float");
    (0x0004, "Compaq VSELP");
    (0x0005, "IBM CVSD");
    (0x0006, "ITU G.711 a-law");
    (0x0007, "ITU G.711 u-law");
    (0x0008, "Microsoft DTS");
    (0x0009, "DRM");
    (0x000A, "WMA 9 Speech");
    (0x000B, "Microsoft Windows Media RT Voice");
    (0x0010, "OKI-ADPCM");
    (0x0011, "Intel IMA/DVI-ADPCM");
    (0x0012, "Videologic Mediaspace ADPCM");
    (0x0013, "Sierra ADPCM");
    (0x0014, "Antex G.723 ADPCM");
    (0x0015, "DSP Solutions DIGISTD");
    (0x0016, "DSP Solutions DIGIFIX");
    (0x0017, "Dialogic OKI ADPCM");
    (0x0018, "Media Vision ADPCM");
    (0x0019, "HP CU");
    (0x001A, "HP Dynamic Voice");
    (0x0020, "Yamaha ADPCM");
    (0x0021, "SONARC Speech Compression");
    (0x0022, "DSP Group True Speech");
    (0x0023, "Echo Speech Corp.");
    (0x0024, "Virtual Music Audiofile AF36");
    (0x0025, "Audio Processing Tech.");
    (0x0026, "Virtual Music Audiofile AF10");
    (0x0027, "Aculab Prosody 1612");
    (0x0028, "Merging Tech. LRC");
    (0x0030, "Dolby AC2");
    (0x0031, "Microsoft GSM610");
    (0x0032, "MSN Audio");
    (0x0033, "Antex ADPCM");
    (0x0034, "Control Resources VQLPC");
    (0x0035, "DSP Solutions DIGIREAL");
    (0x0036, "DSP Solutions DIGIADPCM");
    (0x0037, "Control Resources CR10");
    (0x0038, "Natural MicroSystems VBX ADPCM");
    (0x0039, "Crystal Semiconductors IMA ADPCM");
    (0x003A, "Echo Speech ECHOSC3");
    (0x003B, "Rockwell ADPCM");
    (0x003C, "Rockwell DIGITALK");
    (0x003D, "Xebec Multimedia");
    (0x0040, "Antex G.721 ADPCM");
    (0x0041, "Antex G.728 CELP");
    (0x0042, "Microsoft MSG723");
    (0x0043, "IBM AVC ADPCM");
    (0x0045, "ITU-T G.726");
    (0x0050, "Microsoft MPEG");
    (0x0051, "RT23 or PAC");
    (0x0052, "InSoft RT24");
    (0x0053, "InSoft PAC");
    (0x0055, "MP3");
    (0x0059, "Cirrus");
    (0x0060, "Cirrus Logic");
    (0x0061, "ESS Tech. PCM");
    (0x0062, "Voxware Inc.");
    (0x0063, "Canopus ATRAC");
    (0x0064, "APICOM G.726 ADPCM");
    (0x0065, "APICOM G.722 ADPCM");
    (0x0066, "Microsoft DSAT");
    (0x0067, "Microsoft DSAT-DISPLAY");
    (0x0069, "Voxware Byte Aligned");
    (0x0070, "Voxware ACB");
    (0x0071, "Voxware AC10");
    (0x0072, "Voxware AC16");
    (0x0073, "Voxware AC20");
    (0x0074, "Voxware MetaVoice");
    (0x0075, "Voxware MetaSound");
    (0x0076, "Voxware RT29HW");
    (0x0077, "Voxware VR12");
    (0x0078, "Voxware VR18");
    (0x0079, "Voxware TQ40");
    (0x007A, "Voxware SC3");
    (0x007B, "Voxware SC3");
    (0x0080, "Soundsoft");
    (0x0081, "Voxware TQ60");
    (0x0082, "Microsoft MSRT24");
    (0x0083, "AT&T G.729A");
    (0x0084, "Motion Pixels MVI-MV12");
    (0x0085, "DataFusion G.726");
    (0x0086, "DataFusion GSM610");
    (0x0088, "Iterated Systems Audio");
    (0x0089, "Onlive");
    (0x008A, "Multitude, Inc. FT SX20");
    (0x008B, "Infocom IT’S A/S G.721 ADPCM");
    (0x008C, "Convedia G729");
    (0x008D, "Congruency, Inc. (not specified)");
    (0x0091, "Siemens SBC24");
    (0x0092, "Sonic Foundry Dolby AC3 APDIF");
    (0x0093, "MediaSonic G.723");
    (0x0094, "Aculab Prosody 8kbps");
    (0x0097, "ZyXEL ADPCM");
    (0x0098, "Philips LPCBB");
    (0x0099, "Studer Professional Audio Packed");
    (0x00A0, "Maiden PhonyTalk");
    (0x00A1, "Racal Recorder GSM");
    (0x00A2, "Racal Recorder G720.a");
    (0x00A3, "Racal G723.1");
    (0x00A4, "Racal Tetra ACELP");
    (0x00B0, "NEC AAC NEC Corporation");
    (0x00FF, "AAC");
    (0x0100, "Rhetorex ADPCM");
    (0x0101, "IBM u-Law");
    (0x0102, "IBM a-Law");
    (0x0103, "IBM ADPCM");
    (0x0111, "Vivo G.723");
    (0x0112, "Vivo Siren");
    (0x0120, "Philips Speech Processing CELP");
    (0x0121, "Philips Speech Processing GRUNDIG");
    (0x0123, "Digital G.723");
    (0x0125, "Sanyo LD ADPCM");
    (0x0130, "Sipro Lab ACEPLNET");
    (0x0131, "Sipro Lab ACELP4800");
    (0x0132, "Sipro Lab ACELP8V3");
    (0x0133, "Sipro Lab G.729");
    (0x0134, "Sipro Lab G.729A");
    (0x0135, "Sipro Lab Kelvin");
    (0x0136, "VoiceAge AMR");
    (0x0140, "Dictaphone G.726 ADPCM");
    (0x0150, "Qualcomm PureVoice");
    (0x0151, "Qualcomm HalfRate");
    (0x0155, "Ring Zero Systems TUBGSM");
    (0x0160, "Microsoft Audio1");
    (0x0161, "Windows Media Audio V2 V7 V8 V9 / DivX audio (WMA) / Alex AC3 Audio");
    (0x0162, "Windows Media Audio Professional V9");
    (0x0163, "Windows Media Audio Lossless V9");
    (0x0164, "WMA Pro over S/PDIF");
    (0x0170, "UNISYS NAP ADPCM");
    (0x0171, "UNISYS NAP ULAW");
    (0x0172, "UNISYS NAP ALAW");
    (0x0173, "UNISYS NAP 16K");
    (0x0174, "MM SYCOM ACM SYC008 SyCom Technologies");
    (0x0175, "MM SYCOM ACM SYC701 G726L SyCom Technologies");
    (0x0176, "MM SYCOM ACM SYC701 CELP54 SyCom Technologies");
    (0x0177, "MM SYCOM ACM SYC701 CELP68 SyCom Technologies");
    (0x0178, "Knowledge Adventure ADPCM");
    (0x0180, "Fraunhofer IIS MPEG2AAC");
    (0x0190, "Digital Theater Systems DTS DS");
    (0x0200, "Creative Labs ADPCM");
    (0x0202, "Creative Labs FASTSPEECH8");
    (0x0203, "Creative Labs FASTSPEECH10");
    (0x0210, "UHER ADPCM");
    (0x0215, "Ulead DV ACM");
    (0x0216, "Ulead DV ACM");
    (0x0220, "Quarterdeck Corp.");
    (0x0230, "I-Link VC");
    (0x0240, "Aureal Semiconductor Raw Sport");
    (0x0241, "ESST AC3");
    (0x0250, "Interactive Products HSX");
    (0x0251, "Interactive Products RPELP");
    (0x0260, "Consistent CS2");
    (0x0270, "Sony SCX");
    (0x0271, "Sony SCY");
    (0x0272, "Sony ATRAC3");
    (0x0273, "Sony SPC");
    (0x0280, "TELUM Telum Inc.");
    (0x0281, "TELUMIA Telum Inc.");
    (0x0285, "Norcom Voice Systems ADPCM");
    (0x0300, "Fujitsu FM TOWNS SND");
    (0x0301, "Fujitsu (not specified)");
    (0x0302, "Fujitsu (not specified)");
    (0x0303, "Fujitsu (not specified)");
    (0x0304, "Fujitsu (not specified)");
    (0x0305, "Fujitsu (not specified)");
    (0x0306, "Fujitsu (not specified)");
    (0x0307, "Fujitsu (not specified)");
    (0x0308, "Fujitsu (not specified)");
    (0x0350, "Micronas Semiconductors, Inc. Development");
    (0x0351, "Micronas Semiconductors, Inc. CELP833");
    (0x0400, "Brooktree Digital");
    (0x0401, "Intel Music Coder (IMC)");
    (0x0402, "Ligos Indeo Audio");
    (0x0450, "QDesign Music");
    (0x0500, "On2 VP7 On2 Technologies");
    (0x0501, "On2 VP6 On2 Technologies");
    (0x0680, "AT&T VME VMPCM");
    (0x0681, "AT&T TCP");
    (0x0700, "YMPEG Alpha (dummy for MPEG-2 compressor)");
    (0x08AE, "ClearJump LiteWave (lossless)");
    (0x1000, "Olivetti GSM");
    (0x1001, "Olivetti ADPCM");
    (0x1002, "Olivetti CELP");
    (0x1003, "Olivetti SBC");
    (0x1004, "Olivetti OPR");
    (0x1100, "Lernout & Hauspie");
    (0x1101, "Lernout & Hauspie CELP codec");
    (0x1102, "Lernout & Hauspie SBC codec");
    (0x1103, "Lernout & Hauspie SBC codec");
    (0x1104, "Lernout & Hauspie SBC codec");
    (0x1400, "Norris Comm. Inc.");
    (0x1401, "ISIAudio");
    (0x1500, "AT&T Soundspace Music Compression");
    (0x181C, "VoxWare RT24 speech codec");
    (0x181E, "Lucent elemedia AX24000P Music codec");
    (0x1971, "Sonic Foundry LOSSLESS");
    (0x1979, "Innings Telecom Inc. ADPCM");
    (0x1C07, "Lucent SX8300P speech codec");
    (0x1C0C, "Lucent SX5363S G.723 compliant codec");
    (0x1F03, "CUseeMe DigiTalk (ex-Rocwell)");
    (0x1FC4, "NCT Soft ALF2CD ACM");
    (0x2000, "FAST Multimedia DVM");
    (0x2001, "Dolby DTS (Digital Theater System)");
    (0x2002, "RealAudio 1 / 2 14.4");
    (0x2003, "RealAudio 1 / 2 28.8");
    (0x2004, "RealAudio G2 / 8 Cook (low bitrate)");
    (0x2005, "RealAudio 3 / 4 / 5 Music (DNET)");
    (0x2006, "RealAudio 10 AAC (RAAC)");
    (0x2007, "RealAudio 10 AAC+ (RACP)");
    (0x2500, "Reserved range to 0x2600 Microsoft");
    (0x3313, "makeAVIS (ffvfw fake AVI sound from AviSynth scripts)");
    (0x4143, "Divio MPEG-4 AAC audio");
    (0x4201, "Nokia adaptive multirate");
    (0x4243, "Divio G726 Divio, Inc.");
    (0x434C, "LEAD Speech");
    (0x564C, "LEAD Vorbis");
    (0x5756, "WavPack Audio");
    (0x674F, "Ogg Vorbis (mode 1)");
    (0x6750, "Ogg Vorbis (mode 2)");
    (0x6751, "Ogg Vorbis (mode 3)");
    (0x676F, "Ogg Vorbis (mode 1+)");
    (0x6770, "Ogg Vorbis (mode 2+)");
    (0x6771, "Ogg Vorbis (mode 3+)");
    (0x7000, "3COM NBX 3Com Corporation");
    (0x706D, "FAAD AAC");
    (0x7A21, "GSM-AMR (CBR, no SID)");
    (0x7A22, "GSM-AMR (VBR, including SID)");
    (0xA100, "Comverse Infosys Ltd. G723 1");
    (0xA101, "Comverse Infosys Ltd. AVQSBC");
    (0xA102, "Comverse Infosys Ltd. OLDSBC");
    (0xA103, "Symbol Technologies G729A");
    (0xA104, "VoiceAge AMR WB VoiceAge Corporation");
    (0xA105, "Ingenient Technologies Inc. G726");
    (0xA106, "ISO/MPEG-4 advanced audio Coding");
    (0xA107, "Encore Software Ltd G726");
    (0xA109, "Speex ACM Codec xiph.org");
    (0xDFAC, "DebugMode SonicFoundry Vegas FrameServer ACM Codec");
    (0xE708, "Unknown");
    (0xF1AC, "Free Lossless Audio Codec FLAC");
    (0xFFFE, "Extensible");
    (0xFFFF, "Development")
  ]%N.

Fixpoint switch (cases : list (N * string)) (v : N) : option string :=
  match cases with
  | [] => None
  | (k, s) :: cases' => if (v =? k)%N then Some s else switch cases' v
  end.

Definition AudioFormat (format : N) : string :=
  match switch AudioFormat_cases format with
  | Some s => s
  | None => fmt_d (Z.of_N format)
  end.

(** ** [parse_RIFF] *)

(** The first block: the RIFF preamble. *)
Definition parse_RIFF_header (e it : nat) (buf : list byte)
    : M (nat * list byte) :=
  '(it, buf) <- read_or_fail it e buf 4 ;;
  if negb (memcmp_eq buf (list_byte_of_string "RIFF") 4) then
    return_ EXIT_FAILURE
  else
    printf (fmt_s_prec 4 buf ++ "[")%string ;;
    '(it, chunk_size_obj) <- read_or_fail it e (fresh_object 4) 4 ;;
    let chunk_size := uint_le chunk_size_obj in
    printf ("ChunkSize: " ++ fmt_u chunk_size ++ ", ")%string ;;
    r <- remaining_read it e ;;
    if (N.of_nat r <? chunk_size)%N then
      r' <- remaining_read it e ;;
      fprintf_stderr ("ERROR: RIFF header ChunkSize[" ++ fmt_u chunk_size
                      ++ "] is larger then the remaining file size["
                      ++ fmt_u (N.of_nat r') ++ "]" ++ nl)%string ;;
      return_ EXIT_FAILURE
    else
      '(it, buf) <- read_or_fail it e buf 4 ;;
      printf ("Format: '" ++ fmt_s_prec 4 buf ++ "']" ++ nl)%string ;;
      ret (it, buf).

(** The second block: the [fmt ] chunk. *)
Definition parse_RIFF_fmt (e it : nat) (buf : list byte) (subchunk : Z)
    : M (nat * list byte * Z) :=
  let bytes4 := fresh_object 4 in
  let bytes2 := fresh_object 2 in
  '(it, buf) <- read_or_fail it e buf 4 ;;
  if negb (memcmp_eq buf (list_byte_of_string "fmt ") 4) then
    return_ EXIT_FAILURE
  else
    let subchunk := (subchunk + 1)%Z in
    printf ("[SubChunk" ++ fmt_d subchunk ++ "Id: '" ++ fmt_s_prec 4 buf
            ++ "', ")%string ;;
    '(it, bytes4) <- read_or_fail it e bytes4 4 ;;
    printf ("size: " ++ fmt_u (uint_le bytes4) ++ ", ")%string ;;
    '(it, bytes2) <- read_or_fail it e bytes2 2 ;;
    printf ("AudioFormat: '" ++ AudioFormat (uint_le bytes2) ++ "', ")%string ;;
    '(it, bytes2) <- read_or_fail it e bytes2 2 ;;
    printf ("NumChannels: " ++ fmt_u (uint_le bytes2) ++ ", ")%string ;;
    '(it, bytes4) <- read_or_fail it e bytes4 4 ;;
    printf ("SampleRate: " ++ fmt_u (uint_le bytes4) ++ ", ")%string ;;
    '(it, bytes4) <- read_or_fail it e bytes4 4 ;;
    printf ("ByteRate: " ++ fmt_u (uint_le bytes4) ++ ", ")%string ;;
    '(it, bytes2) <- read_or_fail it e bytes2 2 ;;
    printf ("BlockAlign: " ++ fmt_u (uint_le bytes2) ++ ", ")%string ;;
    '(it, bytes2) <- read_or_fail it e bytes2 2 ;;
    printf ("BitsPerSample: " ++ fmt_u (uint_le bytes2) ++ "]" ++ nl)%string ;;
    ret (it, buf, subchunk).

(** [while (remaining_read(it, end) > 0)], over [(it, buf, subchunk)]. *)
Definition walk_cond (e : nat) (s : nat * list byte * Z) : M bool :=
  let '(it, _, _) := s in
  r <- remaining_read it e ;; ret (0 <? r).

Definition walk_subchunk (fuel e : nat) (s : nat * list byte * Z)
    : M (nat * list byte * Z) :=
  let '(it, buf, subchunk) := s in
  '(it, buf) <- read_or_fail it e buf 4 ;;
  a <- is_ascii (local buf) 4 ;;
  if negb a then
    printf ("'" ++ fmt_s_prec 4 buf ++ "'" ++ nl)%string ;;
    return_ EXIT_FAILURE
  else
    '(it, size_obj) <- read_or_fail it e (fresh_object 4) 4 ;;
    let size := uint_le size_obj in
    r <- remaining_read it e ;;
    if (N.of_nat r <? size)%N then
      r' <- remaining_read it e ;;
      fprintf_stderr ("ERROR: SubChunk" ++ fmt_d subchunk ++ "Id size["
                      ++ fmt_u size
                      ++ "] extends above the remaining size of file["
                      ++ fmt_u (N.of_nat r') ++ "]" ++ nl)%string ;;
      return_ EXIT_FAILURE
    else
      let subchunk := (subchunk + 1)%Z in
      printf ("[SubChunk" ++ fmt_d subchunk ++ "Id: '" ++ fmt_s_prec 4 buf
              ++ "', ")%string ;;
      printf ("size: " ++ fmt_u size ++ ", ")%string ;;
      (if memcmp_eq (list_byte_of_string "LIST") buf 4 then
         res <- call (parse_subchunk_INFO fuel it (N.to_nat size)) ;;
         if negb (res =? EXIT_SUCCESS)%Z then return_ res else ret tt
       else
         a <- is_ascii (mapped it) (N.to_nat size) ;;
         if a then print_raw (mapped it) (N.to_nat size) else printf "...") ;;
      printf ("]" ++ nl)%string ;;
      ret (it + N.to_nat size, buf, subchunk).

Definition parse_RIFF (fuel raw length : nat) : M Z :=
  let buf := fresh_object 4 in
  let it := raw in
  let e := raw + length in
  let subchunk := 0%Z in
  '(it, buf) <- parse_RIFF_header e it buf ;;
  '(it, buf, subchunk) <- parse_RIFF_fmt e it buf subchunk ;;
  while_ fuel (walk_cond e) (walk_subchunk fuel e) (it, buf, subchunk) ;;
  return_ EXIT_SUCCESS.

End Mapped.

(** ** [main] *)

(** What the operating system answers: [fstat] gives the size or fails,
    [mmap] gives the mapped bytes or fails; a failure carries the
    [strerror] text. *)
Record file : Type := {
  st_size : string + nat;
  mapping : string + list byte
}.

(** [%s] of a command-line argument ([None] is a null pointer, which the C
    library prints as [(null)]). *)
Definition fmt_arg (a : option string) : string :=
  match a with
  | Some s => s
  | None => "(null)"
  end.

(** [args] lists [args[0] .. args[argc-1]]; the entry after the last one is
    the null pointer.  [open] is the file system: the file a path names, or
    the [strerror] text of the failure. *)
Definition main (fuel : nat) (open : option string -> string + file)
    (args : list string) : M Z :=
  let argc := List.length args in
  let res := EXIT_FAILURE in
  (if negb (argc =? 2) then
     fprintf_stderr (fmt_arg (nth_error args 0) ++ " file" ++ nl)%string
   else ret tt) ;;
  match open (nth_error args 1) with
  | inl err =>
      fprintf_stderr ("open(" ++ fmt_arg (nth_error args 1) ++ "): " ++ err
                      ++ nl)%string ;;
      return_ res
  | inr fd =>
      match st_size fd with
      | inl err =>
          fprintf_stderr ("fstat(" ++ fmt_arg (nth_error args 1) ++ "): "
                          ++ err ++ nl)%string ;;
          return_ res
      | inr size =>
          match mapping fd with
          | inl err =>
              fprintf_stderr ("mmap(): " ++ err ++ nl)%string ;;
              return_ res
          | inr raw =>
              res <- call (parse_RIFF raw fuel 0 size) ;;
              return_ res
          end
      end
  end.

(** ** Building test inputs *)

Definition byte_of_N (n : N) : byte :=
  match Byte.of_N (n mod 256) with
  | Some b => b
  | None => x00
  end.

(** [n] as [k] little-endian bytes. *)
Fixpoint le_bytes (k : nat) (n : N) : list byte :=
  match k with
  | O => []
  | S k' => byte_of_N n :: le_bytes k' (n / 256)
  end.

Definition u16 : N -> list byte := le_bytes 2.
Definition u32 : N -> list byte := le_bytes 4.

(** A RIFF preamble declaring [chunk_size], followed by a [fmt ] chunk
    declaring [fmt_size], for 8 kHz mono 16-bit PCM: 36 bytes. *)
Definition wav_header (chunk_size fmt_size : N) : list byte :=
  list_byte_of_string "RIFF" ++ u32 chunk_size ++ list_byte_of_string "WAVE"
  ++ list_byte_of_string "fmt " ++ u32 fmt_size ++ u16 1 ++ u16 1
  ++ u32 8000 ++ u32 16000 ++ u16 2 ++ u16 16.

(** A file system holding one file. *)
Definition one_file (path : string) (content : list byte)
    : option string -> string + file :=
  fun p =>
    match p with
    | Some q =>
        if String.eqb q path then
          inr {| st_size := inr (List.length content); mapping := inr content |}
        else inl "No such file or directory"
    | None => inl "Bad address"
    end.

(** The bytes of the view [it .. it + n) of the mapping. *)
Definition view (mem : list byte) (it n : nat) : list byte :=
  firstn n (skipn it mem).

(** [buf] holds only 7-bit bytes: what [is_ascii] decides. *)
Definition all_ascii (buf : list byte) : bool :=
  forallb (fun b => isascii (char_of_byte b)) buf.

(** The printable range of [print_raw]: [' ' .. '~']. *)
Definition printable (b : byte) : bool :=
  let c := char_of_byte b in ((32 <=? c)%Z && (c <=? 126)%Z)%bool.

(** ** The vocabulary of the properties *)

(** [outcome L X R m Q]: every byte [m] loaded was at an address allowed by
    [L], and [m] stopped with a value satisfying [Q], with a return code
    allowed by [R], or in a trap allowed by [X]. *)
Definition ev_ok (L : nat -> Prop) (ev : event) : Prop :=
  match ev with
  | Load p => L p
  | _ => True
  end.

Definition outcome {A} (L : nat -> Prop) (X : trap -> Prop) (R : Z -> Prop)
    (m : M A) (Q : A -> Prop) : Prop :=
  Forall (ev_ok L) (fst m) /\
  match snd m with
  | Val a => Q a
  | Return c => R c
  | Trap x => X x
  end.

(** Loading at [p] is within what [L] and [X] allow. *)
Definition loadable (L : nat -> Prop) (X : trap -> Prop) (mem : list byte)
    (p : nat) : Prop :=
  L p /\ (X OutOfBounds \/ p < List.length mem).

(** The trivial instance: partial correctness. *)
Definition anything {A} (_ : A) : Prop := True.

(** The strict instance: memory safety and termination. *)
Definition in_mapping (mem : list byte) (p : nat) : Prop := p < List.length mem.
Definition no_trap (_ : trap) : Prop := False.
Definition exit_code (c : Z) : Prop := c = EXIT_SUCCESS \/ c = EXIT_FAILURE.
Definition failure (c : Z) : Prop := c = EXIT_FAILURE.

(** A run moved [d] places further on in the mapping. *)
Definition shift_event (d : nat) (ev : event) : event :=
  match ev with
  | Load p => Load (p + d)
  | _ => ev
  end.

Definition shifted {A} (d : nat) (g : A -> A) (m : M A) : M A :=
  (map (shift_event d) (fst m),
   match snd m with
   | Val a => Val (g a)
   | Return c => Return c
   | Trap x => Trap x
   end).

(** A cursor paired with other loop-carried variables, moved by [d]. *)
Definition sh {B} (d : nat) (s : nat * B) : nat * B := (fst s + d, snd s).

Definition same {A} (a : A) : A := a.


(** What [print_raw] prints for one byte, and for a run of bytes. *)
Definition raw_char_text (b : byte) : string :=
  let c := char_of_byte b in
  if (c =? 0)%Z then "\0"
  else if (c =? 10)%Z then "\n"
  else if (32 <=? c)%Z && (c <=? 126)%Z then fmt_c b
  else "\??".

Fixpoint raw_text (bs : list byte) : string :=
  match bs with
  | [] => EmptyString
  | b :: bs' => (raw_char_text b ++ raw_text bs')%string
  end.

(** The events of [print_raw] over the bytes [bs] found at offset [q]. *)
Fixpoint print_raw_events (q : nat) (bs : list byte) : list event :=
  match bs with
  | [] => []
  | b :: bs' => Load q :: Stdout (raw_char_text b) :: print_raw_events (S q) bs'
  end.

(** [mem] with one zero byte inserted at offset [p]. *)
Definition pad_at (p : nat) (mem : list byte) : list byte :=
  firstn p mem ++ x00 :: skipn p mem.

(** [s] without its decimal digits. *)
Fixpoint no_digits (s : string) : string :=
  match s with
  | EmptyString => EmptyString
  | String c s' =>
      if ((48 <=? nat_of_ascii c) && (nat_of_ascii c <=? 57))%bool
      then no_digits s' else String c (no_digits s')
  end.

(** What [parse_RIFF] does once the ChunkSize has passed its check, from the
    cursor [it] (the format tag, the [fmt ] chunk, the walk). *)
Definition riff_after_size (mem : list byte) (fuel e it : nat)
    (buf : list byte) : M Z :=
  '(it, buf) <-
    ('(it, buf) <- read_or_fail mem it e buf 4 ;;
     printf ("Format: '" ++ fmt_s_prec 4 buf ++ "']" ++ nl)%string ;;
     ret (it, buf)) ;;
  '(it, buf, subchunk) <- parse_RIFF_fmt mem e it buf 0 ;;
  while_ fuel (walk_cond e) (walk_subchunk mem fuel e) (it, buf, subchunk) ;;
  return_ EXIT_SUCCESS.

(** ** The vocabulary of the further properties *)

(** Traps other than an exhausted budget. *)
Definition only_budget (x : trap) : Prop := x = OutOfFuel.

(** The addresses [lo .. hi). *)
Definition within (lo hi : nat) (p : nat) : Prop := lo <= p < hi.

(** [m] wrote nothing to stderr. *)
Definition silent {A} (m : M A) : Prop := stderr_of (fst m) = EmptyString.

(** [m] wrote to stderr only if it returned [EXIT_FAILURE]. *)
Definition quiet {A} (m : M A) : Prop :=
  stderr_of (fst m) = EmptyString \/ snd m = Return EXIT_FAILURE.

(** The number of 7-bit bytes [bs] starts with. *)
Fixpoint ascii_run (bs : list byte) : nat :=
  match bs with
  | [] => 0
  | b :: bs' => if isascii (char_of_byte b) then S (ascii_run bs') else 0
  end.

(** A chunk as it lies in a file: ID, little-endian size, payload. *)
Definition chunk_bytes (c : list byte * list byte) : list byte :=
  fst c ++ u32 (N.of_nat (List.length (snd c))) ++ snd c.

Fixpoint chunks_bytes (cs : list (list byte * list byte)) : list byte :=
  match cs with
  | [] => []
  | c :: cs' => chunk_bytes c ++ chunks_bytes cs'
  end.

(** A chunk the walker shows without descending into it: a 7-bit ID of four
    bytes other than [LIST], and a payload whose length fits the size
    field. *)
Definition plain (c : list byte * list byte) : Prop :=
  List.length (fst c) = 4 /\ all_ascii (fst c) = true
  /\ fst c <> list_byte_of_string "LIST"
  /\ (N.of_nat (List.length (snd c)) < 2 ^ 32)%N.

(** An INFO field as it lies in a file: ID, little-endian size, payload,
    and [pad] NUL bytes after the payload. *)
Definition field_bytes (f : list byte * list byte * nat) : list byte :=
  let '(id, payload, pad) := f in
  id ++ u32 (N.of_nat (List.length payload)) ++ payload ++ repeat x00 pad.

Fixpoint fields_bytes (fs : list (list byte * list byte * nat)) : list byte :=
  match fs with
  | [] => []
  | f :: fs' => field_bytes f ++ fields_bytes fs'
  end.

(** [k] times the two characters the parser prints for a NUL byte. *)
Fixpoint nuls (k : nat) : string :=
  match k with
  | O => EmptyString
  | S k' => ("\0" ++ nuls k')%string
  end.

(** The line the parser prints for a field. *)
Definition field_text (f : list byte * list byte * nat) : string :=
  let '(id, payload, pad) := f in
  (tab ++ fmt_s_prec 4 id ++ "[" ++ "size: "
   ++ fmt_u (N.of_nat (List.length payload)) ++ ", '" ++ raw_text payload ++ "']"
   ++ (if (pad =? 0)%nat then EmptyString else "Extra[" ++ nuls pad ++ "]") ++ nl)%string.

Fixpoint fields_text (fs : list (list byte * list byte * nat)) : string :=
  match fs with
  | [] => EmptyString
  | f :: fs' => (field_text f ++ fields_text fs')%string
  end.

(** A field the parser can tell from the padding before it: a four-byte ID
    that does not start with NUL, and a payload whose length fits the size
    field. *)
Definition field_ok (f : list byte * list byte * nat) : Prop :=
  let '(id, payload, pad) := f in
  List.length id = 4 /\ hd x00 id <> x00
  /\ (N.of_nat (List.length payload) < 2 ^ 32)%N.

(** * Properties *)

(** ** Traces and the monad *)

Lemma stdout_of_app (t1 t2 : list event) :
  stdout_of (t1 ++ t2) = (stdout_of t1 ++ stdout_of t2)%string.
Proof.
  induction t1 as [|[s|s|p] t1 IH]; simpl; auto.
  rewrite IH. induction s; simpl; congruence.
Qed.

Lemma stderr_of_app (t1 t2 : list event) :
  stderr_of (t1 ++ t2) = (stderr_of t1 ++ stderr_of t2)%string.
Proof.
  induction t1 as [|[s|s|p] t1 IH]; simpl; auto.
  rewrite IH. induction s; simpl; congruence.
Qed.

Lemma loads_of_app (t1 t2 : list event) :
  loads_of (t1 ++ t2) = loads_of t1 ++ loads_of t2.
Proof.
  induction t1 as [|[s|s|p] t1 IH]; simpl; auto. now rewrite IH.
Qed.

Lemma loads_of_map_Load (l : list nat) : loads_of (map Load l) = l.
Proof. induction l; simpl; congruence. Qed.

Lemma stdout_of_map_Load (l : list nat) : stdout_of (map Load l) = EmptyString.
Proof. induction l; simpl; congruence. Qed.

Lemma stderr_of_map_Load (l : list nat) : stderr_of (map Load l) = EmptyString.
Proof. induction l; simpl; congruence. Qed.

Lemma bind_Val {A B} (t : list event) (a : A) (f : A -> M B) :
  bind (t, Val a) f = emit t (f a).
Proof. unfold bind, emit. now destruct (f a). Qed.

Lemma bind_Return {A B} (t : list event) (c : Z) (f : A -> M B) :
  bind (t, Return c) f = (t, Return c).
Proof. reflexivity. Qed.

Lemma bind_Trap {A B} (t : list event) (x : trap) (f : A -> M B) :
  bind (t, Trap x) f = (t, Trap x).
Proof. reflexivity. Qed.

Lemma bind_emit {A B} (t : list event) (m : M A) (f : A -> M B) :
  bind (emit t m) f = emit t (bind m f).
Proof.
  unfold emit, bind. destruct m as [t1 [a|c|x]]; simpl; auto.
  destruct (f a). simpl. now rewrite app_assoc.
Qed.

Lemma emit_emit {A} (t1 t2 : list event) (m : M A) :
  emit t1 (emit t2 m) = emit (t1 ++ t2) m.
Proof. unfold emit. simpl. now rewrite app_assoc. Qed.

Lemma emit_pair {A} (t t' : list event) (r : res A) :
  emit t (t', r) = (t ++ t', r).
Proof. reflexivity. Qed.

Lemma emit_nil {A} (m : M A) : emit [] m = m.
Proof. now destruct m. Qed.

(** What a sequence can have done when its result is known. *)
Lemma bind_inv {A B} (m : M A) (f : A -> M B) t r :
  bind m f = (t, r) ->
  (exists t1 a t2, m = (t1, Val a) /\ f a = (t2, r) /\ t = t1 ++ t2)
  \/ (exists c, m = (t, Return c) /\ r = Return c)
  \/ (exists x, m = (t, Trap x) /\ r = Trap x).
Proof.
  destruct m as [t1 [a|c|x]]; simpl.
  - destruct (f a) as [t2 r2] eqn:E. intros [= <- <-]. left. now exists t1, a, t2.
  - intros [= <- <-]. right; left. now exists c.
  - intros [= <- <-]. right; right. now exists x.
Qed.

Lemma bind_inv_Val {A B} (m : M A) (f : A -> M B) t b :
  bind m f = (t, Val b) ->
  exists t1 a t2, m = (t1, Val a) /\ f a = (t2, Val b) /\ t = t1 ++ t2.
Proof.
  intros H. apply bind_inv in H.
  destruct H as [H|[(c & _ & [=])|(x & _ & [=])]]. exact H.
Qed.

(** ** The bounded cursor *)

Section Cursor.

Variable mem : list byte.

Lemma load_ok p b :
  nth_error mem p = Some b -> load mem p = ([Load p], Val b).
Proof. unfold load. now intros ->. Qed.

Lemma skipn_cons_nth (p : nat) :
  p < List.length mem ->
  exists b, nth_error mem p = Some b /\ skipn p mem = b :: skipn (S p) mem.
Proof.
  revert p. induction mem as [|x l IH]; intros p Hp; simpl in *; [lia|].
  destruct p as [|p].
  - exists x. auto.
  - destruct (IH p) as (b & H1 & H2); [lia|]. exists b. simpl. auto.
Qed.

Lemma memcpy_src_ok (n it : nat) :
  it + n <= List.length mem ->
  memcpy_src mem it n = (map Load (seq it n), Val (view mem it n)).
Proof.
  unfold view. revert it. induction n as [|n IH]; intros it H.
  - reflexivity.
  - destruct (skipn_cons_nth it) as (b & Hb & Hs); [lia|].
    rewrite Hs. cbn [memcpy_src seq map firstn].
    rewrite (load_ok _ _ Hb), bind_Val, IH, bind_Val by lia.
    unfold ret. rewrite !emit_pair. now rewrite app_nil_r.
Qed.

Lemma remaining_read_ok (it e : nat) :
  it <= e -> remaining_read it e = ([], Val (e - it)).
Proof.
  intros H. unfold remaining_read.
  destruct (Nat.leb_spec it e); [reflexivity | lia].
Qed.

Lemma read_bytes_ok (it e : nat) (buf : list byte) (n : nat) :
  it <= e -> e <= List.length mem -> n <= e - it ->
  read_bytes mem it e buf n
  = (map Load (seq it n), Val (Some (it + n), view mem it n ++ skipn n buf)).
Proof.
  intros H1 H2 H3. unfold read_bytes.
  rewrite remaining_read_ok, bind_Val, emit_nil by lia.
  destruct (Nat.ltb_spec (e - it) n); [lia|].
  rewrite memcpy_src_ok, bind_Val by lia.
  unfold ret. rewrite emit_pair. now rewrite app_nil_r.
Qed.

Lemma read_bytes_underrun (it e : nat) (buf : list byte) (n : nat) :
  it <= e -> e - it < n ->
  read_bytes mem it e buf n = ([], Val (None, buf)).
Proof.
  intros H1 H2. unfold read_bytes.
  rewrite remaining_read_ok, bind_Val, emit_nil by lia.
  destruct (Nat.ltb_spec (e - it) n); [reflexivity | lia].
Qed.

Lemma read_or_fail_ok (it e : nat) (buf : list byte) (n : nat) :
  it <= e -> e <= List.length mem -> n <= e - it ->
  read_or_fail mem it e buf n
  = (map Load (seq it n), Val (it + n, view mem it n ++ skipn n buf)).
Proof.
  intros. unfold read_or_fail.
  rewrite read_bytes_ok, bind_Val by lia.
  unfold ret. rewrite emit_pair. now rewrite app_nil_r.
Qed.

Lemma read_or_fail_underrun (it e : nat) (buf : list byte) (n : nat) :
  it <= e -> e - it < n ->
  read_or_fail mem it e buf n = ([], Return EXIT_FAILURE).
Proof.
  intros. unfold read_or_fail.
  now rewrite read_bytes_underrun, bind_Val, emit_nil by lia.
Qed.

End Cursor.

Lemma fresh_object_rest (n : nat) (bs : list byte) :
  bs ++ skipn n (fresh_object n) = bs.
Proof.
  unfold fresh_object. rewrite skipn_all2 by (rewrite repeat_length; lia).
  apply app_nil_r.
Qed.

Lemma view_length (mem : list byte) (it n : nat) :
  it + n <= List.length mem -> List.length (view mem it n) = n.
Proof. intros H. unfold view. rewrite length_firstn, length_skipn. lia. Qed.

Lemma firstn_view_app (mem : list byte) (it n : nat) (rest : list byte) :
  it + n <= List.length mem -> firstn n (view mem it n ++ rest) = view mem it n.
Proof.
  intros H. rewrite firstn_app, (view_length _ _ _ H), Nat.sub_diag.
  cbn [firstn]. rewrite app_nil_r. apply firstn_all2. now rewrite view_length.
Qed.

Lemma seq_8 (it : nat) : seq it 4 ++ seq (it + 4) 4 = seq it 8.
Proof. now rewrite <- seq_app. Qed.

(** C2. For every cursor state ([it <= end], the view inside the mapping)
    and every byte count [n]: when at least [n] bytes remain before the
    limit, [read_bytes] copies exactly the next [n] bytes of the mapping
    into the destination and returns the position advanced by exactly [n];
    otherwise it returns [NULL], and nothing has moved: no byte was loaded,
    the destination is as it was, and the position it was given (passed by
    value) is not advanced by any amount. *)
Theorem read_bytes_all_or_nothing (mem : list byte) (it e : nat)
    (buf : list byte) (n : nat) :
  it <= e -> e <= List.length mem ->
  (n <= e - it ->
     read_bytes mem it e buf n
     = (map Load (seq it n), Val (Some (it + n), view mem it n ++ skipn n buf))
     /\ List.length (view mem it n) = n)
  /\ (e - it < n -> read_bytes mem it e buf n = ([], Val (None, buf))).
Proof.
  intros H1 H2. split; intros H3.
  - split; [now apply read_bytes_ok|].
    unfold view. rewrite length_firstn, length_skipn. lia.
  - now apply read_bytes_underrun.
Qed.

(** A cursor at offset 1 of a 3-byte view: a read of 2 bytes succeeds, a
    read of 3 bytes underruns. *)
Lemma read_bytes_all_or_nothing_witness :
  read_bytes [x01; x02; x03] 1 3 [x00; x00; x00] 2
  = ([Load 1; Load 2], Val (Some 3, [x02; x03; x00]))
  /\ read_bytes [x01; x02; x03] 1 3 [x00; x00; x00] 3
     = ([], Val (None, [x00; x00; x00])).
Proof.
  split.
  - apply (read_bytes_all_or_nothing [x01; x02; x03] 1 3 [x00; x00; x00] 2);
      simpl; lia.
  - apply (read_bytes_all_or_nothing [x01; x02; x03] 1 3 [x00; x00; x00] 3);
      simpl; lia.
Defined.

(** ** A program logic for runs

    [outcome m Q] reads: every byte [m] loaded was at an address allowed by
    [L], and [m] stopped with a value satisfying [Q], with a return code
    allowed by [R], or in a trap allowed by [X].  Taking all three
    parameters trivial gives partial correctness (what holds of a value when
    there is one); taking [L] to be the mapping, [R] the two exit codes and
    [X] empty gives memory safety and termination. *)

Section Logic.

Variable L : nat -> Prop.
Variable X : trap -> Prop.

Section Rules.

Variable R : Z -> Prop.

Lemma outcome_ret {A} (a : A) (Q : A -> Prop) : Q a -> outcome L X R (ret a) Q.
Proof. intros H. split; [constructor | exact H]. Qed.

Lemma outcome_return {A} (c : Z) (Q : A -> Prop) : R c -> outcome L X R (return_ c) Q.
Proof. intros H. split; [constructor | exact H]. Qed.

Lemma outcome_trap {A} (x : trap) (Q : A -> Prop) : X x -> outcome L X R (trap_ x) Q.
Proof. intros H. split; [constructor | exact H]. Qed.

Lemma outcome_printf (s : string) (Q : unit -> Prop) :
  Q tt -> outcome L X R (printf s) Q.
Proof. intros H. split; [repeat constructor | exact H]. Qed.

Lemma outcome_fprintf_stderr (s : string) (Q : unit -> Prop) :
  Q tt -> outcome L X R (fprintf_stderr s) Q.
Proof. intros H. split; [repeat constructor | exact H]. Qed.

Lemma outcome_bind {A B} (m : M A) (f : A -> M B) (P : A -> Prop)
    (Q : B -> Prop) :
  outcome L X R m P -> (forall a, P a -> outcome L X R (f a) Q) -> outcome L X R (bind m f) Q.
Proof.
  destruct m as [t [a|c|x]]; intros [Ht Hr] Hf; simpl in *.
  - specialize (Hf a Hr). destruct (f a) as [t' r']. destruct Hf as [Ht' Hr'].
    split; simpl in *; [apply Forall_app; auto | auto].
  - split; auto.
  - split; auto.
Qed.

Lemma outcome_printf_then {B} (s : string) (k : M B) (Q : B -> Prop) :
  outcome L X R k Q -> outcome L X R (bind (printf s) (fun _ => k)) Q.
Proof.
  intros H. apply outcome_bind with (P := fun _ => True); auto.
  now apply outcome_printf.
Qed.

Lemma outcome_fprintf_then {B} (s : string) (k : M B) (Q : B -> Prop) :
  outcome L X R k Q -> outcome L X R (bind (fprintf_stderr s) (fun _ => k)) Q.
Proof.
  intros H. apply outcome_bind with (P := fun _ => True); auto.
  now apply outcome_fprintf_stderr.
Qed.

Lemma outcome_weaken {A} (m : M A) (P Q : A -> Prop) :
  outcome L X R m P -> (forall a, P a -> Q a) -> outcome L X R m Q.
Proof.
  intros [Ht Hr] H. split; auto. destruct (snd m); auto.
Qed.

(** A call stops the callee's [return] at the call site: the caller's
    allowed return codes play no part. *)
Lemma outcome_call (R' : Z -> Prop) (m : M Z) (Q : Z -> Prop) :
  outcome L X R' m Q -> (forall c, R' c -> Q c) -> outcome L X R (call m) Q.
Proof.
  destruct m as [t [a|c|x]]; intros [Ht Hr] H; split; simpl in *; auto.
Qed.

(** A loop with an invariant [Inv] and a measure [mu] that every iteration
    lowers.  The condition establishes [C] when it holds and [E] when it
    does not.  When running out of budget is an allowed trap the decrease is
    not asked for. *)
Lemma outcome_while {S} (Inv C E : S -> Prop) (mu : S -> nat)
    (cond : S -> M bool) (body : S -> M S) :
  (forall s, Inv s -> outcome L X R (cond s) (fun b => if b then C s else E s)) ->
  (forall s, Inv s -> C s ->
     outcome L X R (body s) (fun s' => Inv s' /\ (X OutOfFuel \/ mu s' < mu s))) ->
  forall fuel s, Inv s -> X OutOfFuel \/ mu s < fuel ->
  outcome L X R (while_ fuel cond body s) (fun s' => Inv s' /\ E s').
Proof.
  intros Hc Hb. induction fuel as [|k IH]; intros s Hs Hf.
  - destruct Hf as [Hf|Hf]; [now apply outcome_trap | lia].
  - cbn [while_]. eapply outcome_bind; [apply Hc, Hs|].
    intros [|] HE; [|apply outcome_ret; auto].
    eapply outcome_bind; [apply Hb; auto|].
    intros s' [Hs' Hd]. apply IH; auto.
    destruct Hf as [Hf|Hf]; [now left|]. destruct Hd as [Hd|Hd]; [now left|].
    right. lia.
Qed.

Section WithMem.

Variable mem : list byte.

Lemma outcome_load (p : nat) :
  loadable L X mem p -> outcome L X R (load mem p) (fun b => nth_error mem p = Some b).
Proof.
  intros [HL HX]. unfold load.
  destruct (nth_error mem p) as [b|] eqn:E.
  - split; [repeat constructor; exact HL | reflexivity].
  - split; [repeat constructor; exact HL|]. simpl.
    destruct HX as [HX|HX]; [exact HX|].
    apply nth_error_None in E. lia.
Qed.

Lemma view_cons (it n : nat) (b : byte) :
  nth_error mem it = Some b -> view mem it (S n) = b :: view mem (S it) n.
Proof.
  intros H. unfold view.
  destruct (skipn_cons_nth mem it) as (b' & Hb & Hs).
  { apply nth_error_Some. congruence. }
  rewrite Hs. cbn [firstn]. congruence.
Qed.

Lemma outcome_memcpy_src (n it : nat) :
  (forall p, it <= p < it + n -> loadable L X mem p) ->
  outcome L X R (memcpy_src mem it n)
    (fun bs => bs = view mem it n /\ List.length bs = n).
Proof.
  revert it. induction n as [|n IH]; intros it H; cbn [memcpy_src].
  - now apply outcome_ret.
  - eapply outcome_bind; [apply outcome_load, H; lia|]. intros b Hb.
    eapply outcome_bind; [apply IH; intros; apply H; lia|]. intros bs [-> Hbs].
    apply outcome_ret. split; [now rewrite (view_cons _ _ _ Hb)|].
    simpl. now rewrite Hbs.
Qed.

Lemma outcome_remaining_read (it e : nat) :
  X AssertFailed \/ it <= e ->
  outcome L X R (remaining_read it e) (fun r => r = e - it /\ it <= e).
Proof.
  intros H. unfold remaining_read. destruct (Nat.leb_spec it e).
  - now apply outcome_ret.
  - apply outcome_trap. destruct H; [auto | lia].
Qed.

Lemma outcome_read_or_fail (it e : nat) (buf : list byte) (n : nat) :
  X AssertFailed \/ it <= e ->
  (forall p, it <= p < e -> loadable L X mem p) ->
  R EXIT_FAILURE ->
  outcome L X R (read_or_fail mem it e buf n)
    (fun s => fst s = it + n /\ it + n <= e
              /\ snd s = view mem it n ++ skipn n buf
              /\ List.length (view mem it n) = n).
Proof.
  intros Ho Hl Hr. unfold read_or_fail, read_bytes.
  eapply outcome_bind.
  { eapply outcome_bind; [now apply outcome_remaining_read|].
    intros r [-> Hle].
    destruct (Nat.ltb_spec (e - it) n).
    - apply outcome_ret.
      instantiate (1 := fun pb =>
        match fst pb with
        | Some it' => it' = it + n /\ it + n <= e
                      /\ snd pb = view mem it n ++ skipn n buf
                      /\ List.length (view mem it n) = n
        | None => True
        end). exact I.
    - eapply outcome_bind.
      + apply outcome_memcpy_src. intros p Hp. apply Hl. lia.
      + intros bs [-> Hbs]. apply outcome_ret. simpl.
        repeat split; auto; lia. }
  intros [[it'|] buf'] H; simpl in H.
  - now apply outcome_ret.
  - now apply outcome_return.
Qed.

Lemma outcome_print_raw_char (b : byte) :
  outcome L X R (print_raw_char b) (fun _ => True).
Proof.
  unfold print_raw_char.
  repeat match goal with |- context [if ?c then _ else _] => destruct c end;
    now apply outcome_printf.
Qed.

Lemma outcome_print_raw_from (it : ptr) (n i : nat) :
  (forall j, i <= j < i + n -> outcome L X R (it j) (fun _ => True)) ->
  outcome L X R (print_raw_from it i n) (fun _ => True).
Proof.
  revert i. induction n as [|n IH]; intros i H; cbn [print_raw_from].
  - now apply outcome_ret.
  - eapply outcome_bind; [apply H; lia|]. intros b _.
    eapply outcome_bind; [apply outcome_print_raw_char|]. intros _ _.
    apply IH. intros; apply H; lia.
Qed.

Lemma outcome_is_ascii_from (buf : ptr) (n i : nat) :
  (forall j, i <= j < i + n -> outcome L X R (buf j) (fun _ => True)) ->
  outcome L X R (is_ascii_from buf i n) (fun _ => True).
Proof.
  revert i. induction n as [|n IH]; intros i H; cbn [is_ascii_from].
  - now apply outcome_ret.
  - eapply outcome_bind; [apply H; lia|]. intros b _.
    destruct (negb _); [now apply outcome_ret|].
    apply IH. intros; apply H; lia.
Qed.

Lemma outcome_mapped (it j : nat) :
  loadable L X mem (it + j) -> outcome L X R (mapped mem it j) (fun _ => True).
Proof.
  intros H. eapply outcome_weaken; [apply outcome_load, H | auto].
Qed.

Lemma outcome_local (buf : list byte) (j : nat) :
  j < List.length buf -> outcome L X R (local buf j) (fun _ => True).
Proof.
  intros H. unfold local. destruct (nth_error buf j) eqn:E.
  - now apply outcome_ret.
  - apply nth_error_None in E. lia.
Qed.

End WithMem.

End Rules.

(** *** The INFO parser *)

Section View.

Variable mem : list byte.

(** The view being parsed and the budget of its loops. *)
Variables (e fuel : nat).
Hypothesis view_loadable : forall p, p < e -> loadable L X mem p.
Hypothesis enough : X OutOfFuel \/ e < fuel.

Ltac read_pre :=
  apply outcome_read_or_fail;
  [ first [assumption | right; lia]
  | intros; apply view_loadable; lia
  | assumption ].

Section Info.

Variable R : Z -> Prop.
Hypothesis may_fail : R EXIT_FAILURE.
Hypothesis may_succeed : R EXIT_SUCCESS.

Lemma outcome_info_pad (e' it : nat) (extra : bool) :
  e' <= e -> X AssertFailed \/ it <= e' ->
  outcome L X R (while_ fuel (info_pad_cond mem e') info_pad_body (it, extra))
    (fun s => it <= fst s <= e').
Proof.
  intros He Ho.
  eapply outcome_weaken.
  - apply outcome_while with
      (Inv := fun s => it <= fst s /\ (X AssertFailed \/ fst s <= e'))
      (C := fun s => fst s < e') (E := fun s => fst s <= e')
      (mu := fun s => e' - fst s).
    + intros [i x] [Hi Hie]. cbn [fst snd] in *. unfold info_pad_cond.
      eapply outcome_bind; [now apply outcome_remaining_read|].
      intros r [-> Hle]. destruct (Nat.ltb_spec 0 (e' - i)).
      * eapply outcome_bind; [apply outcome_load, view_loadable; lia|].
        intros b _. apply outcome_ret. destruct (Byte.eqb b x00); simpl; lia.
      * now apply outcome_ret.
    + intros [i x] [Hi Hie] Hc. cbn [fst snd] in *. unfold info_pad_body.
      apply outcome_bind with (P := fun _ => True).
      { destruct (negb x); [now apply outcome_printf | now apply outcome_ret]. }
      intros _ _. apply outcome_printf_then. apply outcome_ret.
      cbn [fst snd]. repeat split; try lia; right; lia.
    + cbn [fst]. split; [lia | exact Ho].
    + cbn [fst]. destruct enough; [now left | right; lia].
  - intros [i x] [[Hi _] Hx]. cbn [fst] in *. lia.
Qed.

Lemma outcome_print_raw_mapped (it n : nat) :
  it + n <= e -> outcome L X R (print_raw (mapped mem it) n) (fun _ => True).
Proof.
  intros H. apply outcome_print_raw_from. intros j Hj.
  apply outcome_mapped, view_loadable. lia.
Qed.

Lemma outcome_is_ascii_mapped (it n : nat) :
  it + n <= e -> outcome L X R (is_ascii (mapped mem it) n) (fun _ => True).
Proof.
  intros H. apply outcome_is_ascii_from. intros j Hj.
  apply outcome_mapped, view_loadable. lia.
Qed.

Lemma outcome_info_field (e' it : nat) (buf : list byte) :
  e' <= e -> X AssertFailed \/ it <= e' ->
  outcome L X R (info_field mem fuel e' (it, buf)) (fun s => it + 8 <= fst s <= e').
Proof.
  intros He Ho. unfold info_field.
  eapply outcome_bind.
  { read_pre. }
  intros [it1 buf1] (E1 & B1 & _). cbn [fst snd] in *. subst it1.
  apply outcome_printf_then.
  eapply outcome_bind.
  { read_pre. }
  intros [it2 sz] (E2 & B2 & _). cbn [fst snd] in *. subst it2.
  apply outcome_printf_then.
  eapply outcome_bind; [apply outcome_remaining_read; right; lia|].
  intros r [-> _].
  destruct (N.ltb_spec (N.of_nat (e' - (it + 4 + 4))) (uint_le sz)).
  - eapply outcome_bind; [apply outcome_remaining_read; right; lia|].
    intros r _. apply outcome_fprintf_then. now apply outcome_return.
  - apply outcome_bind with (P := fun _ => True).
    { apply outcome_print_raw_mapped. lia. }
    intros _ _. apply outcome_printf_then.
    eapply outcome_bind; [apply outcome_info_pad; [lia | right; lia]|].
    intros [it3 extra] H3. cbn [fst] in H3.
    apply outcome_bind with (P := fun _ => True).
    { destruct extra; [now apply outcome_printf | now apply outcome_ret]. }
    intros _ _. apply outcome_printf_then. apply outcome_ret.
    cbn [fst]. lia.
Qed.

Lemma outcome_info_loop (e' it : nat) (buf : list byte) :
  e' <= e -> X AssertFailed \/ it <= e' ->
  outcome L X R (while_ fuel (info_cond e') (info_field mem fuel e') (it, buf))
    (fun _ => True).
Proof.
  intros He Ho. eapply outcome_weaken.
  - apply outcome_while with
      (Inv := fun s => X AssertFailed \/ fst s <= e')
      (C := fun s => fst s <= e') (E := fun _ => True)
      (mu := fun s => e' - fst s).
    + intros [i b] Hi. cbn [fst] in *. unfold info_cond. cbn [fst].
      eapply outcome_bind; [now apply outcome_remaining_read|].
      intros r [-> Hle]. apply outcome_ret. now destruct (negb _).
    + intros [i b] Hi Hc. cbn [fst] in *.
      eapply outcome_weaken; [apply outcome_info_field; auto|].
      intros [i' b'] H. cbn [fst] in *. split; right; lia.
    + exact Ho.
    + cbn [fst]. destruct enough; [now left | right; lia].
  - auto.
Qed.

Lemma outcome_parse_subchunk_INFO (raw length : nat) :
  raw + length <= e ->
  outcome L X R (parse_subchunk_INFO mem fuel raw length) (fun _ => False).
Proof.
  intros He. unfold parse_subchunk_INFO.
  eapply outcome_bind.
  { read_pre. }
  intros [it1 buf1] (E1 & B1 & _). cbn [fst snd] in *. subst it1.
  apply outcome_bind with (P := fun _ => True).
  - destruct (memcmp_eq _ _ _).
    + apply outcome_printf_then.
      apply outcome_bind with (P := fun _ => True).
      * apply outcome_info_loop; [lia | right; lia].
      * intros _ _. now apply outcome_printf.
    + now apply outcome_printf.
  - intros _ _. now apply outcome_return.
Qed.

End Info.

(** *** The walker and the headers *)

Section Walk.

Variable R : Z -> Prop.
Hypothesis may_fail : R EXIT_FAILURE.

Lemma outcome_walk_subchunk (it : nat) (buf : list byte) (subchunk : Z) :
  X AssertFailed \/ it <= e ->
  outcome L X R (walk_subchunk mem fuel e (it, buf, subchunk))
    (fun s => fst (fst s) = it + 8 + N.to_nat (uint_le (view mem (it + 4) 4))
              /\ fst (fst s) <= e).
Proof.
  intros Ho. unfold walk_subchunk.
  eapply outcome_bind.
  { read_pre. }
  intros [it1 buf1] (E1 & B1 & V1 & L1). cbn [fst snd] in *. subst it1.
  apply outcome_bind with (P := fun _ => True).
  { apply outcome_is_ascii_from. intros j Hj. apply outcome_local.
    rewrite V1, length_app, L1. lia. }
  intros a _. destruct (negb a).
  { apply outcome_printf_then. now apply outcome_return. }
  eapply outcome_bind.
  { read_pre. }
  intros [it2 sz] (E2 & B2 & V2 & _). cbn [fst snd] in *. subst it2.
  rewrite fresh_object_rest in V2. subst sz.
  eapply outcome_bind; [apply outcome_remaining_read; right; lia|].
  intros r [-> _].
  destruct (N.ltb_spec (N.of_nat (e - (it + 4 + 4))) (uint_le (view mem (it + 4) 4))).
  { eapply outcome_bind; [apply outcome_remaining_read; right; lia|].
    intros r _. apply outcome_fprintf_then. now apply outcome_return. }
  apply outcome_printf_then. apply outcome_printf_then.
  apply outcome_bind with (P := fun _ => True).
  { destruct (memcmp_eq _ _ _).
    - eapply outcome_bind.
      + apply outcome_call
          with (R' := fun c => c = EXIT_SUCCESS \/ c = EXIT_FAILURE)
               (Q := fun c => c = EXIT_SUCCESS \/ c = EXIT_FAILURE).
        * eapply outcome_weaken;
            [apply outcome_parse_subchunk_INFO; auto; lia|].
          intros _ [].
        * auto.
      + intros res [->| ->]; cbn [Z.eqb negb EXIT_SUCCESS EXIT_FAILURE].
        * now apply outcome_ret.
        * now apply outcome_return.
    - eapply outcome_bind; [apply outcome_is_ascii_mapped; lia|].
      intros [|] _; [apply outcome_print_raw_mapped; lia | now apply outcome_printf]. }
  intros _ _. apply outcome_printf_then. apply outcome_ret. cbn [fst]. lia.
Qed.

Lemma outcome_walk (it : nat) (buf : list byte) (subchunk : Z) :
  X AssertFailed \/ it <= e ->
  outcome L X R (while_ fuel (walk_cond e) (walk_subchunk mem fuel e)
             (it, buf, subchunk))
    (fun s => fst (fst s) = e).
Proof.
  intros Ho. eapply outcome_weaken.
  - apply outcome_while with
      (Inv := fun s => X AssertFailed \/ fst (fst s) <= e)
      (C := fun s => fst (fst s) <= e) (E := fun s => fst (fst s) = e)
      (mu := fun s => e - fst (fst s)).
    + intros [[i b] sc] Hi. cbn [fst] in *. unfold walk_cond.
      eapply outcome_bind; [now apply outcome_remaining_read|].
      intros r [-> Hle]. apply outcome_ret.
      destruct (Nat.ltb_spec 0 (e - i)); lia.
    + intros [[i b] sc] Hi Hc. cbn [fst] in *.
      eapply outcome_weaken; [apply outcome_walk_subchunk; auto|].
      intros [[i' b'] sc'] [H1 H2]. cbn [fst] in *. split; right; lia.
    + exact Ho.
    + cbn [fst]. destruct enough; [now left | right; lia].
  - intros s [_ H]. exact H.
Qed.

Lemma outcome_parse_RIFF_header (it : nat) (buf : list byte) :
  X AssertFailed \/ it <= e ->
  outcome L X R (parse_RIFF_header mem e it buf) (fun s => it <= fst s <= e).
Proof.
  intros Ho. unfold parse_RIFF_header.
  eapply outcome_bind.
  { read_pre. }
  intros [it1 buf1] (E1 & B1 & _). cbn [fst snd] in *. subst it1.
  destruct (negb _); [now apply outcome_return|].
  apply outcome_printf_then.
  eapply outcome_bind.
  { read_pre. }
  intros [it2 sz] (E2 & B2 & _). cbn [fst snd] in *. subst it2.
  apply outcome_printf_then.
  eapply outcome_bind; [apply outcome_remaining_read; right; lia|].
  intros r [-> _]. destruct (N.ltb _ _).
  { eapply outcome_bind; [apply outcome_remaining_read; right; lia|].
    intros r _. apply outcome_fprintf_then. now apply outcome_return. }
  eapply outcome_bind.
  { read_pre. }
  intros [it3 buf3] (E3 & B3 & _). cbn [fst snd] in *. subst it3.
  apply outcome_printf_then. apply outcome_ret. cbn [fst]. lia.
Qed.

Lemma outcome_parse_RIFF_fmt (it : nat) (buf : list byte) (subchunk : Z) :
  X AssertFailed \/ it <= e ->
  outcome L X R (parse_RIFF_fmt mem e it buf subchunk)
    (fun s => it <= fst (fst s) <= e).
Proof.
  intros Ho. unfold parse_RIFF_fmt.
  eapply outcome_bind.
  { read_pre. }
  intros [it1 buf1] (E1 & B1 & _). cbn [fst snd] in *. subst it1.
  destruct (negb _); [now apply outcome_return|].
  apply outcome_printf_then.
  repeat (eapply outcome_bind;
    [ read_pre
    | let i := fresh "it" in let b := fresh "b" in let E := fresh "E" in
      let B := fresh "B" in
      intros [i b] (E & B & _); cbn [fst snd] in *; subst i;
      apply outcome_printf_then ]).
  apply outcome_ret. cbn [fst]. lia.
Qed.

Lemma outcome_parse_RIFF (raw length : nat) :
  R EXIT_SUCCESS ->
  raw + length = e ->
  outcome L X R (parse_RIFF mem fuel raw length) (fun _ => False).
Proof.
  intros may_succeed He. unfold parse_RIFF. rewrite He.
  eapply outcome_bind; [apply outcome_parse_RIFF_header; right; lia|].
  intros [it1 buf1] H1. cbn [fst] in H1.
  eapply outcome_bind; [apply outcome_parse_RIFF_fmt; right; lia|].
  intros [[it2 buf2] sc] H2. cbn [fst] in H2.
  apply outcome_bind with (P := fun _ => True).
  - eapply outcome_weaken; [apply outcome_walk; right; lia | auto].
  - intros _ _. now apply outcome_return.
Qed.

End Walk.

End View.

End Logic.

(** ** Partial correctness: what holds of a value when there is one *)

Lemma outcome_Val {A} L X R (m : M A) (Q : A -> Prop) t a :
  outcome L X R m Q -> m = (t, Val a) -> Q a.
Proof. intros [_ H] E. rewrite E in H. exact H. Qed.

Lemma loadable_anything (mem : list byte) (p : nat) :
  loadable anything anything mem p.
Proof. split; [exact I | left; exact I]. Qed.

Lemma walk_subchunk_Val mem fuel e it buf sc t it' buf' sc' :
  walk_subchunk mem fuel e (it, buf, sc) = (t, Val (it', buf', sc')) ->
  it' = it + 8 + N.to_nat (uint_le (view mem (it + 4) 4)) /\ it' <= e.
Proof.
  intros H.
  apply (outcome_Val anything anything anything _ _ _ _
           (outcome_walk_subchunk anything anything mem e fuel
              (fun p _ => loadable_anything mem p) (or_introl I)
              anything I it buf sc (or_introl I)) H).
Qed.

Lemma info_field_Val mem fuel e it buf t it' buf' :
  info_field mem fuel e (it, buf) = (t, Val (it', buf')) ->
  it + 8 <= it' <= e.
Proof.
  intros H.
  apply (outcome_Val anything anything anything _ _ _ _
           (outcome_info_field anything anything mem e fuel
              (fun p _ => loadable_anything mem p) (or_introl I)
              anything I e it buf (le_n e) (or_introl I)) H).
Qed.

(** C6. Whenever an iteration of the walker completes (the subchunk was
    dispatched and the loop goes on), the cursor it leaves is the start of
    the payload, [it + 8], advanced by exactly the size declared in the four
    bytes at [it + 4]: nothing more is skipped, whatever the parity of the
    size and whatever byte follows the payload. *)
Theorem walker_advances_by_declared_size
    (mem : list byte) (fuel e it : nat) (buf : list byte) (subchunk : Z)
    (t : list event) (it' : nat) (buf' : list byte) (subchunk' : Z) :
  walk_subchunk mem fuel e (it, buf, subchunk)
  = (t, Val (it', buf', subchunk')) ->
  it' = (it + 8) + N.to_nat (uint_le (view mem (it + 4) 4)).
Proof.
  intros H. apply walk_subchunk_Val in H. lia.
Qed.

(** A [data] chunk of declared size 1 whose payload byte is followed by a
    zero pad byte: the walker stops on the pad byte, at offset 45. *)
Lemma walker_advances_by_declared_size_witness :
  45 = (36 + 8)
       + N.to_nat (uint_le (view (wav_header 30 16 ++ list_byte_of_string "data"
                                   ++ u32 1 ++ [x41; x00]) (36 + 4) 4)).
Proof.
  eapply (walker_advances_by_declared_size _ 47 46 36 (fresh_object 4) 1).
  vm_compute. reflexivity.
Defined.

(** ** The iteration budget

    The budget is an artefact of the model: once it is above the end of the
    view, its value has no influence on a run. *)

Lemma bind_ext {A B} (m : M A) (f g : A -> M B) :
  (forall t a, m = (t, Val a) -> f a = g a) -> bind m f = bind m g.
Proof.
  intros H. destruct m as [t [a|c|x]]; try reflexivity.
  unfold bind. now rewrite (H t a eq_refl).
Qed.

Lemma while_budget {S} (Inv : S -> Prop) (mu : S -> nat)
    (cond : S -> M bool) (body1 body2 : S -> M S) :
  (forall s, Inv s -> body1 s = body2 s) ->
  (forall s tc t s', Inv s -> cond s = (tc, Val true) ->
     body1 s = (t, Val s') -> Inv s' /\ mu s' < mu s) ->
  forall f1 f2 s, Inv s -> mu s < f1 -> mu s < f2 ->
  while_ f1 cond body1 s = while_ f2 cond body2 s.
Proof.
  intros Hb Hd. induction f1 as [|f1 IH]; intros [|f2] s Hs H1 H2; try lia.
  cbn [while_]. apply bind_ext. intros tc [|] Hc; [|reflexivity].
  rewrite <- (Hb s Hs). apply bind_ext. intros t s' Hs'.
  destruct (Hd s tc t s' Hs Hc Hs') as [Hi Hm]. apply IH; auto; lia.
Qed.

Lemma remaining_read_Val it e t r :
  remaining_read it e = (t, Val r) -> r = e - it /\ it <= e.
Proof.
  unfold remaining_read. destruct (Nat.leb_spec it e); [|discriminate].
  intros [= _ <-]. auto.
Qed.

Lemma info_pad_cond_true mem e it x tc :
  info_pad_cond mem e (it, x) = (tc, Val true) -> it < e.
Proof.
  unfold info_pad_cond. intros H. apply bind_inv_Val in H.
  destruct H as (t1 & r & t2 & Hr & H & _).
  apply remaining_read_Val in Hr. destruct Hr as [-> Hle].
  destruct (Nat.ltb_spec 0 (e - it)); [lia | discriminate].
Qed.

Lemma info_pad_budget mem e f1 f2 s :
  e < f1 -> e < f2 ->
  while_ f1 (info_pad_cond mem e) info_pad_body s
  = while_ f2 (info_pad_cond mem e) info_pad_body s.
Proof.
  intros H1 H2.
  apply (while_budget (fun _ => True) (fun s => e - fst s)); auto; try lia.
  intros [i x] tc t [i' x'] _ Hc Hb. apply info_pad_cond_true in Hc.
  unfold info_pad_body in Hb.
  destruct (negb x); cbv [bind printf ret] in Hb; injection Hb as _ <- _;
    cbn [fst]; split; auto; lia.
Qed.

Lemma info_field_budget mem e f1 f2 s :
  e < f1 -> e < f2 -> info_field mem f1 e s = info_field mem f2 e s.
Proof.
  intros H1 H2. destruct s as [it buf]. unfold info_field.
  apply bind_ext. intros _ [it1 buf1] _. apply bind_ext. intros _ _ _.
  apply bind_ext. intros _ [it2 sz] _. apply bind_ext. intros _ _ _.
  apply bind_ext. intros _ r _. destruct (N.ltb _ _); [reflexivity|].
  apply bind_ext. intros _ _ _. apply bind_ext. intros _ _ _.
  now rewrite (info_pad_budget mem e f1 f2).
Qed.

Lemma info_cond_Val_true e it buf tc :
  info_cond e (it, buf) = (tc, Val true) -> it < e.
Proof.
  unfold info_cond. cbn [fst]. intros H. apply bind_inv_Val in H.
  destruct H as (t1 & r & t2 & Hr & H & _).
  apply remaining_read_Val in Hr. destruct Hr as [-> Hle].
  destruct (Nat.eqb_spec (e - it) 0); [discriminate | lia].
Qed.

Lemma info_loop_budget mem e f1 f2 s :
  e < f1 -> e < f2 ->
  while_ f1 (info_cond e) (info_field mem f1 e) s
  = while_ f2 (info_cond e) (info_field mem f2 e) s.
Proof.
  intros H1 H2.
  apply (while_budget (fun _ => True) (fun s => e - fst s)); auto; try lia.
  - intros s' _. now apply info_field_budget.
  - intros [i b] tc t [i' b'] _ Hc Hb. apply info_cond_Val_true in Hc.
    apply info_field_Val in Hb. cbn [fst]. split; auto; lia.
Qed.

Lemma parse_subchunk_INFO_budget mem raw len f1 f2 :
  raw + len < f1 -> raw + len < f2 ->
  parse_subchunk_INFO mem f1 raw len = parse_subchunk_INFO mem f2 raw len.
Proof.
  intros H1 H2. unfold parse_subchunk_INFO.
  apply bind_ext. intros _ [it1 buf1] _. f_equal.
  destruct (memcmp_eq _ _ _); [|reflexivity].
  apply bind_ext. intros _ _ _.
  now rewrite (info_loop_budget mem (raw + len) f1 f2).
Qed.

Lemma walk_subchunk_budget mem e f1 f2 s :
  e < f1 -> e < f2 -> walk_subchunk mem f1 e s = walk_subchunk mem f2 e s.
Proof.
  intros H1 H2. destruct s as [[it buf] sc]. unfold walk_subchunk.
  apply bind_ext. intros _ [it1 buf1] _. apply bind_ext. intros _ a _.
  destruct (negb a); [reflexivity|].
  apply bind_ext. intros _ [it2 sz] _. apply bind_ext. intros tr r Hr.
  apply remaining_read_Val in Hr. destruct Hr as [-> Hle].
  destruct (N.ltb_spec (N.of_nat (e - it2)) (uint_le sz)); [reflexivity|].
  apply bind_ext. intros _ _ _. apply bind_ext. intros _ _ _. f_equal.
  destruct (memcmp_eq _ _ _); [|reflexivity].
  now rewrite (parse_subchunk_INFO_budget mem it2 _ f1 f2) by lia.
Qed.

Lemma walk_cond_Val_true e it buf sc tc :
  walk_cond e (it, buf, sc) = (tc, Val true) -> it < e.
Proof.
  unfold walk_cond. intros H. apply bind_inv_Val in H.
  destruct H as (t1 & r & t2 & Hr & H & _).
  apply remaining_read_Val in Hr. destruct Hr as [-> Hle].
  destruct (Nat.ltb_spec 0 (e - it)); [lia | discriminate].
Qed.

Lemma walk_budget mem e f1 f2 s :
  e < f1 -> e < f2 ->
  while_ f1 (walk_cond e) (walk_subchunk mem f1 e) s
  = while_ f2 (walk_cond e) (walk_subchunk mem f2 e) s.
Proof.
  intros H1 H2.
  apply (while_budget (fun _ => True) (fun s => e - fst (fst s)));
    auto; try lia.
  - intros s' _. now apply walk_subchunk_budget.
  - intros [[i b] c] tc t [[i' b'] c'] _ Hc Hb. apply walk_cond_Val_true in Hc.
    apply walk_subchunk_Val in Hb. cbn [fst]. split; auto; lia.
Qed.

Lemma parse_RIFF_budget mem raw len f1 f2 :
  raw + len < f1 -> raw + len < f2 ->
  parse_RIFF mem f1 raw len = parse_RIFF mem f2 raw len.
Proof.
  intros H1 H2. unfold parse_RIFF.
  apply bind_ext. intros _ [it1 buf1] _.
  apply bind_ext. intros _ [[it2 buf2] sc] _.
  now rewrite (walk_budget mem (raw + len) f1 f2).
Qed.

(** ** Total correctness: memory safety and termination *)

Lemma loadable_in_mapping (mem : list byte) (e p : nat) :
  e <= List.length mem -> p < e -> loadable (in_mapping mem) no_trap mem p.
Proof. unfold in_mapping. intros. split; [lia | right; lia]. Qed.

Lemma Forall_ev_ok_loads (mem : list byte) (t : list event) :
  Forall (ev_ok (in_mapping mem)) t ->
  Forall (fun p => p < List.length mem) (loads_of t).
Proof.
  induction 1 as [|[s|s|p] t H _ IH]; simpl; auto.
Qed.

Lemma walk_subchunk_total mem fuel e it buf sc :
  e <= List.length mem -> e < fuel -> it <= e ->
  outcome (in_mapping mem) no_trap failure
    (walk_subchunk mem fuel e (it, buf, sc))
    (fun s => fst (fst s) = it + 8 + N.to_nat (uint_le (view mem (it + 4) 4))
              /\ fst (fst s) <= e).
Proof.
  intros He Hf Hi.
  apply outcome_walk_subchunk; auto.
  - intros p Hp. now apply (loadable_in_mapping mem e).
  - reflexivity.
Qed.

Lemma info_field_total mem fuel e it buf :
  e <= List.length mem -> e < fuel -> it <= e ->
  outcome (in_mapping mem) no_trap failure
    (info_field mem fuel e (it, buf)) (fun s => it + 8 <= fst s <= e).
Proof.
  intros He Hf Hi.
  apply outcome_info_field with (e := e); auto.
  - intros p Hp. now apply (loadable_in_mapping mem e).
  - reflexivity.
Qed.

Lemma parse_RIFF_total mem fuel :
  List.length mem < fuel ->
  outcome (in_mapping mem) no_trap exit_code
    (parse_RIFF mem fuel 0 (List.length mem)) (fun _ => False).
Proof.
  intros Hf.
  apply outcome_parse_RIFF with (e := List.length mem); auto.
  - intros p Hp. now apply (loadable_in_mapping mem (List.length mem)).
  - now right.
  - now left.
Qed.

(** Every run over a whole file, given a budget above the file's length,
    ends in a [return] of one of the two exit codes, and every byte it
    loaded lies inside the mapping. *)
Lemma parse_RIFF_returns mem fuel :
  List.length mem < fuel ->
  exists t c,
    parse_RIFF mem fuel 0 (List.length mem) = (t, Return c)
    /\ (c = EXIT_SUCCESS \/ c = EXIT_FAILURE)
    /\ Forall (fun p => p < List.length mem) (loads_of t).
Proof.
  intros Hf. destruct (parse_RIFF_total mem fuel Hf) as [Ht Hr].
  destruct (parse_RIFF mem fuel 0 (List.length mem)) as [t [a|c|x]];
    simpl in *; try contradiction.
  exists t, c. repeat split; auto. now apply Forall_ev_ok_loads.
Qed.

(** C10. For every input buffer, of any contents and length, and every
    iteration budget above its length:
    - an iteration of the top-level walker, started anywhere in the file,
      either fails (the function returns [EXIT_FAILURE]) or leaves at least
      8 bytes fewer before the end of the file;
    - an iteration of the INFO field-scanning loop, started anywhere in a
      view of the file, either fails or leaves at least 8 bytes fewer before
      the end of the view;
    - neither goes wrong in any other way, and the parse of the whole file
      comes to an end: it returns an exit code, the budget is never
      exhausted, and every other budget above the length gives the very
      same run. *)
Theorem parse_terminates (mem : list byte) (fuel : nat) :
  List.length mem < fuel ->
  (forall it buf subchunk, it <= List.length mem ->
     match walk_subchunk mem fuel (List.length mem) (it, buf, subchunk) with
     | (_, Val (it', _, _)) =>
         it' <= List.length mem
         /\ (List.length mem - it') + 8 <= List.length mem - it
     | (_, Return c) => c = EXIT_FAILURE
     | (_, Trap _) => False
     end)
  /\ (forall e it buf, e <= List.length mem -> it <= e ->
        match info_field mem fuel e (it, buf) with
        | (_, Val (it', _)) => it' <= e /\ (e - it') + 8 <= e - it
        | (_, Return c) => c = EXIT_FAILURE
        | (_, Trap _) => False
        end)
  /\ (exists t c,
        parse_RIFF mem fuel 0 (List.length mem) = (t, Return c)
        /\ (c = EXIT_SUCCESS \/ c = EXIT_FAILURE)
        /\ forall fuel', List.length mem < fuel' ->
             parse_RIFF mem fuel' 0 (List.length mem) = (t, Return c)).
Proof.
  intros Hf. split; [|split].
  - intros it buf sc Hi.
    destruct (walk_subchunk_total mem fuel (List.length mem) it buf sc)
      as [_ Hr]; auto.
    destruct (walk_subchunk _ _ _ _) as [t [[[it' b'] sc']|c|x]];
      cbn [snd fst] in *; auto. lia.
  - intros e it buf He Hi.
    destruct (info_field_total mem fuel e it buf) as [_ Hr]; auto; try lia.
    destruct (info_field _ _ _ _) as [t [[it' b']|c|x]];
      cbn [snd fst] in *; auto. lia.
  - destruct (parse_RIFF_returns mem fuel Hf) as (t & c & E & Hc & _).
    exists t, c. repeat split; auto.
    intros fuel' Hf'. rewrite <- E. now apply parse_RIFF_budget.
Qed.

(** A file with a [data] subchunk whose payload is followed by a pad byte is
    parsed to the end for every budget above its length. *)
Lemma parse_terminates_witness :
  exists t c,
    parse_RIFF (wav_header 38 16 ++ list_byte_of_string "data" ++ u32 1
                ++ [x41; x00]) 47 0 46 = (t, Return c)
    /\ (c = EXIT_SUCCESS \/ c = EXIT_FAILURE).
Proof.
  destruct (parse_terminates
              (wav_header 38 16 ++ list_byte_of_string "data" ++ u32 1
               ++ [x41; x00]) 47) as (_ & _ & t & c & E & Hc & _).
  - vm_compute. lia.
  - now exists t, c.
Defined.

(** ** Running the parsers on in-bounds views *)

Lemma is_ascii_from_local (buf : list byte) (n i : nat) :
  i + n <= List.length buf ->
  is_ascii_from (local buf) i n = ([], Val (all_ascii (view buf i n))).
Proof.
  revert i. induction n as [|n IH]; intros i H.
  - reflexivity.
  - destruct (skipn_cons_nth buf i) as (b & Hb & Hs); [lia|].
    cbn [is_ascii_from]. unfold local at 1. rewrite Hb.
    unfold ret at 1. rewrite bind_Val, emit_nil.
    rewrite (view_cons _ _ _ _ Hb). cbn [all_ascii forallb].
    destruct (isascii (char_of_byte b)); cbn [negb andb].
    + apply IH. lia.
    + reflexivity.
Qed.

Lemma is_ascii_local (buf : list byte) (n : nat) :
  n <= List.length buf ->
  is_ascii (local buf) n = ([], Val (all_ascii (firstn n buf))).
Proof. intros H. unfold is_ascii. now rewrite is_ascii_from_local. Qed.

Lemma bind_printf {B} (s : string) (k : unit -> M B) :
  bind (printf s) k = emit [Stdout s] (k tt).
Proof. unfold printf. apply bind_Val. Qed.

Lemma bind_fprintf_stderr {B} (s : string) (k : unit -> M B) :
  bind (fprintf_stderr s) k = emit [Stderr s] (k tt).
Proof. unfold fprintf_stderr. apply bind_Val. Qed.

Lemma bind_ret {A B} (a : A) (f : A -> M B) : bind (ret a) f = f a.
Proof. unfold ret. now rewrite bind_Val, emit_nil. Qed.

Lemma walk_subchunk_overflow mem fuel e it buf sc :
  e <= List.length mem -> it + 8 <= e ->
  all_ascii (view mem it 4) = true ->
  (N.of_nat (e - (it + 8)) < uint_le (view mem (it + 4) 4))%N ->
  walk_subchunk mem fuel e (it, buf, sc)
  = (map Load (seq it 8)
     ++ [Stderr ("ERROR: SubChunk" ++ fmt_d sc ++ "Id size["
                 ++ fmt_u (uint_le (view mem (it + 4) 4))
                 ++ "] extends above the remaining size of file["
                 ++ fmt_u (N.of_nat (e - (it + 8))) ++ "]" ++ nl)%string],
     Return EXIT_FAILURE).
Proof.
  intros He Hi Ha Hs. unfold walk_subchunk.
  rewrite read_or_fail_ok, bind_Val by lia. cbv beta iota.
  rewrite is_ascii_local by (rewrite length_app, view_length; lia).
  rewrite firstn_view_app, Ha by lia. rewrite bind_Val, emit_nil. cbn [negb].
  rewrite read_or_fail_ok, bind_Val by lia. cbv beta iota.
  rewrite fresh_object_rest.
  replace (it + 4 + 4) with (it + 8) by lia.
  rewrite remaining_read_ok, bind_Val, emit_nil by lia.
  destruct (N.ltb_spec (N.of_nat (e - (it + 8))) (uint_le (view mem (it + 4) 4))); [|lia].
  rewrite bind_Val, emit_nil.
  rewrite bind_fprintf_stderr. unfold return_. rewrite !emit_pair.
  rewrite <- seq_8, map_app, <- app_assoc. reflexivity.
Qed.

Lemma fmt_s_prec_view_app mem it n rest :
  it + n <= List.length mem ->
  fmt_s_prec n (view mem it n ++ rest) = fmt_s_prec n (view mem it n).
Proof.
  intros H. unfold fmt_s_prec. rewrite firstn_view_app by lia.
  now rewrite firstn_all2 by (rewrite view_length; lia).
Qed.

Lemma memcmp_eq_view_app_r mem it n a rest :
  it + n <= List.length mem ->
  memcmp_eq a (view mem it n ++ rest) n = memcmp_eq a (view mem it n) n.
Proof.
  intros H. unfold memcmp_eq. rewrite firstn_view_app by lia.
  assert (E : firstn n (view mem it n) = view mem it n)
    by (apply firstn_all2; rewrite view_length; lia).
  now rewrite E.
Qed.

Lemma memcmp_eq_view_app_l mem it n b rest :
  it + n <= List.length mem ->
  memcmp_eq (view mem it n ++ rest) b n = memcmp_eq (view mem it n) b n.
Proof.
  intros H. unfold memcmp_eq. rewrite firstn_view_app by lia.
  assert (E : firstn n (view mem it n) = view mem it n)
    by (apply firstn_all2; rewrite view_length; lia).
  now rewrite E.
Qed.

Lemma walk_subchunk_non_ascii mem fuel e it buf sc :
  e <= List.length mem -> it + 4 <= e ->
  all_ascii (view mem it 4) = false ->
  walk_subchunk mem fuel e (it, buf, sc)
  = (map Load (seq it 4)
     ++ [Stdout ("'" ++ fmt_s_prec 4 (view mem it 4) ++ "'" ++ nl)%string],
     Return EXIT_FAILURE).
Proof.
  intros He Hi Ha. unfold walk_subchunk.
  rewrite read_or_fail_ok, bind_Val by lia. cbv beta iota.
  rewrite is_ascii_local by (rewrite length_app, view_length; lia).
  rewrite firstn_view_app, Ha by lia. rewrite bind_Val, emit_nil. cbn [negb].
  rewrite bind_printf, fmt_s_prec_view_app by lia.
  unfold return_. now rewrite !emit_pair.
Qed.

Lemma info_field_overflow mem fuel e it buf :
  e <= List.length mem -> it + 8 <= e ->
  (N.of_nat (e - (it + 8)) < uint_le (view mem (it + 4) 4))%N ->
  info_field mem fuel e (it, buf)
  = (map Load (seq it 4)
     ++ [Stdout (tab ++ fmt_s_prec 4 (view mem it 4) ++ "[")%string]
     ++ map Load (seq (it + 4) 4)
     ++ [Stdout ("size: " ++ fmt_u (uint_le (view mem (it + 4) 4)) ++ ", '")%string;
         Stderr ("ERROR: INFO subcunk size["
                 ++ fmt_u (uint_le (view mem (it + 4) 4))
                 ++ "] exceeds size[" ++ fmt_u (N.of_nat (e - (it + 8)))
                 ++ "]" ++ nl)%string],
     Return EXIT_FAILURE).
Proof.
  intros He Hi Hs. unfold info_field.
  rewrite read_or_fail_ok, bind_Val by lia. cbv beta iota.
  rewrite bind_printf, fmt_s_prec_view_app by lia.
  rewrite read_or_fail_ok, bind_Val by lia. cbv beta iota.
  rewrite fresh_object_rest. replace (it + 4 + 4) with (it + 8) by lia.
  rewrite bind_printf.
  rewrite remaining_read_ok, bind_Val, emit_nil by lia.
  destruct (N.ltb_spec (N.of_nat (e - (it + 8))) (uint_le (view mem (it + 4) 4))); [|lia].
  rewrite bind_Val, emit_nil, bind_fprintf_stderr.
  unfold return_. now rewrite !emit_pair.
Qed.

Lemma parse_RIFF_header_overflow mem e buf :
  e <= List.length mem -> 8 <= e ->
  view mem 0 4 = list_byte_of_string "RIFF" ->
  (N.of_nat (e - 8) < uint_le (view mem 4 4))%N ->
  parse_RIFF_header mem e 0 buf
  = (map Load (seq 0 4) ++ [Stdout "RIFF["] ++ map Load (seq 4 4)
     ++ [Stdout ("ChunkSize: " ++ fmt_u (uint_le (view mem 4 4)) ++ ", ")%string;
         Stderr ("ERROR: RIFF header ChunkSize[" ++ fmt_u (uint_le (view mem 4 4))
                 ++ "] is larger then the remaining file size["
                 ++ fmt_u (N.of_nat (e - 8)) ++ "]" ++ nl)%string],
     Return EXIT_FAILURE).
Proof.
  intros He Hi Hid Hs. unfold parse_RIFF_header.
  rewrite read_or_fail_ok, bind_Val by lia. cbv beta iota.
  rewrite memcmp_eq_view_app_l, fmt_s_prec_view_app, Hid by lia.
  change (negb (memcmp_eq (list_byte_of_string "RIFF") (list_byte_of_string "RIFF") 4)) with false.
  cbv iota. rewrite bind_printf.
  change (fmt_s_prec 4 (list_byte_of_string "RIFF")) with "RIFF".
  rewrite read_or_fail_ok, bind_Val by lia. cbv beta iota.
  rewrite fresh_object_rest. change (0 + 4) with 4. change (4 + 4) with 8.
  rewrite bind_printf.
  rewrite remaining_read_ok, bind_Val, emit_nil by lia.
  destruct (N.ltb_spec (N.of_nat (e - 8)) (uint_le (view mem 4 4))); [|lia].
  rewrite bind_Val, emit_nil, bind_fprintf_stderr.
  unfold return_. now rewrite !emit_pair.
Qed.

Lemma while_Return {S} (k : nat) (cond : S -> M bool) (body : S -> M S) s tc tb c :
  cond s = (tc, Val true) -> body s = (tb, Return c) ->
  while_ (Datatypes.S k) cond body s = (tc ++ tb, Return c).
Proof.
  intros Hc Hb. cbn [while_]. rewrite Hc, bind_Val, Hb.
  now rewrite bind_Return, emit_pair.
Qed.

Lemma walk_cond_true e it buf sc :
  it < e -> walk_cond e (it, buf, sc) = ([], Val true).
Proof.
  intros H. unfold walk_cond. rewrite remaining_read_ok, bind_Val, emit_nil by lia.
  unfold ret. destruct (Nat.ltb_spec 0 (e - it)); [reflexivity | lia].
Qed.

Lemma info_cond_true e it buf :
  it < e -> info_cond e (it, buf) = ([], Val true).
Proof.
  intros H. unfold info_cond. cbn [fst].
  rewrite remaining_read_ok, bind_Val, emit_nil by lia.
  unfold ret. destruct (Nat.eqb_spec (e - it) 0); [lia | reflexivity].
Qed.

Lemma info_cond_false e buf : info_cond e (e, buf) = ([], Val false).
Proof.
  unfold info_cond. cbn [fst].
  rewrite remaining_read_ok, bind_Val, emit_nil by lia.
  now rewrite Nat.sub_diag.
Qed.

Ltac norm :=
  repeat first
    [ rewrite bind_emit | rewrite bind_printf | rewrite bind_fprintf_stderr
    | rewrite bind_ret | rewrite bind_Val | rewrite bind_Return
    | rewrite emit_nil ].





(** ** Chunk IDs: what [is_ascii] accepts *)

Lemma isascii_char_of_byte (b : byte) :
  isascii (char_of_byte b) = (Byte.to_N b <? 128)%N.
Proof. destruct b; reflexivity. Qed.

Lemma all_ascii_seven_bit (bs : list byte) :
  all_ascii bs = true <-> Forall (fun b => (Byte.to_N b < 128)%N) bs.
Proof.
  unfold all_ascii. rewrite forallb_forall, Forall_forall.
  split; intros H b Hb; specialize (H b Hb);
    rewrite isascii_char_of_byte in *; now apply N.ltb_lt.
Qed.

Lemma all_ascii_high_bit (bs : list byte) :
  all_ascii bs = false <-> Exists (fun b => (128 <= Byte.to_N b)%N) bs.
Proof.
  unfold all_ascii. induction bs as [|b bs IH]; cbn [forallb].
  - split; [discriminate | inversion 1].
  - rewrite isascii_char_of_byte, Exists_cons, andb_false_iff, IH, N.ltb_ge.
    reflexivity.
Qed.

(** ** Declared sizes against the remaining bytes *)

Lemma string_app_nil_r (s : string) : (s ++ EmptyString)%string = s.
Proof. induction s; simpl; congruence. Qed.

Ltac trace_text :=
  rewrite ?stderr_of_app, ?stdout_of_app, ?stderr_of_map_Load,
    ?stdout_of_map_Load;
  cbn [stderr_of stdout_of String.append];
  rewrite ?string_app_nil_r; try reflexivity.

Lemma loads_of_header (it : nat) (t : list event) :
  loads_of t = [] -> loads_of (map Load (seq it 8) ++ t) = seq it 8.
Proof.
  intros H. now rewrite loads_of_app, loads_of_map_Load, H, app_nil_r.
Qed.

(** C1 (as amended). At each of the three places where a declared size is
    compared with what is left of the enclosing view (the RIFF preamble, a
    subchunk read by the walker after the [fmt ] chunk, a field of an INFO
    list), a declared size that exceeds the remaining bytes makes the parse
    fail with the diagnostic of that place, and the only bytes loaded by
    then are the 8 header bytes: no payload byte is read, and nothing is
    read past the end of the view, even when the mapping ends with it.  In
    the walker the ID is tested before the size is read: a subchunk whose ID
    has a byte above 0x7f fails there, with only the 4 ID bytes loaded and
    no diagnostic on stderr. *)
Theorem oversized_chunk_fails_before_payload
    (mem : list byte) (fuel e k : nat) :
  e <= List.length mem ->
  (8 <= e -> view mem 0 4 = list_byte_of_string "RIFF" ->
   (N.of_nat (e - 8) < uint_le (view mem 4 4))%N ->
   exists t,
     parse_RIFF mem fuel 0 e = (t, Return EXIT_FAILURE)
     /\ stderr_of t
        = ("ERROR: RIFF header ChunkSize[" ++ fmt_u (uint_le (view mem 4 4))
           ++ "] is larger then the remaining file size["
           ++ fmt_u (N.of_nat (e - 8)) ++ "]" ++ nl)%string
     /\ loads_of t = seq 0 8)
  /\ (forall it buf subchunk,
        it + 8 <= e -> all_ascii (view mem it 4) = true ->
        (N.of_nat (e - (it + 8)) < uint_le (view mem (it + 4) 4))%N ->
        exists t,
          while_ (S k) (walk_cond e) (walk_subchunk mem fuel e)
            (it, buf, subchunk) = (t, Return EXIT_FAILURE)
          /\ stderr_of t
             = ("ERROR: SubChunk" ++ fmt_d subchunk ++ "Id size["
                ++ fmt_u (uint_le (view mem (it + 4) 4))
                ++ "] extends above the remaining size of file["
                ++ fmt_u (N.of_nat (e - (it + 8))) ++ "]" ++ nl)%string
          /\ loads_of t = seq it 8)
  /\ (forall it buf subchunk,
        it + 4 <= e -> all_ascii (view mem it 4) = false ->
        exists t,
          while_ (S k) (walk_cond e) (walk_subchunk mem fuel e)
            (it, buf, subchunk) = (t, Return EXIT_FAILURE)
          /\ stderr_of t = EmptyString
          /\ loads_of t = seq it 4)
  /\ (forall e' it buf,
        e' <= e -> it + 8 <= e' ->
        (N.of_nat (e' - (it + 8)) < uint_le (view mem (it + 4) 4))%N ->
        exists t,
          while_ (S k) (info_cond e') (info_field mem fuel e') (it, buf)
          = (t, Return EXIT_FAILURE)
          /\ stderr_of t
             = ("ERROR: INFO subcunk size["
                ++ fmt_u (uint_le (view mem (it + 4) 4))
                ++ "] exceeds size[" ++ fmt_u (N.of_nat (e' - (it + 8)))
                ++ "]" ++ nl)%string
          /\ loads_of t = seq it 8).
Proof.
  intros He. repeat split.
  - intros H8 Hid Hs. eexists. split; [|split].
    + unfold parse_RIFF. cbn [Nat.add].
      rewrite (parse_RIFF_header_overflow mem e _ He H8 Hid Hs).
      apply bind_Return.
    + trace_text.
    + rewrite !loads_of_app, !loads_of_map_Load. reflexivity.
  - intros it buf sc Hi Ha Hs. eexists. split; [|split].
    + apply while_Return; [apply walk_cond_true; lia|].
      now apply walk_subchunk_overflow.
    + trace_text.
    + now apply loads_of_header.
  - intros it buf sc Hi Ha. eexists. split; [|split].
    + apply while_Return; [apply walk_cond_true; lia|].
      now apply walk_subchunk_non_ascii.
    + trace_text.
    + rewrite !loads_of_app, !loads_of_map_Load. reflexivity.
  - intros e' it buf He' Hi Hs. eexists. split; [|split].
    + apply while_Return; [apply info_cond_true; lia|].
      apply info_field_overflow; auto. lia.
    + trace_text.
    + rewrite !loads_of_app, !loads_of_map_Load. cbn [loads_of app].
      rewrite app_nil_r. apply seq_8.
Qed.

(** The overflow and the high-bit cases on one file: a preamble declaring
    1000000 bytes, and at offset 36 a [data] subchunk declaring 255 bytes
    with one byte left. *)
Lemma oversized_chunk_fails_before_payload_witness :
  let mem := wav_header 1000000 16 ++ list_byte_of_string "data"
             ++ [xff; x00; x00; x00] ++ [x41] in
  (exists t, parse_RIFF mem 46 0 45 = (t, Return EXIT_FAILURE)
             /\ loads_of t = seq 0 8)
  /\ (exists t, while_ 1 (walk_cond 45) (walk_subchunk mem 46 45)
                  (36, fresh_object 4, 1%Z) = (t, Return EXIT_FAILURE)
                /\ loads_of t = seq 36 8)
  /\ (exists t, while_ 1 (walk_cond 45) (walk_subchunk mem 46 45)
                  (40, fresh_object 4, 1%Z) = (t, Return EXIT_FAILURE)
                /\ loads_of t = seq 40 4)
  /\ (exists t, while_ 1 (info_cond 45) (info_field mem 46 45)
                  (36, fresh_object 4) = (t, Return EXIT_FAILURE)
                /\ loads_of t = seq 36 8).
Proof.
  intros mem.
  assert (He : 45 <= List.length mem) by (vm_compute; lia).
  destruct (oversized_chunk_fails_before_payload mem 46 45 0 He)
    as (A & B & B' & C).
  repeat split.
  - destruct A as (t & E & _ & Hl); [lia | reflexivity | reflexivity |].
    now exists t.
  - destruct (B 36 (fresh_object 4) 1%Z) as (t & E & _ & Hl);
      [lia | reflexivity | reflexivity |]. now exists t.
  - destruct (B' 40 (fresh_object 4) 1%Z) as (t & E & _ & Hl);
      [lia | reflexivity |]. now exists t.
  - destruct (C 45 36 (fresh_object 4)) as (t & E & _ & Hl);
      [lia | lia | reflexivity |]. now exists t.
Defined.

(** The [fmt ] chunk declares 4294967295 bytes where 16 remain, and the
    parse succeeds; a subchunk with a high-bit ID declares 100 bytes where
    none remain, and the parse fails without any overflow diagnostic. *)
Lemma fmt_size_is_not_checked :
  (N.of_nat (36 - 20) < uint_le (view (wav_header 28 4294967295) 16 4))%N
  /\ snd (parse_RIFF (wav_header 28 4294967295) 37 0 36) = Return EXIT_SUCCESS
  /\ (N.of_nat (44 - 44)
      < uint_le (view (wav_header 36 16 ++ [xff; xff; xff; xff] ++ u32 100) 40 4))%N
  /\ snd (parse_RIFF (wav_header 36 16 ++ [xff; xff; xff; xff] ++ u32 100) 45 0 44)
     = Return EXIT_FAILURE
  /\ stderr_of (fst (parse_RIFF (wav_header 36 16 ++ [xff; xff; xff; xff] ++ u32 100)
                       45 0 44))
     = EmptyString.
Proof. repeat split; vm_compute; reflexivity. Qed.

(** ** The walker's ID check *)

(** C4 (as amended). For every subchunk the walker meets after the [fmt ]
    chunk: if one of the 4 ID bytes is above 0x7f the walk fails, having
    printed the quoted ID on stdout and nothing on stderr; and the walker
    only goes past an ID whose 4 bytes are all in 0x00..0x7f. *)
Theorem walker_rejects_high_bit_id
    (mem : list byte) (fuel e it : nat) (buf : list byte) (subchunk : Z) :
  e <= List.length mem -> it + 4 <= e ->
  (Exists (fun b => (128 <= Byte.to_N b)%N) (view mem it 4) ->
   exists t,
     walk_subchunk mem fuel e (it, buf, subchunk) = (t, Return EXIT_FAILURE)
     /\ stdout_of t = ("'" ++ fmt_s_prec 4 (view mem it 4) ++ "'" ++ nl)%string
     /\ stderr_of t = EmptyString)
  /\ (forall t s',
        walk_subchunk mem fuel e (it, buf, subchunk) = (t, Val s') ->
        Forall (fun b => (Byte.to_N b < 128)%N) (view mem it 4)).
Proof.
  intros He Hi. split.
  - intros Hx. apply all_ascii_high_bit in Hx. eexists. split; [|split].
    + now apply walk_subchunk_non_ascii.
    + trace_text.
    + trace_text.
  - intros t s' H. apply all_ascii_seven_bit.
    destruct (all_ascii (view mem it 4)) eqn:Ha; [reflexivity|].
    rewrite walk_subchunk_non_ascii in H by assumption. discriminate.
Qed.

Lemma walker_rejects_high_bit_id_witness :
  (exists t,
     walk_subchunk (wav_header 36 16 ++ [xff; x41; x41; x41] ++ u32 0) 45 44
       (36, fresh_object 4, 1%Z) = (t, Return EXIT_FAILURE)
     /\ stderr_of t = EmptyString)
  /\ Forall (fun b => (Byte.to_N b < 128)%N)
       (view (wav_header 36 16 ++ [x01; x41; x41; x41] ++ u32 0) 36 4).
Proof.
  split.
  - destruct (walker_rejects_high_bit_id
                (wav_header 36 16 ++ [xff; x41; x41; x41] ++ u32 0)
                45 44 36 (fresh_object 4) 1%Z) as [A _];
      [vm_compute; lia | lia |].
    destruct A as (t & E & _ & Hs).
    + apply Exists_cons_hd. vm_compute. discriminate.
    + now exists t.
  - eapply (walker_rejects_high_bit_id
              (wav_header 36 16 ++ [x01; x41; x41; x41] ++ u32 0)
              45 44 36 (fresh_object 4) 1%Z);
      [vm_compute; lia | lia |].
    vm_compute. reflexivity.
Defined.

(** An ID made of the control byte 0x01 and three letters is not printable,
    and the walker accepts it: the parse succeeds. *)
Lemma unprintable_id_is_accepted :
  forallb printable
    (view (wav_header 36 16 ++ [x01; x41; x41; x41] ++ u32 0) 36 4) = false
  /\ snd (parse_RIFF (wav_header 36 16 ++ [x01; x41; x41; x41] ++ u32 0) 45 0 44)
     = Return EXIT_SUCCESS.
Proof. split; vm_compute; reflexivity. Qed.

(** ** LIST chunks shorter than their tag *)

Lemma bytes_eqb_eq (a b : list byte) : bytes_eqb a b = true -> a = b.
Proof.
  revert b. induction a as [|x a IH]; intros [|y b]; cbn [bytes_eqb];
    try discriminate; auto.
  intros H. apply andb_true_iff in H. destruct H as [H1 H2].
  apply Byte.byte_dec_bl in H1. f_equal; auto.
Qed.

Lemma memcmp_eq_view mem it (lit : list byte) :
  it + 4 <= List.length mem -> List.length lit = 4 ->
  memcmp_eq (view mem it 4) lit 4 = true -> view mem it 4 = lit.
Proof.
  intros H Hl E. unfold memcmp_eq in E. apply bytes_eqb_eq in E.
  rewrite !firstn_all2 in E by (rewrite ?view_length; lia). exact E.
Qed.




(** ** Whole runs: the canonical header and [main] *)

(** C5 (as amended). The bytes listed make a 36-byte file; with the
    ChunkSize field set to the 28 bytes that follow it, the parse succeeds
    with exit code 0 and the dump reports the values given. *)
Theorem canonical_header_dump :
  List.length (wav_header 28 16) = 36
  /\ (forall fuel,
        snd (parse_RIFF (wav_header 28 16) (S fuel) 0 36) = Return EXIT_SUCCESS
        /\ stdout_of (fst (parse_RIFF (wav_header 28 16) (S fuel) 0 36))
           = ("RIFF[ChunkSize: 28, Format: 'WAVE']" ++ nl
              ++ "[SubChunk1Id: 'fmt ', size: 16, AudioFormat: 'PCM', "
              ++ "NumChannels: 1, SampleRate: 8000, ByteRate: 16000, "
              ++ "BlockAlign: 2, BitsPerSample: 16]" ++ nl)%string
        /\ snd (main (S fuel) (one_file "a.wav" (wav_header 28 16))
                  ["riff"; "a.wav"]) = Return 0%Z).
Proof.
  split; [reflexivity|]. intros fuel. repeat split; vm_compute; reflexivity.
Qed.

(** With ChunkSize 36, as listed, the 36-byte file is rejected: 36 exceeds
    the 28 bytes left after the size field. *)
Lemma listed_scenario_is_rejected :
  List.length (wav_header 36 16) = 36
  /\ snd (parse_RIFF (wav_header 36 16) 37 0 36) = Return EXIT_FAILURE
  /\ stderr_of (fst (parse_RIFF (wav_header 36 16) 37 0 36))
     = ("ERROR: RIFF header ChunkSize[36] is larger then the remaining "
        ++ "file size[28]" ++ nl)%string
  /\ snd (main 37 (one_file "a.wav" (wav_header 36 16)) ["riff"; "a.wav"])
     = Return 1%Z.
Proof. repeat split; vm_compute; reflexivity. Qed.

(** C3: with three arguments [main] prints the usage line and carries on;
    the second argument names a well-formed file, and the exit code is 0. *)
Theorem usage_error_does_not_exit :
  snd (main 37 (one_file "a.wav" (wav_header 28 16)) ["riff"; "a.wav"; "extra"])
  = Return EXIT_SUCCESS
  /\ stderr_of (fst (main 37 (one_file "a.wav" (wav_header 28 16))
                       ["riff"; "a.wav"; "extra"]))
     = ("riff file" ++ nl)%string.
Proof. split; vm_compute; reflexivity. Qed.

(** The other half of C3 holds: [main] exits with 0 only when a file was
    opened and mapped and [parse_RIFF] returned 0 on it. *)
Lemma main_success_needs_parse_success fuel open args t :
  main fuel open args = (t, Return EXIT_SUCCESS) ->
  exists fd size raw,
    open (nth_error args 1) = inr fd /\ st_size fd = inr size
    /\ mapping fd = inr raw
    /\ (snd (parse_RIFF raw fuel 0 size) = Return EXIT_SUCCESS
        \/ snd (parse_RIFF raw fuel 0 size) = Val EXIT_SUCCESS).
Proof.
  unfold main. intros H.
  destruct (open (nth_error args 1)) as [err|fd] eqn:Eo;
    [destruct (negb _); cbv [bind fprintf_stderr ret return_] in H;
     discriminate|].
  destruct (st_size fd) as [err|size] eqn:Es;
    [destruct (negb _); cbv [bind fprintf_stderr ret return_] in H;
     discriminate|].
  destruct (mapping fd) as [err|raw] eqn:Em;
    [destruct (negb _); cbv [bind fprintf_stderr ret return_] in H;
     discriminate|].
  exists fd, size, raw. repeat split; auto.
  destruct (parse_RIFF raw fuel 0 size) as [tp [c|c|x]];
    destruct (negb _); cbv [bind fprintf_stderr ret return_ call] in H;
    cbn [snd]; try discriminate;
    injection H as _ ->; auto.
Qed.

(** ** Moving a view

    The parsers depend on the mapping only through the bytes of the view
    they are given: run on a second mapping that holds the same bytes [d]
    places further on, they load the same bytes [d] places further on, print
    the same text and stop the same way. *)

Lemma stdout_of_shift d t : stdout_of (map (shift_event d) t) = stdout_of t.
Proof. induction t as [|[s|s|p] t IH]; simpl; congruence. Qed.

Lemma stderr_of_shift d t : stderr_of (map (shift_event d) t) = stderr_of t.
Proof. induction t as [|[s|s|p] t IH]; simpl; congruence. Qed.

Lemma loads_of_shift d t :
  loads_of (map (shift_event d) t) = map (fun p => p + d) (loads_of t).
Proof. induction t as [|[s|s|p] t IH]; simpl; congruence. Qed.

Lemma shifted_bind {A B} d (g : A -> A) (h : B -> B) (m m' : M A)
    (f f' : A -> M B) :
  m' = shifted d g m ->
  (forall t a, m = (t, Val a) -> f' (g a) = shifted d h (f a)) ->
  bind m' f' = shifted d h (bind m f).
Proof.
  intros -> Hf. destruct m as [t [a|c|x]]; try reflexivity.
  specialize (Hf t a eq_refl). unfold shifted at 1. cbn [fst snd bind].
  rewrite Hf. destruct (f a) as [t2 r2]. unfold shifted. cbn [fst snd].
  now rewrite map_app.
Qed.

Lemma shifted_ret {A} d (g : A -> A) (a : A) : ret (g a) = shifted d g (ret a).
Proof. reflexivity. Qed.

Lemma shifted_return {A} d (g : A -> A) c :
  return_ c = shifted d g (return_ c).
Proof. reflexivity. Qed.

Lemma shifted_printf d s : printf s = shifted d same (printf s).
Proof. reflexivity. Qed.

Lemma shifted_fprintf_stderr d s :
  fprintf_stderr s = shifted d same (fprintf_stderr s).
Proof. reflexivity. Qed.

Lemma shifted_printf_then {B} d (h : B -> B) s (k k' : M B) :
  k' = shifted d h k ->
  bind (printf s) (fun _ => k') = shifted d h (bind (printf s) (fun _ => k)).
Proof.
  intros H. eapply shifted_bind; [apply shifted_printf | intros; exact H].
Qed.

Lemma shifted_fprintf_then {B} d (h : B -> B) s (k k' : M B) :
  k' = shifted d h k ->
  bind (fprintf_stderr s) (fun _ => k')
  = shifted d h (bind (fprintf_stderr s) (fun _ => k)).
Proof.
  intros H. eapply shifted_bind; [apply shifted_fprintf_stderr | intros; exact H].
Qed.


Lemma shifted_while {S} d (g : S -> S) (Inv : S -> Prop)
    (cond cond' : S -> M bool) (body body' : S -> M S) :
  (forall s, Inv s -> cond' (g s) = shifted d same (cond s)) ->
  (forall s, Inv s -> body' (g s) = shifted d g (body s)) ->
  (forall s t s', Inv s -> body s = (t, Val s') -> Inv s') ->
  forall fuel s, Inv s ->
  while_ fuel cond' body' (g s) = shifted d g (while_ fuel cond body s).
Proof.
  intros Hc Hb Hi. induction fuel as [|k IH]; intros s Hs; [reflexivity|].
  cbn [while_]. eapply shifted_bind; [apply Hc, Hs|].
  intros t [|] _; [|apply shifted_ret].
  eapply shifted_bind; [apply Hb, Hs|].
  intros t' s' Hs'. apply IH. eapply Hi; eauto.
Qed.

Lemma remaining_read_shift d it e :
  remaining_read (it + d) (e + d) = shifted d same (remaining_read it e).
Proof.
  unfold remaining_read.
  replace (it + d <=? e + d) with (it <=? e)
    by (destruct (Nat.leb_spec it e), (Nat.leb_spec (it + d) (e + d)); lia).
  replace (e + d - (it + d)) with (e - it) by lia.
  now destruct (it <=? e).
Qed.


Section Shift.

Variables (mem mem' : list byte) (d base : nat).
Hypothesis agree :
  forall p, base <= p -> nth_error mem' (p + d) = nth_error mem p.

Lemma load_shift p :
  base <= p -> load mem' (p + d) = shifted d same (load mem p).
Proof.
  intros H. unfold load. rewrite agree by assumption.
  now destruct (nth_error mem p).
Qed.

Lemma memcpy_src_shift n it :
  base <= it ->
  memcpy_src mem' (it + d) n = shifted d same (memcpy_src mem it n).
Proof.
  revert it. induction n as [|n IH]; intros it H; [reflexivity|].
  cbn [memcpy_src]. eapply shifted_bind; [now apply load_shift|].
  intros _ b _. eapply shifted_bind; [apply (IH (S it)); lia|].
  intros _ bs _. reflexivity.
Qed.

Lemma read_or_fail_shift it e buf n :
  base <= it ->
  read_or_fail mem' (it + d) (e + d) buf n
  = shifted d (sh d) (read_or_fail mem it e buf n).
Proof.
  intros H. unfold read_or_fail.
  eapply shifted_bind with
    (g := fun pb : option nat * list byte =>
            (option_map (fun p => p + d) (fst pb), snd pb)).
  - unfold read_bytes.
    eapply shifted_bind; [apply remaining_read_shift|].
    intros _ r _. unfold same. destruct (r <? n).
    + reflexivity.
    + eapply shifted_bind; [now apply memcpy_src_shift|].
      intros _ src _. unfold same.
      replace (it + d + n) with (it + n + d) by lia.
      reflexivity.
  - intros _ [[p|] b] _; cbn [fst snd option_map].
    + reflexivity.
    + reflexivity.
Qed.

Lemma mapped_shift it j :
  base <= it -> mapped mem' (it + d) j = shifted d same (mapped mem it j).
Proof.
  intros H. unfold mapped. replace (it + d + j) with (it + j + d) by lia.
  apply load_shift. lia.
Qed.

Lemma print_raw_shift it n :
  base <= it ->
  print_raw (mapped mem' (it + d)) n = shifted d same (print_raw (mapped mem it) n).
Proof.
  intros H. unfold print_raw. generalize 0 as i.
  induction n as [|n IH]; intros i; [reflexivity|].
  cbn [print_raw_from]. eapply shifted_bind; [now apply mapped_shift|].
  intros _ b _. unfold same.
  eapply shifted_bind with (g := same).
  - unfold print_raw_char.
    repeat match goal with |- context [if ?c then _ else _] => destruct c end;
      reflexivity.
  - intros _ _ _. apply IH.
Qed.


Lemma read_or_fail_Val it e buf n t s :
  read_or_fail mem it e buf n = (t, Val s) -> fst s = it + n.
Proof.
  intros H.
  apply (outcome_Val anything anything anything _ _ _ _
           (outcome_read_or_fail anything anything anything mem it e buf n
              (or_introl I) (fun p _ => loadable_anything mem p) I) H).
Qed.

Lemma info_pad_Val fuel e it x t s :
  while_ fuel (info_pad_cond mem e) info_pad_body (it, x) = (t, Val s) ->
  it <= fst s.
Proof.
  intros H.
  apply (outcome_Val anything anything anything _ _ _ _
           (outcome_info_pad anything anything mem e fuel
              (fun p _ => loadable_anything mem p) (or_introl I)
              anything e it x (le_n e) (or_introl I)) H).
Qed.

Lemma info_pad_shift fuel e it x :
  base <= it ->
  while_ fuel (info_pad_cond mem' (e + d)) info_pad_body (it + d, x)
  = shifted d (sh d) (while_ fuel (info_pad_cond mem e) info_pad_body (it, x)).
Proof.
  intros H. change (it + d, x) with (sh d (it, x)).
  apply (shifted_while d (sh d) (fun s => base <= fst s)
           (info_pad_cond mem e) (info_pad_cond mem' (e + d))
           info_pad_body info_pad_body); [ | | | exact H].
  - intros [i b] Hi. cbn [fst] in Hi. unfold info_pad_cond, sh. cbn [fst snd].
    eapply shifted_bind; [apply remaining_read_shift|].
    intros _ r _. unfold same. destruct (0 <? r); [|reflexivity].
    eapply shifted_bind; [now apply load_shift|]. intros _ c _. reflexivity.
  - intros [i b] Hi. unfold info_pad_body, sh. cbn [fst snd].
    eapply shifted_bind with (g := same); [now destruct (negb b)|].
    intros _ _ _. apply shifted_printf_then. reflexivity.
  - intros [i b] t [i' b'] Hi E. cbn [fst] in *.
    unfold info_pad_body in E.
    destruct (negb b); cbv [bind printf ret] in E; injection E as _ <- _; lia.
Qed.

Lemma info_field_shift fuel e it buf :
  base <= it ->
  info_field mem' fuel (e + d) (it + d, buf)
  = shifted d (sh d) (info_field mem fuel e (it, buf)).
Proof.
  intros H. unfold info_field.
  eapply shifted_bind; [now apply read_or_fail_shift|].
  intros t1 [it1 buf1] E1. apply read_or_fail_Val in E1.
  unfold sh. cbn [fst snd] in *. subst it1.
  apply shifted_printf_then.
  eapply shifted_bind; [apply read_or_fail_shift; lia|].
  intros t2 [it2 sz] E2. apply read_or_fail_Val in E2.
  unfold sh. cbn [fst snd] in *. subst it2.
  apply shifted_printf_then.
  eapply shifted_bind; [apply remaining_read_shift|].
  intros _ r _. unfold same. destruct (N.ltb _ _).
  - eapply shifted_bind; [apply remaining_read_shift|].
    intros _ r' _. unfold same. apply shifted_fprintf_then. reflexivity.
  - eapply shifted_bind; [apply print_raw_shift; lia|].
    intros _ _ _. apply shifted_printf_then.
    replace (it + 4 + 4 + d + N.to_nat (uint_le sz))
      with (it + 4 + 4 + N.to_nat (uint_le sz) + d) by lia.
    eapply shifted_bind; [apply info_pad_shift; lia|].
    intros t3 [it3 extra] E3. unfold sh. cbn [fst snd].
    eapply shifted_bind with (g := same); [now destruct extra|].
    intros _ _ _. apply shifted_printf_then. reflexivity.
Qed.

Lemma info_loop_shift fuel e it buf :
  base <= it ->
  while_ fuel (info_cond (e + d)) (info_field mem' fuel (e + d)) (it + d, buf)
  = shifted d (sh d)
      (while_ fuel (info_cond e) (info_field mem fuel e) (it, buf)).
Proof.
  intros H. change (it + d, buf) with (sh d (it, buf)).
  apply (shifted_while d (sh d) (fun s => base <= fst s)
           (info_cond e) (info_cond (e + d))
           (info_field mem fuel e) (info_field mem' fuel (e + d)));
    [ | | | exact H].
  - intros [i b] Hi. unfold info_cond, sh. cbn [fst snd].
    eapply shifted_bind; [apply remaining_read_shift|]. intros; reflexivity.
  - intros [i b] Hi. now apply info_field_shift.
  - intros [i b] t [i' b'] Hi E. apply info_field_Val in E. cbn [fst] in *. lia.
Qed.

Lemma parse_subchunk_INFO_shift fuel raw len :
  base <= raw ->
  parse_subchunk_INFO mem' fuel (raw + d) len
  = shifted d same (parse_subchunk_INFO mem fuel raw len).
Proof.
  intros H. unfold parse_subchunk_INFO.
  replace (raw + d + len) with (raw + len + d) by lia.
  eapply shifted_bind; [now apply read_or_fail_shift|].
  intros t1 [it1 buf1] E1. apply read_or_fail_Val in E1.
  unfold sh. cbn [fst snd] in *. subst it1.
  eapply shifted_bind with (g := same).
  - destruct (memcmp_eq _ _ _); [|reflexivity].
    apply shifted_printf_then.
    eapply shifted_bind; [apply info_loop_shift; lia|].
    intros; reflexivity.
  - intros; reflexivity.
Qed.



End Shift.

(** ** A pad byte after an INFO field *)

Lemma print_raw_char_text (b : byte) :
  print_raw_char b = printf (raw_char_text b).
Proof.
  unfold print_raw_char, raw_char_text. cbv zeta.
  repeat match goal with |- context [if ?c then _ else _] => destruct c end;
    reflexivity.
Qed.

Lemma print_raw_from_ok mem q n i :
  q + i + n <= List.length mem ->
  print_raw_from (mapped mem q) i n
  = (print_raw_events (q + i) (view mem (q + i) n), Val tt).
Proof.
  revert i. induction n as [|n IH]; intros i H; [reflexivity|].
  destruct (skipn_cons_nth mem (q + i)) as (b & Hb & _); [lia|].
  cbn [print_raw_from]. unfold mapped at 1.
  rewrite (load_ok _ _ _ Hb), (view_cons _ _ _ _ Hb). norm.
  rewrite print_raw_char_text. norm.
  rewrite IH by lia. replace (q + S i) with (S (q + i)) by lia.
  rewrite !emit_pair. reflexivity.
Qed.

Lemma print_raw_ok mem q n :
  q + n <= List.length mem ->
  print_raw (mapped mem q) n = (print_raw_events q (view mem q n), Val tt).
Proof.
  intros H. unfold print_raw. rewrite print_raw_from_ok by lia.
  now rewrite Nat.add_0_r.
Qed.

Lemma stdout_of_print_raw_events q bs :
  stdout_of (print_raw_events q bs) = raw_text bs.
Proof. revert q. induction bs as [|b bs IH]; intros q; simpl; congruence. Qed.

Lemma stderr_of_print_raw_events q bs :
  stderr_of (print_raw_events q bs) = EmptyString.
Proof. revert q. induction bs as [|b bs IH]; intros q; simpl; congruence. Qed.

Lemma while_unfold {S} k (cond : S -> M bool) (body : S -> M S) s :
  while_ (Datatypes.S k) cond body s
  = bind (cond s)
      (fun b => if b then bind (body s) (while_ k cond body) else ret s).
Proof. reflexivity. Qed.

(** The padding loop stops at once on a byte that is not NUL, and at the end
    of the view. *)
Lemma info_pad_stop mem k e p x :
  p <= e ->
  (p = e \/ exists b, nth_error mem p = Some b /\ b <> x00) ->
  while_ (S k) (info_pad_cond mem e) info_pad_body (p, x)
  = ((if p <? e then [Load p] else []), Val (p, x)).
Proof.
  intros Hp Hb. cbn [while_]. unfold info_pad_cond.
  rewrite remaining_read_ok by lia. norm.
  destruct (Nat.ltb_spec 0 (e - p)), (Nat.ltb_spec p e); try lia.
  - destruct Hb as [->|(b & Hb & Hne)]; [lia|].
    rewrite (load_ok _ _ _ Hb). norm.
    destruct (Byte.eqb b x00) eqn:E.
    + apply Byte.byte_dec_bl in E. contradiction.
    + unfold ret. now rewrite emit_pair.
  - norm. reflexivity.
Qed.

(** It consumes one NUL byte that is followed by a byte that is not NUL, or
    by the end of the view. *)
Lemma info_pad_one mem k e p :
  p < e -> nth_error mem p = Some x00 ->
  (S p = e \/ exists b, nth_error mem (S p) = Some b /\ b <> x00) ->
  while_ (S (S k)) (info_pad_cond mem e) info_pad_body (p, false)
  = ([Load p; Stdout "Extra["; Stdout "\0"]
     ++ (if S p <? e then [Load (S p)] else []),
     Val (S p, true)).
Proof.
  intros Hp H0 Hb. rewrite while_unfold. unfold info_pad_cond at 1.
  rewrite remaining_read_ok by lia. norm.
  destruct (Nat.ltb_spec 0 (e - p)); [|lia].
  rewrite (load_ok _ _ _ H0). norm.
  change (Byte.eqb x00 x00) with true. cbv iota.
  unfold info_pad_body at 1. cbn [negb]. norm.
  rewrite info_pad_stop by (auto; lia).
  now rewrite !emit_pair.
Qed.

(** An INFO field that fits in the view, up to the padding loop. *)
Lemma info_field_fits mem fuel e it buf :
  e <= List.length mem ->
  it + 8 + N.to_nat (uint_le (view mem (it + 4) 4)) <= e ->
  info_field mem fuel e (it, buf)
  = emit (map Load (seq it 4)
          ++ [Stdout (tab ++ fmt_s_prec 4 (view mem it 4) ++ "[")%string]
          ++ map Load (seq (it + 4) 4)
          ++ [Stdout ("size: " ++ fmt_u (uint_le (view mem (it + 4) 4))
                      ++ ", '")%string]
          ++ print_raw_events (it + 8)
               (view mem (it + 8) (N.to_nat (uint_le (view mem (it + 4) 4))))
          ++ [Stdout "']"])
      ('(it', extra) <-
         while_ fuel (info_pad_cond mem e) info_pad_body
           (it + 8 + N.to_nat (uint_le (view mem (it + 4) 4)), false) ;;
       (if extra : bool then printf "]" else ret tt) ;;
       printf nl ;;
       ret (it', view mem it 4 ++ skipn 4 buf)).
Proof.
  intros He Hf. unfold info_field.
  rewrite read_or_fail_ok by lia. norm. cbv beta iota.
  rewrite fmt_s_prec_view_app by lia.
  rewrite read_or_fail_ok by lia. norm. cbv beta iota.
  rewrite fresh_object_rest. replace (it + 4 + 4) with (it + 8) by lia.
  rewrite remaining_read_ok by lia. norm.
  destruct (N.ltb_spec (N.of_nat (e - (it + 8))) (uint_le (view mem (it + 4) 4)));
    [lia|].
  rewrite print_raw_ok by lia. norm.
  rewrite !emit_emit, <- ?app_assoc. reflexivity.
Qed.

Lemma string_app_assoc (a b c : string) :
  ((a ++ b) ++ c)%string = (a ++ (b ++ c))%string.
Proof. induction a; simpl; congruence. Qed.

Lemma string_app_nil_l (s : string) : (EmptyString ++ s)%string = s.
Proof. reflexivity. Qed.

Ltac text_norm :=
  rewrite ?stdout_of_app, ?stderr_of_app;
  cbn [stdout_of stderr_of];
  rewrite ?stdout_of_map_Load, ?stderr_of_map_Load,
    ?stdout_of_print_raw_events, ?stderr_of_print_raw_events;
  rewrite ?string_app_assoc, ?string_app_nil_l, ?string_app_nil_r.

Ltac case_if :=
  match goal with |- context [if ?c then _ else _] => destruct c end.

Lemma pad_at_length p mem :
  p <= List.length mem -> List.length (pad_at p mem) = S (List.length mem).
Proof.
  intros H. unfold pad_at. rewrite length_app, length_firstn. cbn [List.length].
  rewrite length_skipn. lia.
Qed.

Lemma pad_at_view p mem q m :
  q + m <= p -> p <= List.length mem -> view (pad_at p mem) q m = view mem q m.
Proof.
  intros H Hp. unfold view, pad_at.
  rewrite skipn_app, firstn_app, length_skipn, !length_firstn.
  replace (q - Nat.min p (List.length mem)) with 0 by lia.
  replace (m - (Nat.min p (List.length mem) - q)) with 0 by lia.
  cbn [firstn skipn]. rewrite app_nil_r, skipn_firstn_comm, firstn_firstn.
  replace (Nat.min m (p - q)) with m by lia. reflexivity.
Qed.

Lemma pad_at_nth_pad p mem :
  p <= List.length mem -> nth_error (pad_at p mem) p = Some x00.
Proof.
  intros H. unfold pad_at. rewrite nth_error_app2 by (rewrite length_firstn; lia).
  rewrite length_firstn. replace (p - Nat.min p (List.length mem)) with 0 by lia.
  reflexivity.
Qed.

Lemma pad_at_nth_after p mem q :
  p <= List.length mem -> p <= q ->
  nth_error (pad_at p mem) (q + 1) = nth_error mem q.
Proof.
  intros H Hq. unfold pad_at.
  rewrite nth_error_app2 by (rewrite length_firstn; lia).
  rewrite length_firstn.
  replace (q + 1 - Nat.min p (List.length mem)) with (S (q - p)) by lia.
  cbn [nth_error]. rewrite nth_error_skipn. f_equal. lia.
Qed.

(** C7 (as amended). Take an INFO field that fits in its view and is
    followed by no pad byte (the view ends after its text, or the next byte
    is not NUL), and the same view with one zero byte inserted after the
    text.  The field is parsed alike in both: same tag, same declared size,
    same text, no diagnostic; the dump of the padded one has the marker
    [Extra[\0]] before the end of the line and nothing else differs; and the
    rest of the list is parsed alike from there, one byte further on (same
    output, same result). *)
Theorem pad_byte_adds_only_the_marker
    (mem : list byte) (fuel e it : nat) (buf : list byte) :
  let size := uint_le (view mem (it + 4) 4) in
  let p := it + 8 + N.to_nat size in
  let field_text :=
    (tab ++ fmt_s_prec 4 (view mem it 4) ++ "[" ++ "size: " ++ fmt_u size
     ++ ", '" ++ raw_text (view mem (it + 8) (N.to_nat size)) ++ "']")%string in
  2 <= fuel -> p <= e -> e <= List.length mem ->
  (p = e \/ exists b, nth_error mem p = Some b /\ b <> x00) ->
  exists t0 t1 buf',
    info_field mem fuel e (it, buf) = (t0, Val (p, buf'))
    /\ info_field (pad_at p mem) fuel (e + 1) (it, buf)
       = (t1, Val (p + 1, buf'))
    /\ stdout_of t0 = (field_text ++ nl)%string
    /\ stdout_of t1 = (field_text ++ "Extra[\0]" ++ nl)%string
    /\ stderr_of t0 = EmptyString
    /\ stderr_of t1 = EmptyString
    /\ forall b,
         while_ fuel (info_cond (e + 1))
           (info_field (pad_at p mem) fuel (e + 1)) (p + 1, b)
         = shifted 1 (sh 1)
             (while_ fuel (info_cond e) (info_field mem fuel e) (p, b)).
Proof.
  intros size p field_text Hfuel Hp He Hnext.
  assert (Hpl : p <= List.length mem) by lia.
  assert (Hv4 : view (pad_at p mem) (it + 4) 4 = view mem (it + 4) 4)
    by (apply pad_at_view; unfold p; lia).
  assert (Hv0 : view (pad_at p mem) it 4 = view mem it 4)
    by (apply pad_at_view; unfold p; lia).
  assert (Hvt : view (pad_at p mem) (it + 8) (N.to_nat size)
                = view mem (it + 8) (N.to_nat size))
    by (apply pad_at_view; unfold p; lia).
  destruct fuel as [|[|k]]; try lia.
  eexists. eexists. eexists. split; [|split].
  - rewrite info_field_fits by (fold size; fold p; lia).
    fold size. fold p. rewrite info_pad_stop by auto. norm. cbv beta iota.
    norm. unfold ret. rewrite !emit_pair. reflexivity.
  - rewrite info_field_fits
      by (rewrite ?Hv4, ?pad_at_length; fold size; fold p; lia).
    rewrite Hv4, Hv0. fold size. rewrite Hvt. fold p.
    rewrite info_pad_one.
    + norm. cbv beta iota. norm. unfold ret. rewrite !emit_pair.
      replace (S p) with (p + 1) by lia. reflexivity.
    + lia.
    + now apply pad_at_nth_pad.
    + destruct Hnext as [->|(b & Hb & Hne)]; [left; lia|].
      right. exists b. split; [|exact Hne].
      replace (S p) with (p + 1) by lia. now rewrite pad_at_nth_after.
  - unfold field_text. repeat split.
    + text_norm. case_if; text_norm; reflexivity.
    + text_norm. case_if; text_norm; reflexivity.
    + text_norm. case_if; text_norm; reflexivity.
    + text_norm. case_if; text_norm; reflexivity.
    + intros b. apply info_loop_shift with (base := p); [|lia].
      intros q Hq. now apply pad_at_nth_after.
Qed.

(** Two fields; the first, [IART] with the one-byte text [A], is followed
    directly by the next tag. *)
Lemma pad_byte_adds_only_the_marker_witness :
  let mem := list_byte_of_string "INFOIART" ++ u32 1 ++ list_byte_of_string "A"
             ++ list_byte_of_string "INAM" ++ u32 2 ++ list_byte_of_string "No" in
  exists t0 t1 buf',
    info_field mem 24 23 (4, fresh_object 4) = (t0, Val (13, buf'))
    /\ info_field (pad_at 13 mem) 24 24 (4, fresh_object 4)
       = (t1, Val (14, buf'))
    /\ stdout_of t0 = (tab ++ "IART[size: 1, 'A']" ++ nl)%string
    /\ stdout_of t1 = (tab ++ "IART[size: 1, 'A']Extra[\0]" ++ nl)%string.
Proof.
  intros mem.
  destruct (pad_byte_adds_only_the_marker mem 24 23 4 (fresh_object 4))
    as (t0 & t1 & b & E0 & E1 & S0 & S1 & _).
  - lia.
  - vm_compute. lia.
  - vm_compute. lia.
  - right. exists "I"%byte. split; [reflexivity | discriminate].
  - exists t0, t1, b. repeat split; assumption.
Defined.

(** The dump of an INFO list whose field [IART] = [A] has no pad byte, and
    of the same list with one: the second has the marker.  In whole files
    around them the two dumps differ in more than their numbers. *)
Lemma pad_byte_shows_in_the_dump :
  stdout_of (fst (parse_subchunk_INFO
                    (list_byte_of_string "INFOIART" ++ u32 1
                     ++ list_byte_of_string "A") 14 0 13))
  = ("INFO[" ++ nl ++ tab ++ "IART[size: 1, 'A']" ++ nl ++ "]")%string
  /\ stdout_of (fst (parse_subchunk_INFO
                       (list_byte_of_string "INFOIART" ++ u32 1
                        ++ list_byte_of_string "A" ++ [x00]) 15 0 14))
     = ("INFO[" ++ nl ++ tab ++ "IART[size: 1, 'A']Extra[\0]" ++ nl ++ "]")%string
  /\ String.eqb
       (no_digits (stdout_of (fst (parse_RIFF
          (wav_header 49 16 ++ list_byte_of_string "LIST" ++ u32 13
           ++ list_byte_of_string "INFOIART" ++ u32 1
           ++ list_byte_of_string "A") 58 0 57))))
       (no_digits (stdout_of (fst (parse_RIFF
          (wav_header 50 16 ++ list_byte_of_string "LIST" ++ u32 14
           ++ list_byte_of_string "INFOIART" ++ u32 1
           ++ list_byte_of_string "A" ++ [x00]) 59 0 58))))
     = false
  /\ snd (parse_RIFF
            (wav_header 50 16 ++ list_byte_of_string "LIST" ++ u32 14
             ++ list_byte_of_string "INFOIART" ++ u32 1
             ++ list_byte_of_string "A" ++ [x00]) 59 0 58)
     = Return EXIT_SUCCESS.
Proof. repeat split; vm_compute; reflexivity. Qed.

(** ** The declared ChunkSize and the extent of the walk *)

Lemma parse_RIFF_valid_size mem fuel e :
  e <= List.length mem -> 8 <= e ->
  view mem 0 4 = list_byte_of_string "RIFF" ->
  (uint_le (view mem 4 4) <= N.of_nat (e - 8))%N ->
  parse_RIFF mem fuel 0 e
  = emit (map Load (seq 0 4) ++ [Stdout "RIFF["] ++ map Load (seq 4 4)
          ++ [Stdout ("ChunkSize: " ++ fmt_u (uint_le (view mem 4 4))
                      ++ ", ")%string])
      (riff_after_size mem fuel e 8 (list_byte_of_string "RIFF")).
Proof.
  intros He H8 Hid Hs. unfold parse_RIFF, parse_RIFF_header, riff_after_size.
  cbn [Nat.add].
  rewrite read_or_fail_ok by lia. norm. cbv beta iota.
  rewrite fresh_object_rest, Hid.
  change (negb (memcmp_eq (list_byte_of_string "RIFF")
                  (list_byte_of_string "RIFF") 4)) with false.
  cbv iota. norm.
  change (fmt_s_prec 4 (list_byte_of_string "RIFF")) with "RIFF".
  rewrite read_or_fail_ok by lia. norm. cbv beta iota.
  rewrite fresh_object_rest. change (0 + 4) with 4. change (4 + 4) with 8.
  rewrite remaining_read_ok by lia. norm.
  destruct (N.ltb_spec (N.of_nat (e - 8)) (uint_le (view mem 4 4))); [lia|].
  rewrite !emit_emit, <- ?app_assoc. reflexivity.
Qed.


Section ShiftRiff.

Variables (mem mem' : list byte) (d base : nat).
Hypothesis agree :
  forall p, base <= p -> nth_error mem' (p + d) = nth_error mem p.



End ShiftRiff.





(** * Further properties *)

(** ** Memory safety of a view *)

Lemma Forall_ev_ok_within (hi : nat) (t : list event) :
  Forall (ev_ok (within 0 hi)) t -> Forall (fun p => p < hi) (loads_of t).
Proof.
  induction 1 as [|[s|s|p] t H _ IH]; simpl; auto.
  constructor; auto. destruct H. assumption.
Qed.

(** X1. Whatever the bytes of the mapping, the iteration budget and the
    length [e] of the view handed to [parse_RIFF] (a view that lies inside
    the mapping): every byte the parse loads is at an offset below [e], no
    load falls outside the mapping and no [assert] of [remaining_read]
    fails. *)
Theorem parse_RIFF_stays_in_its_view (mem : list byte) (fuel e : nat) :
  e <= List.length mem ->
  Forall (fun p => p < e) (loads_of (fst (parse_RIFF mem fuel 0 e)))
  /\ snd (parse_RIFF mem fuel 0 e) <> Trap OutOfBounds
  /\ snd (parse_RIFF mem fuel 0 e) <> Trap AssertFailed.
Proof.
  intros He.
  assert (H : outcome (within 0 e) only_budget exit_code
                (parse_RIFF mem fuel 0 e) (fun _ => False)).
  { apply outcome_parse_RIFF with (e := e).
    - intros p Hp. split; [unfold within; lia | right; lia].
    - left. reflexivity.
    - now right.
    - now left.
    - reflexivity. }
  destruct H as [Ht Hr]. split; [now apply Forall_ev_ok_within|].
  destruct (snd (parse_RIFF mem fuel 0 e)) as [a|c|x];
    try (split; discriminate).
  unfold only_budget in Hr. subst x. split; discriminate.
Qed.

Lemma parse_RIFF_stays_in_its_view_witness :
  Forall (fun p => p < 40)
    (loads_of (fst (parse_RIFF (wav_header 32 16 ++ list_byte_of_string "data"
                                ++ u32 9 ++ [x41]) 3 0 40))).
Proof.
  apply (parse_RIFF_stays_in_its_view
           (wav_header 32 16 ++ list_byte_of_string "data" ++ u32 9 ++ [x41])
           3 40).
  vm_compute. lia.
Defined.

Lemma skipn_agree (mem : list byte) (r p : nat) :
  0 <= p -> nth_error mem (p + r) = nth_error (skipn r mem) p.
Proof. intros _. rewrite nth_error_skipn. f_equal. lia. Qed.

(** The LIST parser run on the file, and run on the file without the [raw]
    bytes that precede the chunk's payload. *)
Lemma parse_subchunk_INFO_suffix mem fuel raw len :
  parse_subchunk_INFO mem fuel raw len
  = shifted raw same (parse_subchunk_INFO (skipn raw mem) fuel 0 len).
Proof.
  apply (parse_subchunk_INFO_shift (skipn raw mem) mem raw 0
           (skipn_agree mem raw) fuel 0 len (le_n 0)).
Qed.

(** X2. The LIST parser is confined to the payload it is given: when the
    [length] bytes at [raw] lie inside the mapping, every byte it loads is
    at an offset in [raw .. raw + length), whatever follows the chunk in the
    file, and it neither loads outside the mapping nor fails an [assert]. *)
Theorem list_parser_stays_in_its_view (mem : list byte) (fuel raw len : nat) :
  raw + len <= List.length mem ->
  Forall (fun p => raw <= p < raw + len)
    (loads_of (fst (parse_subchunk_INFO mem fuel raw len)))
  /\ snd (parse_subchunk_INFO mem fuel raw len) <> Trap OutOfBounds
  /\ snd (parse_subchunk_INFO mem fuel raw len) <> Trap AssertFailed.
Proof.
  intros He.
  assert (H : outcome (within 0 (raw + len)) only_budget exit_code
                (parse_subchunk_INFO mem fuel raw len) (fun _ => False)).
  { apply outcome_parse_subchunk_INFO with (e := raw + len).
    - intros p Hp. split; [unfold within; lia | right; lia].
    - left. reflexivity.
    - now right.
    - now left.
    - lia. }
  destruct H as [Ht Hr]. apply Forall_ev_ok_within in Ht. split.
  - rewrite Forall_forall in *. intros p Hp. split; [|now apply Ht].
    rewrite parse_subchunk_INFO_suffix in Hp. cbn [shifted fst] in Hp.
    rewrite loads_of_shift in Hp. apply in_map_iff in Hp.
    destruct Hp as (q & <- & _). lia.
  - destruct (snd (parse_subchunk_INFO mem fuel raw len)) as [a|c|x];
      try (split; discriminate).
    unfold only_budget in Hr. subst x. split; discriminate.
Qed.

Lemma list_parser_stays_in_its_view_witness :
  Forall (fun p => 44 <= p < 44 + 14)
    (loads_of (fst (parse_subchunk_INFO
                      (wav_header 62 16 ++ list_byte_of_string "LIST" ++ u32 14
                       ++ list_byte_of_string "INFOIART" ++ u32 1
                       ++ list_byte_of_string "A" ++ [x00]
                       ++ list_byte_of_string "data" ++ u32 4
                       ++ [x00; x00; x00; x00]) 71 44 14))).
Proof.
  apply (list_parser_stays_in_its_view _ 71 44 14). vm_compute. lia.
Defined.

(** X3. What the LIST parser prints and returns depends on the bytes from
    the start of its payload on, and on nothing else: not on the offset of
    the chunk in the file, nor on the bytes that precede it. *)
Theorem list_parser_is_position_independent
    (mem mem' : list byte) (fuel raw raw' len : nat) :
  skipn raw mem = skipn raw' mem' ->
  stdout_of (fst (parse_subchunk_INFO mem fuel raw len))
  = stdout_of (fst (parse_subchunk_INFO mem' fuel raw' len))
  /\ stderr_of (fst (parse_subchunk_INFO mem fuel raw len))
     = stderr_of (fst (parse_subchunk_INFO mem' fuel raw' len))
  /\ snd (parse_subchunk_INFO mem fuel raw len)
     = snd (parse_subchunk_INFO mem' fuel raw' len).
Proof.
  intros H.
  rewrite (parse_subchunk_INFO_suffix mem), (parse_subchunk_INFO_suffix mem'), H.
  cbn [shifted fst snd]. rewrite !stdout_of_shift, !stderr_of_shift.
  repeat split.
Qed.

Lemma list_parser_is_position_independent_witness :
  stdout_of (fst (parse_subchunk_INFO
                    (wav_header 50 16 ++ list_byte_of_string "LIST" ++ u32 14
                     ++ list_byte_of_string "INFOIART" ++ u32 1
                     ++ list_byte_of_string "A" ++ [x00]) 59 44 14))
  = stdout_of (fst (parse_subchunk_INFO
                      (list_byte_of_string "INFOIART" ++ u32 1
                       ++ list_byte_of_string "A" ++ [x00]) 59 0 14)).
Proof.
  apply (list_parser_is_position_independent _ _ 59 44 0 14). reflexivity.
Defined.

(** ** Diagnostics *)

Lemma silent_quiet {A} (m : M A) : silent m -> quiet m.
Proof. now left. Qed.

Lemma silent_bind {A B} (m : M A) (f : A -> M B) :
  silent m -> (forall a, silent (f a)) -> silent (bind m f).
Proof.
  unfold silent. destruct m as [t [a|c|x]]; cbn [fst bind];
    [|intros H _; exact H..].
  intros Ht Hf. specialize (Hf a). destruct (f a) as [t' r]. cbn [fst] in *.
  now rewrite stderr_of_app, Ht, Hf.
Qed.

Lemma quiet_bind {A B} (m : M A) (f : A -> M B) :
  quiet m -> (forall a, quiet (f a)) -> quiet (bind m f).
Proof.
  unfold quiet. destruct m as [t [a|c|x]]; cbn [fst snd bind].
  2:{ intros [H|H] _; [now left | right; congruence]. }
  2:{ intros [H|H] _; [now left | discriminate]. }
  intros [Ht|Hr] Hf; [|discriminate].
  specialize (Hf a). destruct (f a) as [t' r]. cbn [fst snd] in *.
  destruct Hf as [Hf|Hf]; [left | now right].
  now rewrite stderr_of_app, Ht, Hf.
Qed.

Lemma silent_printf_then {B} s (k : M B) :
  silent k -> silent (bind (printf s) (fun _ => k)).
Proof. intros. now apply silent_bind. Qed.

Lemma quiet_printf_then {B} s (k : M B) :
  quiet k -> quiet (bind (printf s) (fun _ => k)).
Proof. intros. apply quiet_bind; auto. now left. Qed.

Lemma quiet_while {S} (cond : S -> M bool) (body : S -> M S) :
  (forall s, silent (cond s)) -> (forall s, quiet (body s)) ->
  forall fuel s, quiet (while_ fuel cond body s).
Proof.
  intros Hc Hb. induction fuel as [|k IH]; intros s; [now left|].
  cbn [while_]. apply quiet_bind; [apply silent_quiet, Hc|].
  intros [|]; [|now left]. apply quiet_bind; auto.
Qed.

Lemma silent_while {S} (cond : S -> M bool) (body : S -> M S) :
  (forall s, silent (cond s)) -> (forall s, silent (body s)) ->
  forall fuel s, silent (while_ fuel cond body s).
Proof.
  intros Hc Hb. induction fuel as [|k IH]; intros s; [reflexivity|].
  cbn [while_]. apply silent_bind; [apply Hc|].
  intros [|]; [|reflexivity]. apply silent_bind; auto.
Qed.

Lemma silent_load mem p : silent (load mem p).
Proof. unfold load. now destruct (nth_error mem p). Qed.

Lemma silent_remaining_read it e : silent (remaining_read it e).
Proof. unfold remaining_read. now destruct (it <=? e). Qed.

Lemma silent_memcpy_src mem n it : silent (memcpy_src mem it n).
Proof.
  revert it. induction n as [|n IH]; intros it; [reflexivity|].
  cbn [memcpy_src]. apply silent_bind; [apply silent_load|]. intros b.
  apply silent_bind; [apply IH|]. reflexivity.
Qed.

Lemma silent_read_or_fail mem it e buf n : silent (read_or_fail mem it e buf n).
Proof.
  unfold read_or_fail, read_bytes. apply silent_bind.
  - apply silent_bind; [apply silent_remaining_read|]. intros r.
    destruct (r <? n); [reflexivity|].
    apply silent_bind; [apply silent_memcpy_src|]. reflexivity.
  - intros [[p|] b]; reflexivity.
Qed.

Lemma silent_print_raw (it : ptr) n :
  (forall j, silent (it j)) -> silent (print_raw it n).
Proof.
  intros Hp. unfold print_raw. generalize 0 as i.
  induction n as [|n IH]; intros i; [reflexivity|].
  cbn [print_raw_from]. apply silent_bind; [apply Hp|]. intros b.
  apply silent_bind; [|intros; apply IH].
  unfold print_raw_char. cbv zeta. repeat case_if; reflexivity.
Qed.

Lemma silent_is_ascii (buf : ptr) n :
  (forall j, silent (buf j)) -> silent (is_ascii buf n).
Proof.
  intros Hp. unfold is_ascii. generalize 0 as i.
  induction n as [|n IH]; intros i; [reflexivity|].
  cbn [is_ascii_from]. apply silent_bind; [apply Hp|]. intros b.
  destruct (negb _); [reflexivity | apply IH].
Qed.

Lemma silent_local buf j : silent (local buf j).
Proof. unfold local. now destruct (nth_error buf j). Qed.

Lemma silent_mapped mem it j : silent (mapped mem it j).
Proof. apply silent_load. Qed.

Lemma quiet_diagnostic {A B} (m : M A) s :
  silent m ->
  quiet (bind m (fun _ => bind (fprintf_stderr s)
                            (fun _ => @return_ B EXIT_FAILURE))).
Proof.
  intros H. apply quiet_bind; [now apply silent_quiet|]. intros _. now right.
Qed.

Lemma quiet_info_field mem fuel e s : quiet (info_field mem fuel e s).
Proof.
  destruct s as [it buf]. unfold info_field.
  apply quiet_bind; [apply silent_quiet, silent_read_or_fail|].
  intros [it1 buf1]. apply quiet_printf_then.
  apply quiet_bind; [apply silent_quiet, silent_read_or_fail|].
  intros [it2 sz]. apply quiet_printf_then.
  apply quiet_bind; [apply silent_quiet, silent_remaining_read|].
  intros r. destruct (N.ltb _ _).
  - apply quiet_bind; [apply silent_quiet, silent_remaining_read|].
    intros r'. now right.
  - apply silent_quiet.
    apply silent_bind; [apply silent_print_raw, silent_mapped|]. intros _.
    apply silent_printf_then. apply silent_bind.
    + apply silent_while.
      * intros [i x]. unfold info_pad_cond.
        apply silent_bind; [apply silent_remaining_read|]. intros r0.
        destruct (0 <? r0); [|reflexivity].
        apply silent_bind; [apply silent_load | reflexivity].
      * intros [i x]. unfold info_pad_body. now destruct (negb x).
    + intros [i x]. now destruct x.
Qed.

Lemma quiet_parse_subchunk_INFO mem fuel raw len :
  quiet (parse_subchunk_INFO mem fuel raw len).
Proof.
  unfold parse_subchunk_INFO.
  apply quiet_bind; [apply silent_quiet, silent_read_or_fail|].
  intros [it1 buf1]. apply quiet_bind; [|now left].
  destruct (memcmp_eq _ _ _); [|now left].
  apply quiet_printf_then. apply quiet_bind; [|now left].
  apply quiet_while; [|intros; apply quiet_info_field].
  intros s. unfold info_cond.
  apply silent_bind; [apply silent_remaining_read | reflexivity].
Qed.

(** The call of the LIST parser followed by the test of its result. *)
Lemma quiet_call_checked (m : M Z) :
  quiet m ->
  quiet (bind (call m)
           (fun res => if negb (res =? EXIT_SUCCESS)%Z
                       then return_ res else ret tt)).
Proof.
  unfold quiet. destruct m as [t [c|c|x]]; cbn [fst snd call].
  - intros [H|H]; [|discriminate]. left.
    rewrite bind_Val. unfold return_, ret.
    destruct (negb _); cbn [emit fst]; now rewrite app_nil_r.
  - intros H. rewrite bind_Val. unfold return_, ret.
    destruct (Z.eqb_spec c EXIT_SUCCESS) as [->|Hc]; cbn [negb emit fst snd].
    + left. rewrite app_nil_r. destruct H as [H|H]; [exact H | discriminate].
    + rewrite app_nil_r. destruct H as [H|H]; [now left|].
      injection H as ->. now right.
  - intros [H|H]; [now left | discriminate].
Qed.

Lemma quiet_walk_subchunk mem fuel e s : quiet (walk_subchunk mem fuel e s).
Proof.
  destruct s as [[it buf] sc]. unfold walk_subchunk.
  apply quiet_bind; [apply silent_quiet, silent_read_or_fail|].
  intros [it1 buf1].
  apply quiet_bind; [apply silent_quiet, silent_is_ascii, silent_local|].
  intros a. destruct (negb a); [now left|].
  apply quiet_bind; [apply silent_quiet, silent_read_or_fail|].
  intros [it2 sz].
  apply quiet_bind; [apply silent_quiet, silent_remaining_read|].
  intros r. destruct (N.ltb _ _).
  - apply quiet_bind; [apply silent_quiet, silent_remaining_read|].
    intros r'. now right.
  - apply quiet_printf_then. apply quiet_printf_then.
    apply quiet_bind; [|now left].
    destruct (memcmp_eq _ _ _).
    + apply quiet_call_checked, quiet_parse_subchunk_INFO.
    + apply silent_quiet.
      apply silent_bind; [apply silent_is_ascii, silent_mapped|].
      intros [|]; [apply silent_print_raw, silent_mapped | reflexivity].
Qed.

Lemma quiet_parse_RIFF_header mem e it buf : quiet (parse_RIFF_header mem e it buf).
Proof.
  unfold parse_RIFF_header.
  apply quiet_bind; [apply silent_quiet, silent_read_or_fail|].
  intros [it1 buf1]. destruct (negb _); [now left|].
  apply quiet_printf_then.
  apply quiet_bind; [apply silent_quiet, silent_read_or_fail|].
  intros [it2 sz]. apply quiet_printf_then.
  apply quiet_bind; [apply silent_quiet, silent_remaining_read|].
  intros r. destruct (N.ltb _ _).
  - apply quiet_bind; [apply silent_quiet, silent_remaining_read|].
    intros r'. now right.
  - apply silent_quiet. apply silent_bind; [apply silent_read_or_fail|].
    intros [it3 buf3]. reflexivity.
Qed.

Lemma silent_parse_RIFF_fmt mem e it buf sc :
  silent (parse_RIFF_fmt mem e it buf sc).
Proof.
  unfold parse_RIFF_fmt.
  apply silent_bind; [apply silent_read_or_fail|].
  intros [it1 buf1]. destruct (negb _); [reflexivity|].
  apply silent_printf_then.
  repeat (apply silent_bind; [apply silent_read_or_fail|];
          intros [? ?]; apply silent_printf_then).
  reflexivity.
Qed.

Lemma quiet_parse_RIFF mem fuel raw len : quiet (parse_RIFF mem fuel raw len).
Proof.
  unfold parse_RIFF.
  apply quiet_bind; [apply quiet_parse_RIFF_header|]. intros [it1 buf1].
  apply quiet_bind; [apply silent_quiet, silent_parse_RIFF_fmt|].
  intros [[it2 buf2] sc]. apply quiet_bind; [|now left].
  apply quiet_while; [|intros; apply quiet_walk_subchunk].
  intros [[i b] c]. unfold walk_cond.
  apply silent_bind; [apply silent_remaining_read | reflexivity].
Qed.

(** X4. Diagnostics mean failure: whatever the input and the budget, a run
    of [parse_RIFF] that wrote anything to stderr returned [EXIT_FAILURE];
    in particular a parse that returns [EXIT_SUCCESS] has written nothing
    to stderr. *)
Theorem diagnostic_means_failure
    (mem : list byte) (fuel raw len : nat) (t : list event) (r : res Z) :
  parse_RIFF mem fuel raw len = (t, r) ->
  stderr_of t <> EmptyString -> r = Return EXIT_FAILURE.
Proof.
  intros E Hne. pose proof (quiet_parse_RIFF mem fuel raw len) as Q.
  rewrite E in Q. destruct Q as [Q|Q]; [contradiction | exact Q].
Qed.

Lemma diagnostic_means_failure_witness :
  snd (parse_RIFF (wav_header 36 16) 37 0 36) = Return EXIT_FAILURE.
Proof.
  eapply (diagnostic_means_failure (wav_header 36 16) 37 0 36).
  - apply surjective_pairing.
  - vm_compute. discriminate.
Defined.

(** ** What a successful parse establishes *)

Lemma view_length_inv (mem : list byte) (it n : nat) :
  0 < n -> List.length (view mem it n) = n -> it + n <= List.length mem.
Proof.
  unfold view. rewrite length_firstn, length_skipn. lia.
Qed.

Section Headers.

Variables (L : nat -> Prop) (X : trap -> Prop) (R : Z -> Prop).
Variables (mem : list byte) (e : nat).
Hypothesis view_loadable : forall p, p < e -> loadable L X mem p.
Hypothesis may_fail : R EXIT_FAILURE.

Lemma outcome_header_fields (it : nat) (buf : list byte) :
  X AssertFailed \/ it <= e ->
  outcome L X R (parse_RIFF_header mem e it buf)
    (fun s => fst s = it + 12 /\ it + 12 <= e /\ it + 12 <= List.length mem
              /\ view mem it 4 = list_byte_of_string "RIFF"
              /\ (uint_le (view mem (it + 4) 4) <= N.of_nat (e - (it + 8)))%N).
Proof.
  intros Ho. unfold parse_RIFF_header.
  eapply outcome_bind.
  { apply outcome_read_or_fail; auto. intros; apply view_loadable; lia. }
  intros [it1 buf1] (E1 & B1 & V1 & L1). cbn [fst snd] in *. subst it1.
  apply view_length_inv in L1; [|lia].
  rewrite V1, memcmp_eq_view_app_l by lia.
  destruct (memcmp_eq (view mem it 4) (list_byte_of_string "RIFF") 4) eqn:Em;
    cbn [negb]; [|now apply outcome_return].
  apply memcmp_eq_view in Em; [|lia|reflexivity].
  apply outcome_printf_then.
  eapply outcome_bind.
  { apply outcome_read_or_fail; auto. intros; apply view_loadable; lia. }
  intros [it2 sz] (E2 & B2 & V2 & L2). cbn [fst snd] in *. subst it2.
  rewrite fresh_object_rest in V2. subst sz.
  apply outcome_printf_then.
  eapply outcome_bind; [apply outcome_remaining_read; right; lia|].
  intros r [-> _].
  destruct (N.ltb_spec (N.of_nat (e - (it + 4 + 4))) (uint_le (view mem (it + 4) 4))).
  { eapply outcome_bind; [apply outcome_remaining_read; right; lia|].
    intros r _. apply outcome_fprintf_then. now apply outcome_return. }
  eapply outcome_bind.
  { apply outcome_read_or_fail; auto. intros; apply view_loadable; lia. }
  intros [it3 buf3] (E3 & B3 & V3 & L3). cbn [fst snd] in *. subst it3.
  apply view_length_inv in L3; [|lia].
  apply outcome_printf_then. apply outcome_ret. cbn [fst].
  replace (it + 8) with (it + 4 + 4) by lia. repeat split; auto; lia.
Qed.

Lemma outcome_fmt_fields (it : nat) (buf : list byte) (sc : Z) :
  X AssertFailed \/ it <= e ->
  outcome L X R (parse_RIFF_fmt mem e it buf sc)
    (fun s => fst (fst s) = it + 24 /\ it + 24 <= e
              /\ it + 24 <= List.length mem
              /\ view mem it 4 = list_byte_of_string "fmt "
              /\ snd s = (sc + 1)%Z).
Proof.
  intros Ho. unfold parse_RIFF_fmt.
  eapply outcome_bind.
  { apply outcome_read_or_fail; auto. intros; apply view_loadable; lia. }
  intros [it1 buf1] (E1 & B1 & V1 & L1). cbn [fst snd] in *. subst it1.
  apply view_length_inv in L1; [|lia].
  rewrite V1, memcmp_eq_view_app_l by lia.
  destruct (memcmp_eq (view mem it 4) (list_byte_of_string "fmt ") 4) eqn:Em;
    cbn [negb]; [|now apply outcome_return].
  apply memcmp_eq_view in Em; [|lia|reflexivity].
  apply outcome_printf_then.
  repeat (eapply outcome_bind;
    [ apply outcome_read_or_fail; auto; intros; apply view_loadable; lia
    | let i := fresh "it" in let b := fresh "b" in let E := fresh "E" in
      let B := fresh "B" in let W := fresh "W" in
      intros [i b] (E & B & _ & W); cbn [fst snd] in *; subst i;
      apply view_length_inv in W; [|lia];
      apply outcome_printf_then ]).
  apply outcome_ret. cbn [fst snd]. repeat split; auto; lia.
Qed.

End Headers.

Lemma parse_RIFF_success_inv (mem : list byte) (fuel e : nat) (t : list event) :
  parse_RIFF mem fuel 0 e = (t, Return EXIT_SUCCESS) ->
  36 <= e /\ 36 <= List.length mem
  /\ view mem 0 4 = list_byte_of_string "RIFF"
  /\ view mem 12 4 = list_byte_of_string "fmt "
  /\ (uint_le (view mem 4 4) <= N.of_nat (e - 8))%N.
Proof.
  unfold parse_RIFF. cbn [Nat.add]. intros H.
  apply bind_inv in H.
  destruct H as [(t1 & [it1 buf1] & t2 & E1 & H & _)|[(c & E & [= <-])|(x & _ & [=])]].
  2:{ exfalso.
      pose proof (outcome_header_fields anything anything failure mem e
                    (fun p _ => loadable_anything mem p) eq_refl 0
                    (fresh_object 4) (or_introl I)) as [_ O].
      rewrite E in O. cbn [snd] in O. unfold failure in O. discriminate O. }
  pose proof (outcome_Val _ _ _ _ _ _ _
                (outcome_header_fields anything anything anything mem e
                   (fun p _ => loadable_anything mem p) I 0
                   (fresh_object 4) (or_introl I)) E1) as (F1 & B1 & M1 & V1 & S1).
  cbn [fst Nat.add] in *. subst it1.
  apply bind_inv in H.
  destruct H as [(t3 & [[it2 buf2] sc] & t4 & E2 & H & _)|[(c & E & [= <-])|(x & _ & [=])]].
  2:{ exfalso.
      pose proof (outcome_fmt_fields anything anything failure mem e
                    (fun p _ => loadable_anything mem p) eq_refl 12
                    buf1 0%Z (or_introl I)) as [_ O].
      rewrite E in O. cbn [snd] in O. unfold failure in O. discriminate O. }
  pose proof (outcome_Val _ _ _ _ _ _ _
                (outcome_fmt_fields anything anything anything mem e
                   (fun p _ => loadable_anything mem p) I 12
                   buf1 0%Z (or_introl I)) E2) as (F2 & B2 & M2 & V2 & _).
  cbn [fst snd Nat.add] in *.
  repeat split; auto; lia.
Qed.

(** X5. What success establishes: when [parse_RIFF] on a view of [e] bytes
    returns [EXIT_SUCCESS], the view holds at least the 36 bytes of the
    preamble and the [fmt ] chunk, it starts with the bytes [RIFF], the
    bytes at offset 12 are [fmt ], the ChunkSize field is at most [e - 8],
    and nothing was written to stderr. *)
Theorem success_means_well_formed
    (mem : list byte) (fuel e : nat) (t : list event) :
  parse_RIFF mem fuel 0 e = (t, Return EXIT_SUCCESS) ->
  36 <= e /\ 36 <= List.length mem
  /\ view mem 0 4 = list_byte_of_string "RIFF"
  /\ view mem 12 4 = list_byte_of_string "fmt "
  /\ (uint_le (view mem 4 4) <= N.of_nat (e - 8))%N
  /\ stderr_of t = EmptyString.
Proof.
  intros H. pose proof (parse_RIFF_success_inv mem fuel e t H) as (A & B & C & D & E).
  repeat split; auto.
  pose proof (quiet_parse_RIFF mem fuel 0 e) as Q. rewrite H in Q.
  destruct Q as [Q|Q]; [exact Q | discriminate Q].
Qed.

Lemma success_means_well_formed_witness :
  view (wav_header 28 16) 12 4 = list_byte_of_string "fmt ".
Proof.
  apply (success_means_well_formed (wav_header 28 16) 37 36
           (fst (parse_RIFF (wav_header 28 16) 37 0 36))).
  vm_compute. reflexivity.
Defined.

(** X6. A view shorter than the 36 bytes of the preamble and the [fmt ]
    chunk is always rejected: whatever its bytes and whatever the budget,
    [parse_RIFF] returns [EXIT_FAILURE] without a trap, having loaded only
    bytes of the view. *)
Theorem short_file_is_rejected (mem : list byte) (fuel e : nat) :
  e <= List.length mem -> e < 36 ->
  snd (parse_RIFF mem fuel 0 e) = Return EXIT_FAILURE
  /\ Forall (fun p => p < e) (loads_of (fst (parse_RIFF mem fuel 0 e))).
Proof.
  intros He Hs.
  assert (O : outcome (within 0 e) no_trap failure (parse_RIFF mem fuel 0 e)
                (fun _ => False)).
  { assert (VL : forall p, p < e -> loadable (within 0 e) no_trap mem p).
    { intros p Hp. split; [unfold within; lia | right; lia]. }
    unfold parse_RIFF. cbn [Nat.add].
    eapply outcome_bind.
    { apply (outcome_header_fields (within 0 e) no_trap failure mem e VL eq_refl).
      right; lia. }
    intros [it1 buf1] (F1 & B1 & _). cbn [fst Nat.add] in *. subst it1.
    eapply outcome_bind.
    { apply (outcome_fmt_fields (within 0 e) no_trap failure mem e VL eq_refl).
      right; lia. }
    intros [[it2 buf2] sc] (F2 & B2 & _). lia. }
  destruct O as [Ht Hr]. split; [|now apply Forall_ev_ok_within].
  destruct (snd (parse_RIFF mem fuel 0 e)) as [a|c|x]; [contradiction| |contradiction].
  now rewrite Hr.
Qed.

Lemma short_file_is_rejected_witness :
  snd (parse_RIFF (list_byte_of_string "RIFF" ++ u32 4 ++ list_byte_of_string "WAVEfmt ") 0 0 16)
  = Return EXIT_FAILURE.
Proof.
  apply (short_file_is_rejected
           (list_byte_of_string "RIFF" ++ u32 4 ++ list_byte_of_string "WAVEfmt ") 0 16).
  - vm_compute. lia.
  - lia.
Defined.

(** ** Silent rejections: files that fail without a diagnostic *)

Lemma memcmp_eq_view_neq mem it (lit : list byte) :
  it + 4 <= List.length mem -> List.length lit = 4 ->
  view mem it 4 <> lit -> memcmp_eq (view mem it 4) lit 4 = false.
Proof.
  intros H Hl Hne. destruct (memcmp_eq (view mem it 4) lit 4) eqn:E; [|reflexivity].
  apply memcmp_eq_view in E; auto. contradiction.
Qed.

(** X7. A wrong magic number is rejected at once and without a word: when
    the first four bytes of the view are not [RIFF], [parse_RIFF] returns
    [EXIT_FAILURE] having written nothing to stdout or stderr and having
    loaded only those four bytes (none at all when the view is shorter than
    four bytes). *)
Theorem wrong_magic_is_rejected_silently (mem : list byte) (fuel e : nat) :
  e <= List.length mem ->
  view mem 0 4 <> list_byte_of_string "RIFF" ->
  parse_RIFF mem fuel 0 e
  = (map Load (seq 0 (if e <? 4 then 0 else 4)), Return EXIT_FAILURE).
Proof.
  intros He Hne. unfold parse_RIFF, parse_RIFF_header. cbn [Nat.add].
  destruct (Nat.ltb_spec e 4).
  - rewrite read_or_fail_underrun by lia. reflexivity.
  - rewrite read_or_fail_ok by lia. norm. cbv beta iota.
    rewrite memcmp_eq_view_app_l by lia.
    rewrite memcmp_eq_view_neq by (auto; lia). cbn [negb].
    unfold return_. norm. rewrite emit_pair. now rewrite app_nil_r.
Qed.

Lemma wrong_magic_is_rejected_silently_witness :
  parse_RIFF (list_byte_of_string "RIFX" ++ u32 28 ++ list_byte_of_string "WAVE") 0 0 12
  = (map Load (seq 0 4), Return EXIT_FAILURE).
Proof.
  apply (wrong_magic_is_rejected_silently
           (list_byte_of_string "RIFX" ++ u32 28 ++ list_byte_of_string "WAVE") 0 12).
  - vm_compute. lia.
  - vm_compute. discriminate.
Defined.

(** X8. The first chunk must be [fmt ]: a view with a good RIFF preamble
    (magic, a ChunkSize that fits, a format tag) whose bytes 12..15 are not
    [fmt ] is rejected with [EXIT_FAILURE] after the preamble line, with
    nothing on stderr, having loaded the first sixteen bytes once each, in
    order; nothing after them is looked at. *)
Theorem first_chunk_must_be_fmt (mem : list byte) (fuel e : nat) :
  e <= List.length mem -> 16 <= e ->
  view mem 0 4 = list_byte_of_string "RIFF" ->
  (uint_le (view mem 4 4) <= N.of_nat (e - 8))%N ->
  view mem 12 4 <> list_byte_of_string "fmt " ->
  snd (parse_RIFF mem fuel 0 e) = Return EXIT_FAILURE
  /\ stdout_of (fst (parse_RIFF mem fuel 0 e))
     = ("RIFF[ChunkSize: " ++ fmt_u (uint_le (view mem 4 4)) ++ ", Format: '"
        ++ fmt_s_prec 4 (view mem 8 4) ++ "']" ++ nl)%string
  /\ stderr_of (fst (parse_RIFF mem fuel 0 e)) = EmptyString
  /\ loads_of (fst (parse_RIFF mem fuel 0 e)) = seq 0 16.
Proof.
  intros He H16 Hid Hs Hne.
  rewrite parse_RIFF_valid_size by (auto; lia).
  unfold riff_after_size, parse_RIFF_fmt.
  rewrite read_or_fail_ok by lia. norm. cbv beta iota.
  rewrite fmt_s_prec_view_app by lia. norm. cbv beta iota.
  change (8 + 4) with 12.
  rewrite read_or_fail_ok by lia. norm. cbv beta iota.
  rewrite memcmp_eq_view_app_l by lia.
  rewrite memcmp_eq_view_neq by (auto; lia). cbn [negb].
  unfold return_. norm. rewrite !emit_emit, !emit_pair. cbn [fst snd].
  split; [reflexivity|]. split; [|split].
  - rewrite !stdout_of_app. cbn [stdout_of]. rewrite !stdout_of_map_Load.
    cbn [String.append]. rewrite ?string_app_assoc, ?string_app_nil_r. reflexivity.
  - rewrite !stderr_of_app. cbn [stderr_of]. rewrite !stderr_of_map_Load. reflexivity.
  - rewrite !loads_of_app. cbn [loads_of]. rewrite !loads_of_map_Load. reflexivity.
Qed.

Lemma first_chunk_must_be_fmt_witness :
  snd (parse_RIFF (list_byte_of_string "RIFF" ++ u32 12 ++ list_byte_of_string "WAVE"
                   ++ list_byte_of_string "data" ++ u32 0) 0 0 20)
  = Return EXIT_FAILURE.
Proof.
  apply (first_chunk_must_be_fmt
           (list_byte_of_string "RIFF" ++ u32 12 ++ list_byte_of_string "WAVE"
            ++ list_byte_of_string "data" ++ u32 0) 0 20).
  - vm_compute. lia.
  - lia.
  - reflexivity.
  - vm_compute. discriminate.
  - vm_compute. discriminate.
Defined.

(** X9. A trailing fragment: when between one and seven bytes are left
    for the walker (too few for a chunk ID and a size) and the bytes present
    of the ID are 7-bit, the iteration returns [EXIT_FAILURE] with no output
    on either stream; it has loaded the ID when four bytes or more were
    left, and nothing otherwise. *)
Theorem trailing_fragment_fails_silently
    (mem : list byte) (fuel e it : nat) (buf : list byte) (sc : Z) :
  e <= List.length mem -> it <= e -> e < it + 8 ->
  (it + 4 <= e -> all_ascii (view mem it 4) = true) ->
  walk_subchunk mem fuel e (it, buf, sc)
  = (map Load (seq it (if e <? it + 4 then 0 else 4)), Return EXIT_FAILURE).
Proof.
  intros He Hi H8 Ha. unfold walk_subchunk.
  destruct (Nat.ltb_spec e (it + 4)).
  - rewrite read_or_fail_underrun by lia. reflexivity.
  - rewrite read_or_fail_ok by lia. norm. cbv beta iota.
    rewrite is_ascii_local by (rewrite length_app, view_length; lia).
    rewrite firstn_view_app, Ha by lia. norm. cbn [negb].
    rewrite read_or_fail_underrun by lia. norm.
    rewrite emit_pair. now rewrite app_nil_r.
Qed.

Lemma trailing_fragment_fails_silently_witness :
  walk_subchunk (wav_header 33 16 ++ list_byte_of_string "data" ++ [x01]) 0 41
    (36, list_byte_of_string "fmt ", 1%Z)
  = (map Load (seq 36 4), Return EXIT_FAILURE).
Proof.
  apply (trailing_fragment_fails_silently
           (wav_header 33 16 ++ list_byte_of_string "data" ++ [x01]) 0 41 36
           (list_byte_of_string "fmt ") 1%Z).
  - vm_compute. lia.
  - lia.
  - lia.
  - intros _. reflexivity.
Defined.

(** ** LIST chunks of another list type *)

(** X10. A LIST payload whose list type is not [INFO] is opaque: for every
    payload of four bytes or more inside the mapping, [parse_subchunk_INFO]
    loads the four bytes of the list type and nothing else, prints [...]
    and returns [EXIT_SUCCESS], whatever the budget. *)
Theorem foreign_list_is_opaque (mem : list byte) (fuel raw len : nat) :
  raw + len <= List.length mem -> 4 <= len ->
  view mem raw 4 <> list_byte_of_string "INFO" ->
  parse_subchunk_INFO mem fuel raw len
  = (map Load (seq raw 4) ++ [Stdout "..."], Return EXIT_SUCCESS).
Proof.
  intros He H4 Hne. unfold parse_subchunk_INFO.
  rewrite read_or_fail_ok by lia. norm. cbv beta iota.
  rewrite memcmp_eq_view_app_l by lia.
  rewrite memcmp_eq_view_neq by (auto; lia).
  norm. unfold return_. now rewrite !emit_pair.
Qed.

Lemma foreign_list_is_opaque_witness :
  parse_subchunk_INFO (list_byte_of_string "adtllabl" ++ u32 0) 0 0 12
  = (map Load (seq 0 4) ++ [Stdout "..."], Return EXIT_SUCCESS).
Proof.
  apply (foreign_list_is_opaque (list_byte_of_string "adtllabl" ++ u32 0) 0 0 12).
  - vm_compute. lia.
  - lia.
  - vm_compute. discriminate.
Defined.

(** ** What [print_raw] and [is_ascii] do to a payload *)

Lemma loads_of_print_raw_events q bs :
  loads_of (print_raw_events q bs) = seq q (List.length bs).
Proof. revert q. induction bs as [|b bs IH]; intros q; simpl; congruence. Qed.

Lemma list_ascii_of_string_app (a b : string) :
  list_ascii_of_string (a ++ b) = list_ascii_of_string a ++ list_ascii_of_string b.
Proof. induction a; simpl; congruence. Qed.

Lemma string_length_app (a b : string) :
  String.length (a ++ b) = String.length a + String.length b.
Proof. induction a; simpl; congruence. Qed.

Lemma raw_char_text_check (b : byte) :
  (forallb (fun c => printable (byte_of_ascii c))
     (list_ascii_of_string (raw_char_text b))
   && (1 <=? String.length (raw_char_text b))
   && (String.length (raw_char_text b) <=? 3))%bool = true.
Proof. destruct b; vm_compute; reflexivity. Qed.

Lemma raw_char_text_printable (b : byte) :
  Forall (fun c => printable (byte_of_ascii c) = true)
    (list_ascii_of_string (raw_char_text b))
  /\ 1 <= String.length (raw_char_text b) <= 3.
Proof.
  pose proof (raw_char_text_check b) as H.
  apply andb_true_iff in H. destruct H as [H H3].
  apply andb_true_iff in H. destruct H as [H1 H2].
  apply Nat.leb_le in H2, H3. rewrite forallb_forall in H1.
  split; [apply Forall_forall; exact H1 | lia].
Qed.

Lemma raw_text_printable (bs : list byte) :
  Forall (fun c => printable (byte_of_ascii c) = true)
    (list_ascii_of_string (raw_text bs))
  /\ List.length bs <= String.length (raw_text bs) <= 3 * List.length bs.
Proof.
  induction bs as [|b bs [IH1 IH2]]; cbn [raw_text List.length].
  - split; [constructor | simpl; lia].
  - destruct (raw_char_text_printable b) as [H1 H2].
    rewrite list_ascii_of_string_app, string_length_app.
    split; [now apply Forall_app | lia].
Qed.

(** X11. [print_raw] sanitises what it prints: over any run of [n] bytes
    inside the mapping it completes, loads each byte once in ascending
    order, writes nothing to stderr, and every character it sends to stdout
    is in the printable range [' ' .. '~'], between one and three
    characters for each byte. *)
Theorem print_raw_output_is_printable (mem : list byte) (q n : nat) :
  q + n <= List.length mem ->
  snd (print_raw (mapped mem q) n) = Val tt
  /\ loads_of (fst (print_raw (mapped mem q) n)) = seq q n
  /\ stderr_of (fst (print_raw (mapped mem q) n)) = EmptyString
  /\ Forall (fun c => printable (byte_of_ascii c) = true)
       (list_ascii_of_string (stdout_of (fst (print_raw (mapped mem q) n))))
  /\ n <= String.length (stdout_of (fst (print_raw (mapped mem q) n))) <= 3 * n.
Proof.
  intros H. rewrite print_raw_ok by lia. cbn [fst snd].
  rewrite loads_of_print_raw_events, stderr_of_print_raw_events,
    stdout_of_print_raw_events.
  destruct (raw_text_printable (view mem q n)) as [H1 H2].
  rewrite view_length in * by lia. auto.
Qed.

Lemma print_raw_output_is_printable_witness :
  loads_of (fst (print_raw (mapped [x00; x0a; x41; xff; x7f] 1) 4)) = seq 1 4.
Proof.
  apply (print_raw_output_is_printable [x00; x0a; x41; xff; x7f] 1 4).
  simpl. lia.
Defined.

Lemma is_ascii_from_mapped (mem : list byte) (q n i : nat) :
  q + i + n <= List.length mem ->
  is_ascii_from (mapped mem q) i n
  = (map Load (seq (q + i) (Nat.min n (S (ascii_run (view mem (q + i) n))))),
     Val (all_ascii (view mem (q + i) n))).
Proof.
  revert i. induction n as [|n IH]; intros i H; [reflexivity|].
  destruct (skipn_cons_nth mem (q + i)) as (b & Hb & _); [lia|].
  cbn [is_ascii_from]. unfold mapped at 1.
  rewrite (load_ok _ _ _ Hb), (view_cons _ _ _ _ Hb). norm.
  cbn [all_ascii forallb ascii_run].
  destruct (isascii (char_of_byte b)); cbn [negb andb].
  - rewrite IH by lia. replace (q + S i) with (S (q + i)) by lia.
    rewrite emit_pair. rewrite <- Nat.succ_min_distr. reflexivity.
  - unfold ret. rewrite emit_pair.
    rewrite <- Nat.succ_min_distr, Nat.min_0_r. reflexivity.
Qed.

Lemma is_ascii_mapped_ok (mem : list byte) (q n : nat) :
  q + n <= List.length mem ->
  is_ascii (mapped mem q) n
  = (map Load (seq q (Nat.min n (S (ascii_run (view mem q n))))),
     Val (all_ascii (view mem q n))).
Proof.
  intros H. unfold is_ascii. rewrite is_ascii_from_mapped by lia.
  now rewrite Nat.add_0_r.
Qed.

Lemma all_ascii_run (bs : list byte) :
  all_ascii bs = (ascii_run bs =? List.length bs) /\ ascii_run bs <= List.length bs.
Proof.
  induction bs as [|b bs [IH1 IH2]]; [split; reflexivity|].
  cbn [all_ascii forallb ascii_run List.length].
  destruct (isascii (char_of_byte b)); cbn [andb].
  - split; [exact IH1 | lia].
  - split; [reflexivity | lia].
Qed.

(** X12. [is_ascii] stops at the first byte that is not 7-bit: over a run
    of [n] bytes inside the mapping, of which the first [k] are 7-bit and
    the next one (if any) is not, it loads the bytes at offsets
    [0 .. min n (k + 1)) of the run, in order, once each, and answers
    whether [k = n]; no byte after the offending one is looked at. *)
Theorem is_ascii_stops_at_first_high_byte (mem : list byte) (q n : nat) :
  q + n <= List.length mem ->
  is_ascii (mapped mem q) n
  = (map Load (seq q (Nat.min n (S (ascii_run (view mem q n))))),
     Val (ascii_run (view mem q n) =? n))
  /\ ascii_run (view mem q n) <= n.
Proof.
  intros H. rewrite is_ascii_mapped_ok by lia.
  destruct (all_ascii_run (view mem q n)) as [E B].
  rewrite view_length in * by lia. now rewrite E.
Qed.

Lemma is_ascii_stops_at_first_high_byte_witness :
  is_ascii (mapped [x41; x42; xe9; x43; x44] 0) 5
  = (map Load [0; 1; 2], Val false).
Proof.
  apply (is_ascii_stops_at_first_high_byte [x41; x42; xe9; x43; x44] 0 5).
  simpl. lia.
Defined.

(** ** Chunks other than LIST *)

Lemma memcmp_eq_lit_view_neq mem it (lit : list byte) :
  it + 4 <= List.length mem -> List.length lit = 4 ->
  view mem it 4 <> lit -> memcmp_eq lit (view mem it 4) 4 = false.
Proof.
  intros H Hl Hne. destruct (memcmp_eq lit (view mem it 4) 4) eqn:E; [|reflexivity].
  unfold memcmp_eq in E. apply bytes_eqb_eq in E.
  rewrite !firstn_all2 in E by (rewrite ?view_length; lia). congruence.
Qed.

(** The run of the walker over a chunk that is not a LIST and lies inside
    the view. *)
Lemma walk_subchunk_plain
    (mem : list byte) (fuel e it : nat) (buf : list byte) (sc : Z) :
  e <= List.length mem ->
  it + 8 + N.to_nat (uint_le (view mem (it + 4) 4)) <= e ->
  all_ascii (view mem it 4) = true ->
  view mem it 4 <> list_byte_of_string "LIST" ->
  walk_subchunk mem fuel e (it, buf, sc)
  = (map Load (seq it 4) ++ map Load (seq (it + 4) 4)
     ++ [Stdout ("[SubChunk" ++ fmt_d (sc + 1) ++ "Id: '"
                 ++ fmt_s_prec 4 (view mem it 4) ++ "', ")%string;
         Stdout ("size: " ++ fmt_u (uint_le (view mem (it + 4) 4)) ++ ", ")%string]
     ++ map Load
          (seq (it + 8)
             (Nat.min (N.to_nat (uint_le (view mem (it + 4) 4)))
                (S (ascii_run (view mem (it + 8)
                                 (N.to_nat (uint_le (view mem (it + 4) 4))))))))
     ++ (if all_ascii (view mem (it + 8) (N.to_nat (uint_le (view mem (it + 4) 4))))
         then print_raw_events (it + 8)
                (view mem (it + 8) (N.to_nat (uint_le (view mem (it + 4) 4))))
         else [Stdout "..."])
     ++ [Stdout ("]" ++ nl)%string],
     Val (it + 8 + N.to_nat (uint_le (view mem (it + 4) 4)),
          view mem it 4 ++ skipn 4 buf, (sc + 1)%Z)).
Proof.
  intros He Hf Ha Hne. unfold walk_subchunk.
  rewrite read_or_fail_ok by lia. norm. cbv beta iota.
  rewrite is_ascii_local by (rewrite length_app, view_length; lia).
  rewrite firstn_view_app, memcmp_eq_view_app_r, fmt_s_prec_view_app, Ha by lia.
  norm. cbn [negb].
  rewrite read_or_fail_ok by lia. norm. cbv beta iota.
  rewrite fresh_object_rest. replace (it + 4 + 4) with (it + 8) by lia.
  rewrite remaining_read_ok by lia. norm.
  destruct (N.ltb_spec (N.of_nat (e - (it + 8))) (uint_le (view mem (it + 4) 4)));
    [lia|].
  norm. rewrite memcmp_eq_lit_view_neq by (auto; lia).
  rewrite is_ascii_mapped_ok by lia. norm.
  destruct (all_ascii (view mem (it + 8) (N.to_nat (uint_le (view mem (it + 4) 4))))).
  - rewrite print_raw_ok by lia. norm. unfold ret.
    rewrite !emit_emit, !emit_pair, <- ?app_assoc, app_nil_r. reflexivity.
  - norm. unfold ret.
    rewrite !emit_emit, !emit_pair, <- ?app_assoc, app_nil_r. reflexivity.
Qed.

(** X13. How the walker shows a chunk that is not a LIST: when the chunk
    (a 7-bit ID other than [LIST], a size, and as many payload bytes as the
    size declares) lies inside the view, the iteration succeeds, counts the
    chunk, leaves the cursor just after the payload, writes nothing to
    stderr, and prints the payload as [print_raw] text when every payload
    byte is 7-bit and as [...] otherwise. *)
Theorem plain_chunk_is_text_or_opaque
    (mem : list byte) (fuel e it : nat) (buf : list byte) (sc : Z) :
  e <= List.length mem ->
  it + 8 + N.to_nat (uint_le (view mem (it + 4) 4)) <= e ->
  all_ascii (view mem it 4) = true ->
  view mem it 4 <> list_byte_of_string "LIST" ->
  snd (walk_subchunk mem fuel e (it, buf, sc))
  = Val (it + 8 + N.to_nat (uint_le (view mem (it + 4) 4)),
         view mem it 4 ++ skipn 4 buf, (sc + 1)%Z)
  /\ stdout_of (fst (walk_subchunk mem fuel e (it, buf, sc)))
     = ("[SubChunk" ++ fmt_d (sc + 1) ++ "Id: '" ++ fmt_s_prec 4 (view mem it 4)
        ++ "', " ++ "size: " ++ fmt_u (uint_le (view mem (it + 4) 4)) ++ ", "
        ++ (if all_ascii (view mem (it + 8) (N.to_nat (uint_le (view mem (it + 4) 4))))
            then raw_text (view mem (it + 8) (N.to_nat (uint_le (view mem (it + 4) 4))))
            else "...")
        ++ "]" ++ nl)%string
  /\ stderr_of (fst (walk_subchunk mem fuel e (it, buf, sc))) = EmptyString.
Proof.
  intros He Hf Ha Hne. rewrite walk_subchunk_plain by assumption.
  cbn [fst snd]. split; [reflexivity|].
  destruct (all_ascii (view mem (it + 8) (N.to_nat (uint_le (view mem (it + 4) 4)))));
    split; text_norm; reflexivity.
Qed.

Lemma plain_chunk_is_text_or_opaque_witness :
  snd (walk_subchunk (wav_header 37 16 ++ list_byte_of_string "data" ++ u32 1 ++ [xff])
         0 45 (36, list_byte_of_string "fmt ", 1%Z))
  = Val (45, list_byte_of_string "data", 2%Z).
Proof.
  apply (plain_chunk_is_text_or_opaque
           (wav_header 37 16 ++ list_byte_of_string "data" ++ u32 1 ++ [xff])
           0 45 36 (list_byte_of_string "fmt ") 1%Z).
  - vm_compute. lia.
  - vm_compute. lia.
  - reflexivity.
  - vm_compute. discriminate.
Defined.

(** ** The padding loop of an INFO field *)

Lemma firstn_snoc {A} (l : list A) (n : nat) (a : A) :
  nth_error l n = Some a -> firstn (S n) l = firstn n l ++ [a].
Proof.
  revert l. induction n as [|n IH]; intros [|x l] H; try discriminate.
  - now injection H as ->.
  - cbn [nth_error] in H. cbn [firstn app]. f_equal. now apply IH.
Qed.

Lemma view_snoc (mem : list byte) (it n : nat) (b : byte) :
  nth_error mem (it + n) = Some b ->
  view mem it (S n) = view mem it n ++ [b].
Proof.
  intros H. unfold view. apply firstn_snoc. now rewrite nth_error_skipn.
Qed.

Lemma repeat_snoc {A} (a : A) (n : nat) : repeat a (S n) = repeat a n ++ [a].
Proof. induction n as [|n IH]; [reflexivity|]. cbn [repeat app] in *. now rewrite <- IH. Qed.

Lemma outcome_info_pad_run (mem : list byte) (fuel e it : nat) (extra : bool) :
  outcome anything anything anything
    (while_ fuel (info_pad_cond mem e) info_pad_body (it, extra))
    (fun s => it <= fst s <= e
              /\ view mem it (fst s - it) = repeat x00 (fst s - it)
              /\ (fst s = e \/ exists b, nth_error mem (fst s) = Some b /\ b <> x00)).
Proof.
  eapply outcome_weaken.
  - apply outcome_while with
      (Inv := fun s => it <= fst s
                       /\ view mem it (fst s - it) = repeat x00 (fst s - it))
      (C := fun s => fst s < e /\ nth_error mem (fst s) = Some x00)
      (E := fun s => fst s <= e
                     /\ (fst s = e \/ exists b, nth_error mem (fst s) = Some b /\ b <> x00))
      (mu := fun s => e - fst s).
    + intros [i x] [Hi Hv]. cbn [fst snd] in *. unfold info_pad_cond.
      eapply outcome_bind; [apply outcome_remaining_read; now left|].
      intros r [-> Hle]. destruct (Nat.ltb_spec 0 (e - i)).
      * eapply outcome_bind; [apply outcome_load, loadable_anything|].
        intros b Hb. apply outcome_ret.
        destruct (Byte.eqb b x00) eqn:E.
        -- apply Byte.byte_dec_bl in E. subst b. split; [lia | exact Hb].
        -- split; [lia|]. right. exists b. split; [exact Hb|].
           intros ->. discriminate E.
      * apply outcome_ret. split; [lia | left; lia].
    + intros [i x] [Hi Hv] [Hc Hb]. cbn [fst snd] in *. unfold info_pad_body.
      apply outcome_bind with (P := fun _ => True).
      { destruct (negb x); [now apply outcome_printf | now apply outcome_ret]. }
      intros _ _. apply outcome_printf_then. apply outcome_ret.
      cbn [fst snd]. split; [|now left]. split; [lia|].
      replace (S i - it) with (S (i - it)) by lia.
      rewrite (view_snoc mem it (i - it) x00), repeat_snoc, Hv; [reflexivity|].
      now replace (it + (i - it)) with i by lia.
    + cbn [fst]. rewrite Nat.sub_diag. split; [lia | reflexivity].
    + now left.
  - intros [i x] [[Hi Hv] [Hle Hx]]. cbn [fst] in *. repeat split; auto.
Qed.

(** X14. After an INFO field the parser skips the whole run of NUL bytes
    that follows the payload: when [info_field] completes, the cursor is at
    or after the end of the declared payload and inside the view, every
    byte between the end of the payload and the cursor is NUL, and the
    cursor rests either on the end of the view or on a byte that is not
    NUL.  So the next field ID never starts with a NUL byte. *)
Theorem info_field_skips_the_nul_run
    (mem : list byte) (fuel e it it' : nat) (buf buf' : list byte)
    (t : list event) :
  info_field mem fuel e (it, buf) = (t, Val (it', buf')) ->
  it + 8 + N.to_nat (uint_le (view mem (it + 4) 4)) <= it' <= e
  /\ view mem (it + 8 + N.to_nat (uint_le (view mem (it + 4) 4)))
       (it' - (it + 8 + N.to_nat (uint_le (view mem (it + 4) 4))))
     = repeat x00 (it' - (it + 8 + N.to_nat (uint_le (view mem (it + 4) 4))))
  /\ (it' = e \/ exists b, nth_error mem it' = Some b /\ b <> x00).
Proof.
  intros H.
  refine (outcome_Val anything anything anything _
            (fun s => it + 8 + N.to_nat (uint_le (view mem (it + 4) 4)) <= fst s <= e
              /\ view mem (it + 8 + N.to_nat (uint_le (view mem (it + 4) 4)))
                   (fst s - (it + 8 + N.to_nat (uint_le (view mem (it + 4) 4))))
                 = repeat x00 (fst s - (it + 8 + N.to_nat (uint_le (view mem (it + 4) 4))))
              /\ (fst s = e \/ exists b, nth_error mem (fst s) = Some b /\ b <> x00))
            t (it', buf') _ H).
  clear H. unfold info_field.
  eapply outcome_bind.
  { apply outcome_read_or_fail; [now left | intros; apply loadable_anything | exact I]. }
  intros [it1 buf1] (E1 & B1 & _). cbn [fst snd] in *. subst it1.
  apply outcome_printf_then.
  eapply outcome_bind.
  { apply outcome_read_or_fail; [now left | intros; apply loadable_anything | exact I]. }
  intros [it2 sz] (E2 & B2 & V2 & _). cbn [fst snd] in *. subst it2.
  rewrite fresh_object_rest in V2. subst sz.
  apply outcome_printf_then.
  eapply outcome_bind; [apply outcome_remaining_read; now left|].
  intros r [-> _].
  destruct (N.ltb_spec (N.of_nat (e - (it + 4 + 4))) (uint_le (view mem (it + 4) 4))).
  - eapply outcome_bind; [apply outcome_remaining_read; now left|].
    intros r _. apply outcome_fprintf_then. now apply outcome_return.
  - apply outcome_bind with (P := fun _ => True).
    { apply outcome_print_raw_from. intros j _.
      apply outcome_mapped, loadable_anything. }
    intros _ _. apply outcome_printf_then.
    eapply outcome_bind; [apply outcome_info_pad_run|].
    intros [it3 extra] H3. cbn [fst] in H3.
    apply outcome_bind with (P := fun _ => True).
    { destruct extra; [now apply outcome_printf | now apply outcome_ret]. }
    intros _ _. apply outcome_printf_then. apply outcome_ret.
    cbn [fst]. replace (it + 8) with (it + 4 + 4) by lia. exact H3.
Qed.

Lemma info_field_skips_the_nul_run_witness :
  view (list_byte_of_string "IART" ++ u32 1 ++ [x41; x00; x00; x00] ++ list_byte_of_string "INAM") 9 3
  = repeat x00 3.
Proof.
  apply (info_field_skips_the_nul_run
           (list_byte_of_string "IART" ++ u32 1 ++ [x41; x00; x00; x00]
            ++ list_byte_of_string "INAM")
           17 16 0 12 (fresh_object 4) (list_byte_of_string "IART")
           (fst (info_field (list_byte_of_string "IART" ++ u32 1 ++ [x41; x00; x00; x00]
                             ++ list_byte_of_string "INAM") 17 16 (0, fresh_object 4)))).
  vm_compute. reflexivity.
Defined.

(** ** The walker's chunk counter *)

Lemma outcome_anything {A} (m : M A) :
  outcome anything anything anything m (fun _ => True).
Proof.
  split; [|destruct (snd m); exact I].
  induction (fst m) as [|[s|s|p] t IH]; constructor; auto; exact I.
Qed.

Lemma outcome_walk_subchunk_counter
    (mem : list byte) (fuel e it : nat) (buf : list byte) (sc : Z) :
  outcome anything anything anything (walk_subchunk mem fuel e (it, buf, sc))
    (fun s => fst (fst s) = it + 8 + N.to_nat (uint_le (view mem (it + 4) 4))
              /\ fst (fst s) <= e
              /\ snd (fst s) = view mem it 4 ++ skipn 4 buf
              /\ snd s = (sc + 1)%Z).
Proof.
  unfold walk_subchunk.
  eapply outcome_bind.
  { apply outcome_read_or_fail; [now left | intros; apply loadable_anything | exact I]. }
  intros [it1 buf1] (E1 & B1 & V1 & L1). cbn [fst snd] in *. subst it1.
  eapply outcome_bind; [apply outcome_anything|].
  intros a _. destruct (negb a).
  { apply outcome_printf_then. now apply outcome_return. }
  eapply outcome_bind.
  { apply outcome_read_or_fail; [now left | intros; apply loadable_anything | exact I]. }
  intros [it2 sz] (E2 & B2 & V2 & _). cbn [fst snd] in *. subst it2.
  rewrite fresh_object_rest in V2. subst sz.
  eapply outcome_bind; [apply outcome_remaining_read; now left|].
  intros r [-> _].
  destruct (N.ltb_spec (N.of_nat (e - (it + 4 + 4))) (uint_le (view mem (it + 4) 4))).
  { eapply outcome_bind; [apply outcome_remaining_read; now left|].
    intros r _. apply outcome_fprintf_then. now apply outcome_return. }
  apply outcome_printf_then. apply outcome_printf_then.
  eapply outcome_bind; [apply outcome_anything|].
  intros _ _. apply outcome_printf_then. apply outcome_ret. cbn [fst snd].
  repeat split; auto; lia.
Qed.

(** X15. The walker counts one per chunk, and a chunk takes at least its
    eight header bytes: when the top-level loop runs to completion from
    cursor [it] and counter [sc], it ends with the cursor exactly at the end
    of the view and a counter [sc'] with [8 * (sc' - sc) <= end - it].  The
    [int] counter therefore cannot overflow on any file shorter than
    16 GiB. *)
Theorem counter_is_bounded_by_the_bytes_walked
    (mem : list byte) (fuel e it it' : nat) (buf buf' : list byte)
    (sc sc' : Z) (t : list event) :
  while_ fuel (walk_cond e) (walk_subchunk mem fuel e) (it, buf, sc)
  = (t, Val (it', buf', sc')) ->
  it' = e /\ it <= e /\ (sc <= sc')%Z /\ (8 * (sc' - sc) <= Z.of_nat (e - it))%Z.
Proof.
  intros H.
  refine (outcome_Val anything anything anything _
            (fun s => fst (fst s) = e /\ it <= e /\ (sc <= snd s)%Z
                      /\ (8 * (snd s - sc) <= Z.of_nat (e - it))%Z)
            t (it', buf', sc') _ H).
  clear H. eapply outcome_weaken.
  - apply outcome_while with
      (Inv := fun s => it <= fst (fst s) /\ (sc <= snd s)%Z
                       /\ (8 * (snd s - sc) <= Z.of_nat (fst (fst s) - it))%Z)
      (C := fun s => fst (fst s) < e) (E := fun s => fst (fst s) = e)
      (mu := fun s => e - fst (fst s)).
    + intros [[i b] c] _. cbn [fst snd]. unfold walk_cond.
      eapply outcome_bind; [apply outcome_remaining_read; now left|].
      intros r [-> Hle]. apply outcome_ret.
      destruct (Nat.ltb_spec 0 (e - i)); lia.
    + intros [[i b] c] (Hi & Hc & Hb) Hlt. cbn [fst snd] in *.
      eapply outcome_weaken; [apply outcome_walk_subchunk_counter|].
      intros [[i' b'] c'] (H1 & H2 & _ & H3). cbn [fst snd] in *.
      split; [|now left]. lia.
    + cbn [fst snd]. lia.
    + now left.
  - intros [[i b] c] [(Hi & Hc & Hb) He]. cbn [fst snd] in *. subst i.
    repeat split; auto.
Qed.

Lemma counter_is_bounded_by_the_bytes_walked_witness :
  (1 <= 3)%Z /\ (8 * (3 - 1) <= Z.of_nat (53 - 36))%Z.
Proof.
  apply (counter_is_bounded_by_the_bytes_walked
           (wav_header 45 16 ++ list_byte_of_string "data" ++ u32 1 ++ [x41]
            ++ list_byte_of_string "cue " ++ u32 0)
           54 53 36 53 (list_byte_of_string "fmt ") (list_byte_of_string "cue ")
           1%Z 3%Z
           (fst (while_ 54 (walk_cond 53)
                   (walk_subchunk (wav_header 45 16 ++ list_byte_of_string "data"
                                   ++ u32 1 ++ [x41]
                                   ++ list_byte_of_string "cue " ++ u32 0) 54 53)
                   (36, list_byte_of_string "fmt ", 1%Z)))).
  vm_compute. reflexivity.
Defined.

(** ** [main] *)

(** X16. [main] ends with exit code 0 or 1: on every command line and
    every file system whose answers are consistent (a file that can be
    mapped has at least [st_size] bytes in its mapping), with a budget above
    the file size, [main] returns; it does not trap, its exit code is
    [EXIT_SUCCESS] or [EXIT_FAILURE], and every byte it loaded lies inside
    the file. *)
Theorem main_exits_with_0_or_1
    (fuel : nat) (open : option string -> string + file) (args : list string) :
  (forall fd size raw,
     open (nth_error args 1) = inr fd -> st_size fd = inr size ->
     mapping fd = inr raw -> size <= List.length raw /\ size < fuel) ->
  exists c,
    snd (main fuel open args) = Return c
    /\ (c = EXIT_SUCCESS \/ c = EXIT_FAILURE)
    /\ forall fd size, open (nth_error args 1) = inr fd -> st_size fd = inr size ->
       Forall (fun p => p < size) (loads_of (fst (main fuel open args))).
Proof.
  intros Hfs. unfold main.
  set (usage := if negb (List.length args =? 2) then _ else _).
  assert (Hu : exists tu, usage = (tu, Val tt) /\ loads_of tu = []).
  { subst usage. destruct (negb _); eexists; split; reflexivity. }
  destruct Hu as (tu & -> & Hl). rewrite bind_Val.
  destruct (open (nth_error args 1)) as [err|fd] eqn:Eo.
  { exists EXIT_FAILURE. split; [reflexivity|]. split; [now right|].
    intros fd' size' Hd. discriminate Hd. }
  destruct (st_size fd) as [err|size] eqn:Es.
  { exists EXIT_FAILURE. split; [reflexivity|]. split; [now right|].
    intros fd' size' Hd Hs. injection Hd as <-. rewrite Es in Hs. discriminate Hs. }
  destruct (mapping fd) as [err|raw] eqn:Em.
  { exists EXIT_FAILURE. split; [reflexivity|]. split; [now right|].
    intros fd' size' _ _. cbn [fst emit bind fprintf_stderr return_].
    rewrite app_nil_r, loads_of_app, Hl. constructor. }
  destruct (Hfs fd size raw eq_refl Es Em) as [Hle Hf].
  assert (O : outcome (within 0 size) no_trap exit_code
                (parse_RIFF raw fuel 0 size) (fun _ => False)).
  { apply outcome_parse_RIFF with (e := size).
    - intros p Hp. split; [unfold within; lia | right; lia].
    - now right.
    - now right.
    - now left.
    - reflexivity. }
  destruct O as [Ht Hr]. apply Forall_ev_ok_within in Ht.
  destruct (parse_RIFF raw fuel 0 size) as [tp [a|c|x]]; cbn [fst snd] in *;
    try contradiction.
  exists c. cbn [call]. rewrite bind_Val. unfold return_ at 1. rewrite !emit_pair.
  cbn [fst snd]. split; [reflexivity|]. split; [exact Hr|].
  intros fd' size' Hd Hs. injection Hd as <-. rewrite Es in Hs. injection Hs as <-.
  unfold return_, emit. cbn [fst snd]. rewrite app_nil_r, loads_of_app, Hl. exact Ht.
Qed.

Lemma main_exits_with_0_or_1_witness :
  exists c,
    snd (main 37 (one_file "a.wav" (wav_header 28 16)) ["riff"; "a.wav"]) = Return c
    /\ (c = EXIT_SUCCESS \/ c = EXIT_FAILURE)
    /\ forall fd size,
         one_file "a.wav" (wav_header 28 16) (nth_error ["riff"; "a.wav"] 1) = inr fd ->
         st_size fd = inr size ->
         Forall (fun p => p < size)
           (loads_of (fst (main 37 (one_file "a.wav" (wav_header 28 16))
                             ["riff"; "a.wav"]))).
Proof.
  apply (main_exits_with_0_or_1 37 (one_file "a.wav" (wav_header 28 16))
           ["riff"; "a.wav"]).
  intros fd size raw. vm_compute. intros [= <-]. cbn. intros [= <-] [= <-].
  cbn. lia.
Defined.



(** X18. A run of [main] that exits with 0 reported no error: the only
    text it can have written to stderr is the usage line, and that only
    when the argument count was not 2. *)
Theorem successful_run_reports_no_error
    (fuel : nat) (open : option string -> string + file) (args : list string)
    (t : list event) :
  main fuel open args = (t, Return EXIT_SUCCESS) ->
  stderr_of t
  = if List.length args =? 2 then EmptyString
    else (fmt_arg (nth_error args 0) ++ " file" ++ nl)%string.
Proof.
  unfold main.
  set (usage := if negb (List.length args =? 2) then _ else _).
  assert (Hu : exists tu, usage = (tu, Val tt)
                 /\ stderr_of tu
                    = if List.length args =? 2 then EmptyString
                      else (fmt_arg (nth_error args 0) ++ " file" ++ nl)%string).
  { subst usage. destruct (List.length args =? 2); cbn [negb];
      eexists; split; try reflexivity. cbn [stderr_of].
    now rewrite string_app_nil_r. }
  destruct Hu as (tu & -> & <-). rewrite bind_Val.
  destruct (open (nth_error args 1)) as [err|fd];
    [rewrite bind_fprintf_stderr; unfold return_, emit; cbn [fst snd]; discriminate|].
  destruct (st_size fd) as [err|size];
    [rewrite bind_fprintf_stderr; unfold return_, emit; cbn [fst snd]; discriminate|].
  destruct (mapping fd) as [err|raw];
    [rewrite bind_fprintf_stderr; unfold return_, emit; cbn [fst snd]; discriminate|].
  pose proof (quiet_parse_RIFF raw fuel 0 size) as Q.
  destruct (parse_RIFF raw fuel 0 size) as [tp [a|c|x]]; cbn [call];
    rewrite ?bind_Val, ?bind_Trap; unfold return_, emit; cbn [fst snd];
    intros H; try discriminate H; injection H as <- ->;
    (destruct Q as [Q|Q]; [|discriminate Q]); cbn [fst] in Q;
    now rewrite app_nil_r, stderr_of_app, Q, string_app_nil_r.
Qed.

Lemma successful_run_reports_no_error_witness :
  stderr_of (fst (main 37 (one_file "a.wav" (wav_header 28 16)) ["riff"; "a.wav"]))
  = EmptyString.
Proof.
  apply (successful_run_reports_no_error 37 (one_file "a.wav" (wav_header 28 16))
           ["riff"; "a.wav"]).
  vm_compute. reflexivity.
Defined.

(** ** The table of [AudioFormat] *)

Lemma switch_table_check (cases : list (N * string)) (k : N) (s : string) :
  forallb (fun c => match switch cases (fst c) with
                    | Some s' => String.eqb (snd c) s' && (fst c <? 65536)%N
                    | None => false
                    end) cases = true ->
  In (k, s) cases -> switch cases k = Some s /\ (k < 65536)%N.
Proof.
  intros H Hin. rewrite forallb_forall in H. specialize (H (k, s) Hin).
  cbn [fst snd] in H. destruct (switch cases k) as [s'|]; [|discriminate].
  apply andb_true_iff in H. destruct H as [H1 H2].
  apply String.eqb_eq in H1. apply N.ltb_lt in H2. subst. auto.
Qed.

(** X19. The [switch] of [AudioFormat] is a function on [uint16_t]: every
    case label fits in 16 bits and no label occurs twice, so each of the 244
    listed codes is rendered as the name written next to it; a code that is
    not listed is rendered in decimal. *)
Theorem AudioFormat_names_every_listed_code (k : N) (s : string) :
  In (k, s) AudioFormat_cases ->
  AudioFormat k = s /\ (k < 65536)%N
  /\ (forall v, ~ In v (map fst AudioFormat_cases) ->
        AudioFormat v = fmt_d (Z.of_N v)).
Proof.
  intros Hin.
  destruct (switch_table_check AudioFormat_cases k s) as [H1 H2];
    [vm_compute; reflexivity | exact Hin |].
  unfold AudioFormat. rewrite H1. repeat split; auto.
  intros v Hv.
  assert (G : forall cases, ~ In v (map fst cases) -> switch cases v = None).
  { induction cases as [|[k' s'] cases IH]; intros Hn; [reflexivity|].
    cbn [switch]. destruct (N.eqb_spec v k') as [->|_].
    - exfalso. apply Hn. now left.
    - apply IH. intros Hc. apply Hn. now right. }
  now rewrite (G _ Hv).
Qed.

Lemma AudioFormat_names_every_listed_code_witness :
  AudioFormat 0xFFFE = "Extensible".
Proof.
  apply (AudioFormat_names_every_listed_code 0xFFFE "Extensible").
  apply in_rev. vm_compute. right. left. reflexivity.
Defined.

(** ** Files the parser accepts *)

Lemma to_N_byte_of_N (n : N) : Byte.to_N (byte_of_N n) = (n mod 256)%N.
Proof.
  unfold byte_of_N. destruct (Byte.of_N (n mod 256)) as [b|] eqn:E.
  - now apply Byte.to_of_N.
  - apply Byte.of_N_None_iff in E.
    assert (n mod 256 < 256)%N by (apply N.mod_lt; discriminate). lia.
Qed.

Lemma uint_le_le_bytes (k : nat) (n : N) :
  uint_le (le_bytes k n) = (n mod 256 ^ N.of_nat k)%N.
Proof.
  revert n. induction k as [|k IH]; intros n.
  - cbn [le_bytes uint_le]. change (256 ^ N.of_nat 0)%N with 1%N.
    now rewrite N.mod_1_r.
  - cbn [le_bytes uint_le]. rewrite to_N_byte_of_N, IH.
    rewrite Nat2N.inj_succ, N.pow_succ_r'.
    rewrite N.Div0.mod_mul_r. reflexivity.
Qed.

Lemma uint_le_u32 (n : N) : (n < 2 ^ 32)%N -> uint_le (u32 n) = n.
Proof.
  intros H. unfold u32. rewrite uint_le_le_bytes.
  change (256 ^ N.of_nat 4)%N with (2 ^ 32)%N. now apply N.mod_small.
Qed.

Lemma length_le_bytes (k : nat) (n : N) : List.length (le_bytes k n) = k.
Proof. revert n. induction k as [|k IH]; intros n; simpl; auto. Qed.

Lemma view_of_skipn (mem : list byte) (it : nat) (a r : list byte) :
  skipn it mem = a ++ r ->
  view mem it (List.length a) = a
  /\ skipn (it + List.length a) mem = r.
Proof.
  intros H. unfold view. rewrite H. split.
  - rewrite firstn_app, Nat.sub_diag, firstn_all. cbn [firstn]. apply app_nil_r.
  - rewrite Nat.add_comm, <- skipn_skipn, H.
    rewrite skipn_app, Nat.sub_diag, skipn_all. reflexivity.
Qed.

Lemma walk_plain_chunks (mem : list byte) (fuel' : nat) :
  forall (cs : list (list byte * list byte)) (fuel it : nat) (buf : list byte) (sc : Z),
  Forall plain cs -> it <= List.length mem ->
  skipn it mem = chunks_bytes cs -> List.length cs < fuel ->
  exists b,
    snd (while_ fuel (walk_cond (List.length mem))
           (walk_subchunk mem fuel' (List.length mem)) (it, buf, sc))
    = Val (List.length mem, b, (sc + Z.of_nat (List.length cs))%Z).
Proof.
  induction cs as [|[id p] cs IH]; intros fuel it buf sc Hp Hi Hs Hf;
    (destruct fuel as [|k]; [cbn [List.length] in Hf; lia|]);
    rewrite while_unfold.
  - cbn [chunks_bytes] in Hs.
    assert (it = List.length mem).
    { apply (f_equal (@List.length byte)) in Hs. rewrite length_skipn in Hs.
      cbn [List.length] in Hs. lia. }
    subst it. unfold walk_cond. rewrite remaining_read_ok by lia. norm.
    rewrite Nat.sub_diag. cbn [Nat.ltb Nat.leb]. exists buf. cbn [ret snd List.length].
    now rewrite Z.add_0_r.
  - inversion Hp as [|? ? (L4 & Ha & Hne & Hn) Hp']. subst. cbn [fst snd] in *.
    cbn [chunks_bytes] in Hs. unfold chunk_bytes in Hs. cbn [fst snd] in Hs.
    rewrite <- !app_assoc in Hs.
    assert (Hlen : List.length mem
                   = it + (4 + (4 + (List.length p + List.length (chunks_bytes cs))))).
    { apply (f_equal (@List.length byte)) in Hs.
      rewrite length_skipn, !length_app, L4 in Hs.
      unfold u32 in Hs. rewrite length_le_bytes in Hs. lia. }
    destruct (view_of_skipn _ _ _ _ Hs) as [V1 S1]. rewrite L4 in V1, S1.
    destruct (view_of_skipn _ _ _ _ S1) as [V2 S2].
    unfold u32 in V2, S2. rewrite length_le_bytes in V2, S2. fold u32 in V2, S2.
    destruct (view_of_skipn _ _ _ _ S2) as [V3 S3].
    rewrite walk_cond_true by lia. norm.
    assert (Hsz : N.to_nat (uint_le (view mem (it + 4) 4)) = List.length p).
    { rewrite V2, uint_le_u32 by assumption. apply Nat2N.id. }
    rewrite walk_subchunk_plain; try lia; try (rewrite V1; assumption).
    norm. rewrite Hsz.
    destruct (IH k (it + 8 + List.length p) (view mem it 4 ++ skipn 4 buf) (sc + 1)%Z)
      as (b & Hb); auto; try lia.
    + rewrite <- S3. f_equal. lia.
    + cbn [List.length] in Hf. lia.
    + exists b. unfold emit. cbn [snd]. rewrite Hb.
      cbn [List.length]. f_equal. f_equal. lia.
Qed.

Lemma parse_RIFF_fmt_ok (mem : list byte) (e it : nat) (buf : list byte) (sc : Z) :
  e <= List.length mem -> it + 24 <= e ->
  view mem it 4 = list_byte_of_string "fmt " ->
  snd (parse_RIFF_fmt mem e it buf sc)
  = Val (it + 24, list_byte_of_string "fmt " ++ skipn 4 buf, (sc + 1)%Z).
Proof.
  intros He Hi Hid. unfold parse_RIFF_fmt.
  rewrite read_or_fail_ok by lia. norm. cbv beta iota.
  rewrite memcmp_eq_view_app_l, Hid by lia.
  change (negb (memcmp_eq (list_byte_of_string "fmt ")
                  (list_byte_of_string "fmt ") 4)) with false.
  cbv iota. norm.
  repeat (rewrite read_or_fail_ok by lia; norm; cbv beta iota).
  unfold ret, emit. cbn [snd]. f_equal. f_equal. f_equal. lia.
Qed.

(** X20. Files the parser accepts: any mapping that starts with a RIFF
    preamble (the bytes [RIFF], a ChunkSize that does not exceed the bytes
    after it, any format tag) and a [fmt ] chunk (the ID followed by any
    twenty bytes, whatever size and fields they declare), followed by any
    sequence of well-formed chunks that are not LISTs, is parsed to the end
    with [EXIT_SUCCESS] and nothing on stderr, given a budget above the
    number of chunks. *)
Theorem plain_chunks_are_accepted
    (mem : list byte) (cs : list (list byte * list byte)) (fuel : nat) :
  36 <= List.length mem ->
  view mem 0 4 = list_byte_of_string "RIFF" ->
  (uint_le (view mem 4 4) <= N.of_nat (List.length mem - 8))%N ->
  view mem 12 4 = list_byte_of_string "fmt " ->
  skipn 36 mem = chunks_bytes cs ->
  Forall plain cs ->
  List.length cs < fuel ->
  snd (parse_RIFF mem fuel 0 (List.length mem)) = Return EXIT_SUCCESS
  /\ stderr_of (fst (parse_RIFF mem fuel 0 (List.length mem))) = EmptyString.
Proof.
  intros H36 Hid Hc Hfmt Hs Hp Hf.
  assert (S : snd (parse_RIFF mem fuel 0 (List.length mem)) = Return EXIT_SUCCESS).
  { rewrite parse_RIFF_valid_size by (auto; lia).
    unfold riff_after_size.
    rewrite read_or_fail_ok by lia. norm. cbv beta iota.
    pose proof (parse_RIFF_fmt_ok mem (List.length mem) (8 + 4)
                  (view mem 8 4 ++ skipn 4 (list_byte_of_string "RIFF")) 0%Z
                  (le_n _)) as F.
    destruct (parse_RIFF_fmt mem (List.length mem) (8 + 4) _ 0) as [tf rf].
    cbn [snd] in F. rewrite F by (try exact Hfmt; lia). norm.
    destruct (walk_plain_chunks mem fuel cs fuel (8 + 4 + 24)
                (list_byte_of_string "fmt "
                 ++ skipn 4 (view mem 8 4 ++ skipn 4 (list_byte_of_string "RIFF")))
                (0 + 1)%Z Hp) as (b & Hb); try lia.
    { exact Hs. }
    destruct (while_ fuel _ _ _) as [tw rw]. cbn [snd] in Hb. subst rw.
    norm. reflexivity. }
  split; [exact S|].
  pose proof (quiet_parse_RIFF mem fuel 0 (List.length mem)) as Q.
  destruct Q as [Q|Q]; [exact Q|]. rewrite S in Q. discriminate Q.
Qed.

(** A file that is not WAVE, whose [fmt ] chunk holds twenty bytes [0xff],
    followed by a one-byte chunk and an empty one. *)
Lemma plain_chunks_are_accepted_witness :
  snd (parse_RIFF
         (list_byte_of_string "RIFF" ++ u32 45 ++ list_byte_of_string "AVI fmt "
          ++ repeat xff 20
          ++ chunks_bytes [(list_byte_of_string "data", [x41]);
                           (list_byte_of_string "cue ", [])]) 3 0
         (List.length
            (list_byte_of_string "RIFF" ++ u32 45 ++ list_byte_of_string "AVI fmt "
             ++ repeat xff 20
             ++ chunks_bytes [(list_byte_of_string "data", [x41]);
                              (list_byte_of_string "cue ", [])])))
  = Return EXIT_SUCCESS.
Proof.
  apply (plain_chunks_are_accepted
           (list_byte_of_string "RIFF" ++ u32 45 ++ list_byte_of_string "AVI fmt "
            ++ repeat xff 20
            ++ chunks_bytes [(list_byte_of_string "data", [x41]);
                             (list_byte_of_string "cue ", [])])
           [(list_byte_of_string "data", [x41]); (list_byte_of_string "cue ", [])] 3).
  - simpl. lia.
  - reflexivity.
  - vm_compute. discriminate.
  - reflexivity.
  - reflexivity.
  - repeat constructor; try discriminate; reflexivity.
  - simpl. lia.
Defined.

(** ** INFO lists the parser renders *)

Lemma nth_error_of_skipn (mem : list byte) (q j : nat) (a r : list byte) (b : byte) :
  skipn q mem = a ++ r -> nth_error a j = Some b -> nth_error mem (q + j) = Some b.
Proof.
  intros H Hj. rewrite <- nth_error_skipn, H.
  rewrite nth_error_app1; [exact Hj|]. apply nth_error_Some. congruence.
Qed.

Lemma info_pad_nuls (mem : list byte) (e : nat) :
  forall (k fuel p : nat) (x : bool),
  p + k <= e ->
  (forall j, j < k -> nth_error mem (p + j) = Some x00) ->
  (p + k = e \/ exists b, nth_error mem (p + k) = Some b /\ b <> x00) ->
  k < fuel ->
  exists t,
    while_ fuel (info_pad_cond mem e) info_pad_body (p, x)
    = (t, Val (p + k, (x || (0 <? k))%bool))
    /\ stdout_of t = ((if (x || (k =? 0)%nat)%bool then EmptyString else "Extra[")
                      ++ nuls k)%string
    /\ stderr_of t = EmptyString.
Proof.
  induction k as [|k IH]; intros fuel p x Hle Hn Hend Hf;
    (destruct fuel as [|fuel]; [lia|]).
  - rewrite Nat.add_0_r in *. rewrite info_pad_stop by (auto; lia).
    eexists. split; [rewrite orb_false_r; reflexivity|].
    rewrite orb_true_r. destruct (p <? e); split; reflexivity.
  - rewrite while_unfold. unfold info_pad_cond at 1.
    rewrite remaining_read_ok by lia. norm.
    destruct (Nat.ltb_spec 0 (e - p)); [|lia].
    pose proof (Hn 0 ltac:(lia)) as H0. rewrite Nat.add_0_r in H0.
    rewrite (load_ok _ _ _ H0). norm.
    change (Byte.eqb x00 x00) with true. cbv iota.
    destruct (IH fuel (S p) true) as (t & Et & Eo & Ee); try lia.
    { intros j Hj. replace (S p + j) with (p + S j) by lia. apply Hn. lia. }
    { replace (S p + k) with (p + S k) by lia. exact Hend. }
    unfold info_pad_body at 1. cbn [orb] in Et, Eo.
    replace (S p + k) with (p + S k) in Et by lia.
    cbn [Nat.ltb Nat.leb Nat.eqb]. rewrite orb_true_r, orb_false_r.
    destruct x; cbn [negb]; norm; rewrite Et; unfold ret; norm;
      rewrite ?emit_emit, ?emit_pair;
      (eexists; split; [reflexivity|]);
      (split; [text_norm; rewrite Eo; reflexivity
              |text_norm; rewrite Ee; reflexivity]).
Qed.

Lemma nth_error_repeat_lt {A} (a : A) (n j : nat) :
  j < n -> nth_error (repeat a n) j = Some a.
Proof.
  revert j. induction n as [|n IH]; intros [|j] H; try lia; [reflexivity|].
  cbn [repeat nth_error]. apply IH. lia.
Qed.

Lemma fields_bytes_head (f : list byte * list byte * nat)
    (fs : list (list byte * list byte * nat)) (rest : list byte) :
  field_ok f ->
  exists b tl, fields_bytes (f :: fs) ++ rest = b :: tl /\ b <> x00.
Proof.
  destruct f as [[id p] pad]. intros (L & Hh & _).
  destruct id as [|b id]; [discriminate L|].
  exists b. eexists. split; [reflexivity | exact Hh].
Qed.

Lemma info_field_ok (mem : list byte) (fuel e it : nat) (buf : list byte)
    (id p : list byte) (pad : nat) (tl : list byte) :
  it <= List.length mem ->
  skipn it mem = field_bytes (id, p, pad) ++ tl ->
  field_ok (id, p, pad) ->
  it + List.length (field_bytes (id, p, pad)) <= e <= List.length mem ->
  (it + List.length (field_bytes (id, p, pad)) = e
   \/ exists b tl', tl = b :: tl' /\ b <> x00) ->
  pad < fuel ->
  exists t,
    info_field mem fuel e (it, buf)
    = (t, Val (it + List.length (field_bytes (id, p, pad)), id ++ skipn 4 buf))
    /\ stdout_of t = field_text (id, p, pad)
    /\ stderr_of t = EmptyString.
Proof.
  intros Hi Hs (L4 & _ & Hn) He Hend Hf.
  unfold field_bytes in *. rewrite <- !app_assoc in Hs.
  rewrite !length_app, L4, repeat_length in *.
  unfold u32 in He, Hend |- *. rewrite length_le_bytes in *.
  destruct (view_of_skipn _ _ _ _ Hs) as [V1 S1]. rewrite L4 in V1, S1.
  destruct (view_of_skipn _ _ _ _ S1) as [V2 S2].
  unfold u32 in V2, S2. rewrite length_le_bytes in V2, S2. fold u32 in V2, S2.
  destruct (view_of_skipn _ _ _ _ S2) as [V3 S3].
  destruct (view_of_skipn _ _ _ _ S3) as [_ S4]. rewrite repeat_length in S4.
  assert (Hsz : N.to_nat (uint_le (view mem (it + 4) 4)) = List.length p).
  { rewrite V2, uint_le_u32 by assumption. apply Nat2N.id. }
  rewrite info_field_fits by lia. rewrite Hsz.
  destruct (info_pad_nuls mem e pad fuel (it + 8 + List.length p) false)
    as (tp & Ep & Eo & Ee); try lia.
  { intros j Hj. replace (it + 8 + List.length p + j)
      with (it + 4 + 4 + List.length p + j) by lia.
    apply (nth_error_of_skipn _ _ _ _ _ _ S3). now apply nth_error_repeat_lt. }
  { destruct Hend as [Hend|(b & tl' & -> & Hb)]; [left; lia|].
    right. exists b. split; [|exact Hb].
    replace (it + 8 + List.length p + pad)
      with (it + 4 + 4 + List.length p + pad + 0) by lia.
    apply (nth_error_of_skipn _ _ _ [b] tl' _ S4). reflexivity. }
  cbn [orb] in Ep, Eo.
  replace (it + (4 + (4 + (List.length p + pad))))
    with (it + 8 + List.length p + pad) by lia.
  replace (it + 4 + 4) with (it + 8) in V3 by lia.
  unfold field_text. rewrite Ep, V1, V2, V3, uint_le_u32 by assumption.
  destruct pad as [|pad]; cbn [Nat.ltb Nat.leb Nat.eqb] in *;
    norm; unfold ret; rewrite ?emit_emit, ?emit_pair;
    (eexists; split; [reflexivity|]);
    (split; text_norm; rewrite ?Eo, ?Ee; text_norm; reflexivity).
Qed.

Lemma info_loop_fields (mem : list byte) (fuel' : nat) (rest : list byte) :
  forall (fs : list (list byte * list byte * nat)) (fuel it : nat) (buf : list byte),
  Forall field_ok fs -> Forall (fun f => snd f < fuel') fs ->
  it <= List.length mem ->
  skipn it mem = fields_bytes fs ++ rest ->
  List.length fs < fuel ->
  exists t b,
    while_ fuel (info_cond (it + List.length (fields_bytes fs)))
      (info_field mem fuel' (it + List.length (fields_bytes fs))) (it, buf)
    = (t, Val (it + List.length (fields_bytes fs), b))
    /\ stdout_of t = fields_text fs
    /\ stderr_of t = EmptyString.
Proof.
  induction fs as [|[[id p] pad] fs IH]; intros fuel it buf Hok Hpad Hi Hs Hf;
    (destruct fuel as [|k]; [cbn [List.length] in Hf; lia|]);
    rewrite while_unfold.
  - cbn [fields_bytes List.length]. rewrite Nat.add_0_r.
    rewrite info_cond_false. norm. exists [], buf. repeat split.
  - inversion Hok as [|? ? Hok1 Hok']. inversion Hpad as [|? ? Hpad1 Hpad']. subst.
    cbn [snd] in Hpad1. cbn [fields_bytes] in *. rewrite <- app_assoc in Hs.
    set (n := List.length (field_bytes (id, p, pad))) in *.
    assert (Hmem : it + List.length (field_bytes (id, p, pad) ++ fields_bytes fs)
                   <= List.length mem).
    { apply (f_equal (@List.length byte)) in Hs.
      rewrite length_skipn, !length_app in Hs. rewrite length_app. lia. }
    rewrite length_app in *. fold n in Hmem |- *.
    assert (Hn : 8 <= n).
    { subst n. unfold field_bytes. destruct Hok1 as (L4 & _).
      rewrite !length_app, L4. unfold u32. rewrite length_le_bytes. lia. }
    rewrite info_cond_true by lia. norm.
    destruct (info_field_ok mem fuel' (it + (n + List.length (fields_bytes fs))) it buf
                id p pad (fields_bytes fs ++ rest))
      as (t1 & E1 & O1 & R1); auto; try (fold n; lia).
    { fold n. destruct fs as [|f fs].
      - left. cbn [fields_bytes List.length]. lia.
      - right. inversion Hok' as [|? ? Hf1 _]. subst.
        destruct (fields_bytes_head f fs rest Hf1) as (b & tl & Eb & Hb).
        exists b, tl. split; assumption. }
    rewrite E1. fold n. norm.
    destruct (view_of_skipn _ _ _ _ Hs) as [_ S1]. fold n in S1.
    destruct (IH k (it + n) (id ++ skipn 4 buf) Hok' Hpad') as (t2 & b & E2 & O2 & R2);
      auto; try lia.
    { cbn [List.length] in Hf. lia. }
    rewrite Nat.add_assoc. rewrite E2. rewrite emit_pair.
    exists (t1 ++ t2), b. repeat split.
    + rewrite stdout_of_app, O1, O2. reflexivity.
    + rewrite stderr_of_app, R1, R2. reflexivity.
Qed.

Lemma parse_subchunk_INFO_fields
    (mem : list byte) (fuel raw : nat)
    (fs : list (list byte * list byte * nat)) (rest : list byte) :
  raw <= List.length mem ->
  skipn raw mem = list_byte_of_string "INFO" ++ fields_bytes fs ++ rest ->
  Forall field_ok fs ->
  Forall (fun f => snd f < fuel) fs ->
  List.length fs < fuel ->
  exists t,
    parse_subchunk_INFO mem fuel raw (4 + List.length (fields_bytes fs))
    = (t, Return EXIT_SUCCESS)
    /\ stdout_of t = ("INFO[" ++ nl ++ fields_text fs ++ "]")%string
    /\ stderr_of t = EmptyString.
Proof.
  intros Hr Hs Hok Hpad Hf.
  assert (Hmem : raw + (4 + List.length (fields_bytes fs)) <= List.length mem).
  { apply (f_equal (@List.length byte)) in Hs.
    rewrite length_skipn, !length_app in Hs.
    change (List.length (list_byte_of_string "INFO")) with 4 in Hs. lia. }
  destruct (view_of_skipn _ _ _ _ Hs) as [V1 S1].
  change (List.length (list_byte_of_string "INFO")) with 4 in V1, S1.
  unfold parse_subchunk_INFO.
  rewrite read_or_fail_ok by lia. norm. cbv beta iota.
  rewrite memcmp_eq_view_app_l, fmt_s_prec_view_app, V1 by lia.
  change (memcmp_eq (list_byte_of_string "INFO") (list_byte_of_string "INFO") 4)
    with true.
  change (fmt_s_prec 4 (list_byte_of_string "INFO")) with "INFO".
  cbv iota. norm.
  destruct (info_loop_fields mem fuel rest fs fuel (raw + 4)
              (list_byte_of_string "INFO" ++ skipn 4 (fresh_object 4)) Hok Hpad)
    as (t & b & E & O & R); auto; try lia.
  rewrite Nat.add_assoc, E. norm. unfold return_.
  rewrite !emit_emit, !emit_pair.
  eexists. split; [reflexivity|].
  split; text_norm; rewrite ?O, ?R; text_norm; reflexivity.
Qed.

(** X21. INFO lists the parser renders: a LIST payload made of the list
    type [INFO] followed by fields (a four-byte ID that does not start with
    NUL, a size, that many payload bytes, then any number of NUL bytes) is
    parsed to its end with [EXIT_SUCCESS] and nothing on stderr, wherever it
    lies in the mapping and whatever follows it; the dump is [INFO[], one
    line for each field (ID, size, the payload as [print_raw] text, and an
    [Extra[...]] marker holding one [\0] for each NUL byte after the
    payload), and a closing bracket. *)
Theorem info_list_is_rendered
    (mem : list byte) (fuel raw : nat)
    (fs : list (list byte * list byte * nat)) (rest : list byte) :
  raw <= List.length mem ->
  skipn raw mem = list_byte_of_string "INFO" ++ fields_bytes fs ++ rest ->
  Forall field_ok fs ->
  Forall (fun f => snd f < fuel) fs ->
  List.length fs < fuel ->
  snd (parse_subchunk_INFO mem fuel raw (4 + List.length (fields_bytes fs)))
  = Return EXIT_SUCCESS
  /\ stdout_of (fst (parse_subchunk_INFO mem fuel raw
                       (4 + List.length (fields_bytes fs))))
     = ("INFO[" ++ nl ++ fields_text fs ++ "]")%string
  /\ stderr_of (fst (parse_subchunk_INFO mem fuel raw
                       (4 + List.length (fields_bytes fs))))
     = EmptyString.
Proof.
  intros Hr Hs Hok Hpad Hf.
  destruct (parse_subchunk_INFO_fields mem fuel raw fs rest Hr Hs Hok Hpad Hf)
    as (t & -> & O & R).
  cbn [fst snd]. auto.
Qed.

Lemma info_list_is_rendered_witness :
  stdout_of (fst (parse_subchunk_INFO
                    (list_byte_of_string "INFO"
                     ++ fields_bytes [(list_byte_of_string "IART", [x41], 1);
                                      (list_byte_of_string "INAM", [x42; x0a], 0)]
                     ++ [x00])
                    3 0
                    (4 + List.length
                           (fields_bytes [(list_byte_of_string "IART", [x41], 1);
                                          (list_byte_of_string "INAM", [x42; x0a], 0)]))))
  = ("INFO[" ++ nl
     ++ fields_text [(list_byte_of_string "IART", [x41], 1);
                     (list_byte_of_string "INAM", [x42; x0a], 0)]
     ++ "]")%string.
Proof.
  apply (info_list_is_rendered
           (list_byte_of_string "INFO"
            ++ fields_bytes [(list_byte_of_string "IART", [x41], 1);
                             (list_byte_of_string "INAM", [x42; x0a], 0)]
            ++ [x00])
           3 0
           [(list_byte_of_string "IART", [x41], 1);
            (list_byte_of_string "INAM", [x42; x0a], 0)]
           [x00]).
  - simpl. lia.
  - reflexivity.
  - repeat constructor; try discriminate; reflexivity.
  - repeat constructor.
  - simpl. lia.
Defined.

(** X22. A LIST chunk holding a well-formed INFO list is shown in full:
    when the chunk lies inside the view, the walker prints the chunk
    header, the dump of the list as the INFO parser renders it, and the
    closing bracket; it writes nothing to stderr, counts the chunk and
    leaves the cursor just after the list. *)
Theorem info_LIST_chunk_is_shown
    (mem : list byte) (fuel e it : nat) (buf : list byte) (sc : Z)
    (fs : list (list byte * list byte * nat)) (rest : list byte) :
  it <= List.length mem -> e <= List.length mem ->
  skipn it mem
  = list_byte_of_string "LIST"
    ++ u32 (N.of_nat (4 + List.length (fields_bytes fs)))
    ++ list_byte_of_string "INFO" ++ fields_bytes fs ++ rest ->
  it + 12 + List.length (fields_bytes fs) <= e ->
  (N.of_nat (4 + List.length (fields_bytes fs)) < 2 ^ 32)%N ->
  Forall field_ok fs ->
  Forall (fun f => snd f < fuel) fs ->
  List.length fs < fuel ->
  snd (walk_subchunk mem fuel e (it, buf, sc))
  = Val (it + 12 + List.length (fields_bytes fs),
         list_byte_of_string "LIST" ++ skipn 4 buf, (sc + 1)%Z)
  /\ stdout_of (fst (walk_subchunk mem fuel e (it, buf, sc)))
     = ("[SubChunk" ++ fmt_d (sc + 1) ++ "Id: 'LIST', " ++ "size: "
        ++ fmt_u (N.of_nat (4 + List.length (fields_bytes fs))) ++ ", "
        ++ "INFO[" ++ nl ++ fields_text fs ++ "]" ++ "]" ++ nl)%string
  /\ stderr_of (fst (walk_subchunk mem fuel e (it, buf, sc))) = EmptyString.
Proof.
  intros Hi He Hs Hfit H32 Hok Hpad Hf.
  destruct (view_of_skipn _ _ _ _ Hs) as [V1 S1].
  change (List.length (list_byte_of_string "LIST")) with 4 in V1, S1.
  destruct (view_of_skipn _ _ _ _ S1) as [V2 S2].
  unfold u32 in V2, S2. rewrite length_le_bytes in V2, S2. fold u32 in V2, S2.
  replace (it + 4 + 4) with (it + 8) in S2 by lia.
  destruct (parse_subchunk_INFO_fields mem fuel (it + 8) fs rest) as (t & E & O & R);
    auto; try lia.
  unfold walk_subchunk.
  rewrite read_or_fail_ok by lia. norm. cbv beta iota.
  rewrite is_ascii_local by (rewrite length_app, view_length; lia).
  rewrite firstn_view_app, memcmp_eq_view_app_r, fmt_s_prec_view_app by lia.
  rewrite V1.
  change (all_ascii (list_byte_of_string "LIST")) with true.
  norm. cbn [negb].
  rewrite read_or_fail_ok by lia. norm. cbv beta iota.
  rewrite fresh_object_rest. replace (it + 4 + 4) with (it + 8) by lia.
  rewrite remaining_read_ok by lia. norm.
  rewrite V2, uint_le_u32 by assumption.
  destruct (N.ltb_spec (N.of_nat (e - (it + 8)))
              (N.of_nat (4 + List.length (fields_bytes fs)))); [lia|].
  norm.
  change (memcmp_eq (list_byte_of_string "LIST") (list_byte_of_string "LIST") 4)
    with true.
  change (fmt_s_prec 4 (list_byte_of_string "LIST")) with "LIST".
  cbv iota. rewrite Nat2N.id, E. cbn [call]. norm.
  change (negb (EXIT_SUCCESS =? EXIT_SUCCESS)%Z) with false. cbv iota.
  norm. unfold ret. rewrite !emit_emit, !emit_pair. cbn [fst snd].
  split; [f_equal; f_equal; f_equal; lia|].
  split; text_norm; rewrite ?O, ?R; text_norm; reflexivity.
Qed.

Lemma info_LIST_chunk_is_shown_witness :
  stderr_of (fst (walk_subchunk
                    (wav_header 57 16 ++ list_byte_of_string "LIST" ++ u32 13
                     ++ list_byte_of_string "INFO"
                     ++ fields_bytes [(list_byte_of_string "IART", [x41], 0)])
                    2 57 (36, list_byte_of_string "fmt ", 1%Z)))
  = EmptyString.
Proof.
  apply (info_LIST_chunk_is_shown
           (wav_header 57 16 ++ list_byte_of_string "LIST" ++ u32 13
            ++ list_byte_of_string "INFO"
            ++ fields_bytes [(list_byte_of_string "IART", [x41], 0)])
           2 57 36 (list_byte_of_string "fmt ") 1%Z
           [(list_byte_of_string "IART", [x41], 0)] []).
  - simpl. lia.
  - simpl. lia.
  - reflexivity.
  - simpl. lia.
  - reflexivity.
  - repeat constructor; try discriminate; reflexivity.
  - repeat constructor.
  - simpl. lia.
Defined.

(** ** Failures inside a LIST chunk *)

(** X23. An INFO field that declares more bytes than are left in the list
    makes the list parser fail before it touches the payload: on a list of
    type [INFO] whose first field declares a size above the bytes that
    follow its header, [parse_subchunk_INFO] returns [EXIT_FAILURE], reports
    the declared size and the bytes left on stderr, and has loaded exactly
    the list type and the eight header bytes of the field. *)
Theorem oversized_INFO_field_fails
    (mem : list byte) (fuel raw len : nat) :
  raw + len <= List.length mem -> 12 <= len ->
  view mem raw 4 = list_byte_of_string "INFO" ->
  (N.of_nat (len - 12) < uint_le (view mem (raw + 8) 4))%N ->
  snd (parse_subchunk_INFO mem (S fuel) raw len) = Return EXIT_FAILURE
  /\ stderr_of (fst (parse_subchunk_INFO mem (S fuel) raw len))
     = ("ERROR: INFO subcunk size[" ++ fmt_u (uint_le (view mem (raw + 8) 4))
        ++ "] exceeds size[" ++ fmt_u (N.of_nat (len - 12)) ++ "]" ++ nl)%string
  /\ loads_of (fst (parse_subchunk_INFO mem (S fuel) raw len)) = seq raw 12.
Proof.
  intros He H12 Hid Hs. unfold parse_subchunk_INFO.
  rewrite read_or_fail_ok by lia. norm. cbv beta iota.
  rewrite memcmp_eq_view_app_l, fmt_s_prec_view_app, Hid by lia.
  change (memcmp_eq (list_byte_of_string "INFO") (list_byte_of_string "INFO") 4)
    with true.
  cbv iota. norm. rewrite while_unfold.
  rewrite info_cond_true by lia. norm.
  rewrite info_field_overflow; try lia.
  2:{ replace (raw + 4 + 4) with (raw + 8) by lia.
      replace (raw + len - (raw + 4 + 8)) with (len - 12) by lia. exact Hs. }
  replace (raw + 4 + 4) with (raw + 8) by lia.
  replace (raw + len - (raw + 4 + 8)) with (len - 12) by lia.
  norm. rewrite !emit_emit, !emit_pair. cbn [fst snd].
  split; [reflexivity|]. split.
  - text_norm. reflexivity.
  - rewrite !loads_of_app. cbn [loads_of]. rewrite !loads_of_map_Load.
    cbn [loads_of app]. rewrite !app_nil_r.
    replace (raw + 8) with (raw + 4 + 4) by lia.
    rewrite seq_8. replace 12 with (4 + 8) by reflexivity.
    now rewrite seq_app.
Qed.

Lemma oversized_INFO_field_fails_witness :
  snd (parse_subchunk_INFO
         (list_byte_of_string "INFOIART" ++ u32 5 ++ [x41; x42]) 1 0 14)
  = Return EXIT_FAILURE.
Proof.
  apply (oversized_INFO_field_fails
           (list_byte_of_string "INFOIART" ++ u32 5 ++ [x41; x42]) 0 0 14).
  - simpl. lia.
  - lia.
  - reflexivity.
  - vm_compute. reflexivity.
Defined.

(** X24. The walker passes a LIST chunk to the list parser and obeys its
    verdict: for a LIST chunk whose declared payload lies inside the view,
    the iteration prints the chunk header, runs [parse_subchunk_INFO] on
    exactly the declared payload, and then either returns the parser's
    nonzero return code at once (without the closing bracket), or, when the
    parser returned [EXIT_SUCCESS], prints the closing bracket and goes on
    from just after the payload with the counter incremented. *)
Theorem walker_obeys_the_list_parser
    (mem : list byte) (fuel e it : nat) (buf : list byte) (sc : Z)
    (t : list event) (c : Z) :
  e <= List.length mem ->
  it + 8 + N.to_nat (uint_le (view mem (it + 4) 4)) <= e ->
  view mem it 4 = list_byte_of_string "LIST" ->
  parse_subchunk_INFO mem fuel (it + 8) (N.to_nat (uint_le (view mem (it + 4) 4)))
  = (t, Return c) ->
  walk_subchunk mem fuel e (it, buf, sc)
  = (map Load (seq it 8)
     ++ [Stdout ("[SubChunk" ++ fmt_d (sc + 1) ++ "Id: 'LIST', ")%string;
         Stdout ("size: " ++ fmt_u (uint_le (view mem (it + 4) 4)) ++ ", ")%string]
     ++ t ++ (if (c =? EXIT_SUCCESS)%Z then [Stdout ("]" ++ nl)%string] else []),
     if (c =? EXIT_SUCCESS)%Z
     then Val (it + 8 + N.to_nat (uint_le (view mem (it + 4) 4)),
               list_byte_of_string "LIST" ++ skipn 4 buf, (sc + 1)%Z)
     else Return c).
Proof.
  intros He Hf Hid E. unfold walk_subchunk.
  rewrite read_or_fail_ok by lia. norm. cbv beta iota.
  rewrite is_ascii_local by (rewrite length_app, view_length; lia).
  rewrite firstn_view_app, memcmp_eq_view_app_r, fmt_s_prec_view_app by lia.
  rewrite Hid.
  change (all_ascii (list_byte_of_string "LIST")) with true.
  norm. cbn [negb].
  rewrite read_or_fail_ok by lia. norm. cbv beta iota.
  rewrite fresh_object_rest. replace (it + 4 + 4) with (it + 8) by lia.
  rewrite remaining_read_ok by lia. norm.
  destruct (N.ltb_spec (N.of_nat (e - (it + 8))) (uint_le (view mem (it + 4) 4)));
    [lia|].
  norm.
  change (memcmp_eq (list_byte_of_string "LIST") (list_byte_of_string "LIST") 4)
    with true.
  change (fmt_s_prec 4 (list_byte_of_string "LIST")) with "LIST".
  cbv iota. rewrite E. cbn [call]. norm.
  destruct (c =? EXIT_SUCCESS)%Z; cbn [negb]; norm;
    unfold ret, return_; norm; rewrite ?emit_emit, ?emit_pair;
    rewrite <- seq_8, map_app, <- ?app_assoc, ?app_nil_r; reflexivity.
Qed.

Lemma walker_obeys_the_list_parser_witness :
  walk_subchunk (wav_header 46 16 ++ list_byte_of_string "LIST" ++ u32 2 ++ [x41; x42])
    1 46 (36, list_byte_of_string "fmt ", 1%Z)
  = (map Load (seq 36 8)
     ++ [Stdout "[SubChunk2Id: 'LIST', "; Stdout "size: 2, "],
     Return EXIT_FAILURE).
Proof.
  apply (walker_obeys_the_list_parser
           (wav_header 46 16 ++ list_byte_of_string "LIST" ++ u32 2 ++ [x41; x42])
           1 46 36 (list_byte_of_string "fmt ") 1%Z [] EXIT_FAILURE).
  - simpl. lia.
  - vm_compute. lia.
  - reflexivity.
  - vm_compute. reflexivity.
Defined.
